(** * HexSynth: quantizer, arpeggiator, voice manager and loop recorder

    A shallow embedding of [src/utils/music.ts], [src/audio/Arpeggiator.ts]
    and the [AudioEngine] class, together with the properties stated about
    them.

    Conventions.
    - A JavaScript [number] that carries a frequency, a volume or a time is
      an exact real ([R]); IEEE rounding is abstracted away.  A [number]
      that the code only ever produces from [Math.floor], [Math.round] or
      integer literals is an integer ([Z]).
    - [Math.log2 x] is [ln x / ln 2], [Math.pow(2, y)] is [Rpower 2 y].
    - A ghost event's time, which the looper may turn into [NaN], is a
      [JS.number]: a real or [NaN].
    - Pointer ids and track indices are integers ([Z]).
    - Calls into Tone.js (synths, recorder, players, transport) are kept as
      the observable bookkeeping the engine itself performs on them. *)

From stdpp Require Import base strings gmap list sorting.
From Stdlib Require Import ZArith Reals Lra Lia.

(* ===================================================================== *)
(** ** JavaScript numeric primitives over the reals *)
(* ===================================================================== *)

Module JS.

Local Open Scope R_scope.

(** [Math.floor]. *)
Definition floor (x : R) : Z := Zfloor x.

(** [Math.round]: nearest integer, halves towards +infinity. *)
Definition round (x : R) : Z := Zfloor (x + / 2).

(** Truncation towards zero, as used by the [%] operator. *)
Definition trunc (x : R) : Z :=
  if Rlt_dec x 0 then (- Zfloor (- x))%Z else Zfloor x.

(** [x % y] for a divisor that is not zero: the remainder has the sign of
    the dividend. *)
Definition rem (x y : R) : R := x - y * IZR (trunc (x / y)).

(** A [number] that may be [NaN]. *)
Inductive number := Num (r : R) | NaN.

(** [a - b]; [NaN] propagates. *)
Definition sub (a b : number) : number :=
  match a, b with
  | Num x, Num y => Num (x - y)
  | _, _ => NaN
  end.

(** [a % b]: [NaN] when the divisor is zero, and [NaN] propagates. *)
Definition modulo (a b : number) : number :=
  match a, b with
  | Num x, Num y => if Req_dec_T y 0 then NaN else Num (rem x y)
  | _, _ => NaN
  end.

(** [Math.log2]. *)
Definition log2 (x : R) : R := ln x / ln 2.

(** [Math.pow(2, y)]. *)
Definition pow2 (y : R) : R := Rpower 2 y.

(** Reading [a[i]] at an integer index: [None] stands for [undefined]. *)
Definition get {A} (a : list A) (i : Z) : option A :=
  if (i <? 0)%Z then None else a !! Z.to_nat i.

End JS.

Coercion JS.Num : R >-> JS.number.

(* ===================================================================== *)
(** ** The quantizer: [src/utils/music.ts] *)
(* ===================================================================== *)

Module Music.

Import JS.

Inductive ScaleType :=
  | chromatic | major | minor | dorian | phrygian | lydian | mixolydian
  | aeolian | locrian | pentatonicMajor | pentatonicMinor | blues.

Inductive ChordType :=
  | off | triad | sus2 | sus4 | maj7 | m7 | dom7 | dim | aug | maj9 | m9.

#[global] Instance ScaleType_eq_dec : EqDecision ScaleType.
Proof. solve_decision. Defined.

#[global] Instance ChordType_eq_dec : EqDecision ChordType.
Proof. solve_decision. Defined.

Record ScaleDef := { name : string; intervals : list Z }.

Definition SCALES (s : ScaleType) : ScaleDef :=
  match s with
  | chromatic => {| name := "Chromatic"; intervals := [0; 1; 2; 3; 4; 5; 6; 7; 8; 9; 10; 11] |}
  | major => {| name := "Major (Ionian)"; intervals := [0; 2; 4; 5; 7; 9; 11] |}
  | minor => {| name := "Minor (Aeolian)"; intervals := [0; 2; 3; 5; 7; 8; 10] |}
  | dorian => {| name := "Dorian"; intervals := [0; 2; 3; 5; 7; 9; 10] |}
  | phrygian => {| name := "Phrygian"; intervals := [0; 1; 3; 5; 7; 8; 10] |}
  | lydian => {| name := "Lydian"; intervals := [0; 2; 4; 6; 7; 9; 11] |}
  | mixolydian => {| name := "Mixolydian"; intervals := [0; 2; 4; 5; 7; 9; 10] |}
  | aeolian => {| name := "Aeolian"; intervals := [0; 2; 3; 5; 7; 8; 10] |}
  | locrian => {| name := "Locrian"; intervals := [0; 1; 3; 5; 6; 8; 10] |}
  | pentatonicMajor => {| name := "Major Pent"; intervals := [0; 2; 4; 7; 9] |}
  | pentatonicMinor => {| name := "Minor Pent"; intervals := [0; 3; 5; 7; 10] |}
  | blues => {| name := "Blues"; intervals := [0; 3; 5; 6; 7; 10] |}
  end%Z.

Definition is_chromatic (s : ScaleType) : bool :=
  match s with chromatic => true | _ => false end.

(** [diff < minDiff] where [minDiff] starts at [Infinity] ([None]). *)
Definition lt_minDiff (diff : Z) (minDiff : option Z) : bool :=
  match minDiff with
  | None => true
  | Some m => (diff <? m)%Z
  end.

(** One iteration of the [for (const interval of scale.intervals)] loop of
    [getNearestScaleNote]; the loop state is [(minDiff, nearestInterval)]. *)
Definition nearest_step (normalizedIndex : Z) (st : option Z * Z) (interval : Z)
  : option Z * Z :=
  let diff := Z.abs (normalizedIndex - interval) in
  if lt_minDiff diff (fst st) then (Some diff, interval) else st.

Definition nearest_loop (normalizedIndex : Z) (l : list Z) : Z :=
  snd (fold_left (nearest_step normalizedIndex) l (None, 0%Z)).

(** [normalizedIndex] of [getNearestScaleNote]. *)
Definition normalizedIndex (semitonesFromRoot : R) : Z :=
  let noteIndex := round (rem semitonesFromRoot 12) in
  if (noteIndex <? 0)%Z then (noteIndex + 12)%Z else noteIndex.

Definition getNearestScaleNote (semitonesFromRoot : R) (scaleType : ScaleType) : Z :=
  let scale := SCALES scaleType in
  let octave := floor (semitonesFromRoot / 12) in
  let nearestInterval := nearest_loop (normalizedIndex semitonesFromRoot) (intervals scale) in
  (octave * 12 + nearestInterval)%Z.

Definition quantizeFrequency (freq rootFreq : R) (scaleType : ScaleType) : R :=
  if is_chromatic scaleType then freq
  else
    let semitonesEx := (12 * log2 (freq / rootFreq))%R in
    let quantizedSemitones := getNearestScaleNote semitonesEx scaleType in
    (rootFreq * pow2 (IZR quantizedSemitones / 12))%R.

(** The [CHORD_INTERVALS] table; [None] is a missing key. *)
Definition CHORD_INTERVALS (c : ChordType) : option (list Z) :=
  match c with
  | maj7 => Some [0; 4; 7; 11]
  | m7 => Some [0; 3; 7; 10]
  | dom7 => Some [0; 4; 7; 10]
  | sus2 => Some [0; 2; 7]
  | sus4 => Some [0; 5; 7]
  | aug => Some [0; 4; 8]
  | dim => Some [0; 3; 6]
  | maj9 => Some [0; 4; 7; 11; 14]
  | m9 => Some [0; 3; 7; 10; 14]
  | off | triad => None
  end%Z.

(** One iteration of [intervals.forEach((val, idx) => ...)] in the diatonic
    branch; the loop state is [(minDiff, intervalIndex)]. *)
Definition index_step (normBaseMod : Z) (st : Z * Z) (vi : Z * Z) : Z * Z :=
  let '(val, idx) := vi in
  if (Z.abs (val - normBaseMod) <? fst st)%Z
  then (Z.abs (val - normBaseMod), idx) else st.

(** The array paired with its indices, as [forEach] visits it. *)
Definition with_index (l : list Z) : list (Z * Z) :=
  zip l (Z.of_nat <$> seq 0 (length l)).

Definition index_loop (normBaseMod : Z) (l : list Z) : Z :=
  snd (fold_left (index_step normBaseMod) (with_index l) (100, -1)%Z).

(** The body of [chordOffsets.map(offset => ...)].  The index read from
    [intervals] is a remainder by its length, hence always in range. *)
Definition chord_tone (rootFreq : R) (ivs : list Z) (intervalIndex currentOctave offset : Z) : R :=
  let totalIndex := (intervalIndex + offset)%Z in
  let effectiveIntervalIndex := Z.rem totalIndex (Z.of_nat (length ivs)) in
  let octaveShift := (totalIndex / Z.of_nat (length ivs))%Z in
  let scaleInterval := nth (Z.to_nat effectiveIntervalIndex) ivs 0%Z in
  let totalSemitones := (scaleInterval + (currentOctave + octaveShift) * 12)%Z in
  (rootFreq * pow2 (IZR totalSemitones / 12))%R.

Definition getChordFrequencies (baseFreq rootFreq : R) (scaleType : ScaleType)
    (chordType : ChordType) : list R :=
  match chordType with
  | off => [baseFreq]
  | _ =>
    match CHORD_INTERVALS chordType with
    | Some ivs => (fun semitone : Z => (baseFreq * pow2 (IZR semitone / 12))%R) <$> ivs
    | None =>
      if is_chromatic scaleType then
        match chordType with
        | triad => (fun s : Z => (baseFreq * pow2 (IZR s / 12))%R) <$> [0; 4; 7]%Z
        | _ => [baseFreq]
        end
      else
        let semitonesFromRoot := (12 * log2 (baseFreq / rootFreq))%R in
        let quantizedSemitones := getNearestScaleNote semitonesFromRoot scaleType in
        let ivs := intervals (SCALES scaleType) in
        let currentOctave := (quantizedSemitones / 12)%Z in
        let baseNoteIndex := Z.rem quantizedSemitones 12 in
        let normBaseMod := Z.rem (Z.rem baseNoteIndex 12 + 12) 12 in
        let intervalIndex := index_loop normBaseMod ivs in
        if (intervalIndex =? -1)%Z then [baseFreq]
        else
          match chordType with
          | triad => chord_tone rootFreq ivs intervalIndex currentOctave <$> [0; 2; 4]%Z
          | _ => [baseFreq]
          end
    end
  end.

(** *** The quantizer as the specification words it *)

(** "the scale interval with minimum absolute distance to that position,
    ties broken by the first interval encountered". *)
Fixpoint first_nearest (pos : Z) (l : list Z) : Z :=
  match l with
  | [] => 0%Z
  | x :: rest =>
    match rest with
    | [] => x
    | _ => let b := first_nearest pos rest in
           if (Z.abs (pos - x) <=? Z.abs (pos - b))%Z then x else b
    end
  end.

(** The same choice, as a relation: [iv] occurs in [l], no element of [l]
    is strictly nearer to [pos], and every element before that occurrence
    is strictly farther. *)
Definition is_first_nearest (pos : Z) (l : list Z) (iv : Z) : Prop :=
  exists pre post, l = pre ++ iv :: post
    /\ (forall x, In x l -> (Z.abs (pos - iv) <= Z.abs (pos - x))%Z)
    /\ (forall x, In x pre -> (Z.abs (pos - iv) < Z.abs (pos - x))%Z).

(** "the intra-octave position [round(s) mod 12] (normalized to [0,12))". *)
Definition spec_position (s : R) : Z := (round s mod 12)%Z.

Definition quantize_spec (freq rootFreq : R) (scaleType : ScaleType) : R :=
  if is_chromatic scaleType then freq
  else
    let s := (12 * log2 (freq / rootFreq))%R in
    let octave := floor (s / 12) in
    let interval := first_nearest (spec_position s) (intervals (SCALES scaleType)) in
    (rootFreq * pow2 (IZR (octave * 12 + interval) / 12))%R.

(** Semitone intervals applied to a base frequency:
    [baseFreq * 2^(interval/12)] for each interval. *)
Definition apply_intervals (baseFreq : R) (ivs : list Z) : list R :=
  (fun i : Z => (baseFreq * pow2 (IZR i / 12))%R) <$> ivs.

(** The semitones of a diatonic chord tone above the base of the octave
    the chord is rooted in: the scale interval read by [chord_tone] plus
    twelve per wrap of the scale. *)
Definition chord_degree (ivs : list Z) (intervalIndex offset : Z) : Z :=
  (nth (Z.to_nat (Z.rem (intervalIndex + offset) (Z.of_nat (length ivs)))) ivs 0
   + (intervalIndex + offset) / Z.of_nat (length ivs) * 12)%Z.

(** A frequency lies on the scale when it is a scale degree in some octave
    above or below the root. *)
Definition on_scale (rootFreq : R) (scaleType : ScaleType) (x : R) : Prop :=
  exists (o iv : Z), In iv (intervals (SCALES scaleType))
    /\ x = (rootFreq * pow2 (IZR (o * 12 + iv) / 12))%R.

End Music.

(* ===================================================================== *)
(** ** The arpeggiator: [src/audio/Arpeggiator.ts] *)
(* ===================================================================== *)

#[global] Instance R_eq_dec : EqDecision R := Req_dec_T.
#[global] Instance Rle_rel_dec : RelDecision Rle := Rle_dec.

Module Arp.

Inductive ArpPattern := up | down | upDown | random | chord.
Inductive ArpRate := r4n | r8n | r16n | r32n.

(** [activeNotes] is a [Set<number>]: a duplicate-free list in insertion
    order.  The Tone.js loop object is not part of the state; its callback
    is [tick]. *)
Record Arpeggiator := {
  activeNotes : list R;
  sortedNotes : list R;
  pattern : ArpPattern;
  rate : ArpRate;
  index : Z;
  isEnabled : bool
}.

(** What [tick] hands to the [onNote] callback. *)
Inductive Emission := Single (f : R) | Chord (fs : list R).

(** [Set.prototype.add] and [Set.prototype.delete]. *)
Definition set_add (f : R) (s : list R) : list R :=
  if decide (f ∈ s) then s else s ++ [f].

Definition set_delete (f : R) (s : list R) : list R :=
  filter (λ x, x ≠ f) s.

(** [Array.from(set).sort((a, b) => a - b)]. *)
Definition sort_ascending (l : list R) : list R := merge_sort Rle l.

Definition new_arpeggiator : Arpeggiator :=
  {| activeNotes := []; sortedNotes := []; pattern := up; rate := r8n;
     index := 0; isEnabled := false |}.

Definition with_notes (a : Arpeggiator) (an sn : list R) : Arpeggiator :=
  {| activeNotes := an; sortedNotes := sn; pattern := pattern a;
     rate := rate a; index := index a; isEnabled := isEnabled a |}.

Definition with_index (a : Arpeggiator) (i : Z) : Arpeggiator :=
  {| activeNotes := activeNotes a; sortedNotes := sortedNotes a;
     pattern := pattern a; rate := rate a; index := i;
     isEnabled := isEnabled a |}.

Definition updateSortedNotes (a : Arpeggiator) : Arpeggiator :=
  with_notes a (activeNotes a) (sort_ascending (activeNotes a)).

Definition setEnabled (enabled : bool) (a : Arpeggiator) : Arpeggiator :=
  {| activeNotes := if enabled then activeNotes a else [];
     sortedNotes := if enabled then sortedNotes a else [];
     pattern := pattern a; rate := rate a; index := index a;
     isEnabled := enabled |}.

Definition getEnabled (a : Arpeggiator) : bool := isEnabled a.

Definition setRate (r : ArpRate) (a : Arpeggiator) : Arpeggiator :=
  {| activeNotes := activeNotes a; sortedNotes := sortedNotes a;
     pattern := pattern a; rate := r; index := index a;
     isEnabled := isEnabled a |}.

Definition setPattern (p : ArpPattern) (a : Arpeggiator) : Arpeggiator :=
  {| activeNotes := activeNotes a; sortedNotes := sortedNotes a;
     pattern := p; rate := rate a; index := index a;
     isEnabled := isEnabled a |}.

Definition addNote (freq : R) (a : Arpeggiator) : Arpeggiator :=
  updateSortedNotes (with_notes a (set_add freq (activeNotes a)) (sortedNotes a)).

Definition removeNote (freq : R) (a : Arpeggiator) : Arpeggiator :=
  updateSortedNotes (with_notes a (set_delete freq (activeNotes a)) (sortedNotes a)).

Definition clear (a : Arpeggiator) : Arpeggiator :=
  updateSortedNotes (with_notes a [] (sortedNotes a)).

(** The position read by the [upDown] case for a given [index] when more
    than one note is held. *)
Definition upDown_position (len idx : Z) : Z :=
  let cycleLen := (len * 2 - 2)%Z in
  let normIndex := Z.rem idx cycleLen in
  if (normIndex <? len)%Z then normIndex
  else (len - 1 - (normIndex - len + 1))%Z.

(** One clock tick.  [rnd] is the value [Math.random()] returns, used by
    the [random] pattern only.  The result is the next state and what is
    passed to [onNote], if anything. *)
Definition tick (rnd : R) (a : Arpeggiator) : Arpeggiator * option Emission :=
  let len := Z.of_nat (length (sortedNotes a)) in
  if negb (isEnabled a) || (len =? 0)%Z then (a, None)
  else
    match pattern a with
    | up =>
      let i := Z.rem (index a) len in
      (with_index a (i + 1), Single <$> JS.get (sortedNotes a) i)
    | down =>
      let i := Z.rem (index a) len in
      let downIndex := (len - 1 - i)%Z in
      (with_index a (i + 1), Single <$> JS.get (sortedNotes a) downIndex)
    | upDown =>
      if (len =? 1)%Z then (a, Single <$> JS.get (sortedNotes a) 0)
      else
        (with_index a (index a + 1),
         Single <$> JS.get (sortedNotes a) (upDown_position len (index a)))
    | random =>
      let r := JS.floor (rnd * IZR len) in
      (a, Single <$> JS.get (sortedNotes a) r)
    | chord => (a, Some (Chord (sortedNotes a)))
    end.

(** The state after [k] ticks with the held notes untouched; [rnds j] is
    the random draw of tick [j]. *)
Fixpoint state_after (k : nat) (rnds : nat -> R) (a : Arpeggiator) : Arpeggiator :=
  match k with
  | O => a
  | S j => fst (tick (rnds j) (state_after j rnds a))
  end.

(** What tick number [k] (counted from 0) hands to [onNote]. *)
Definition emission_at (k : nat) (rnds : nat -> R) (a : Arpeggiator) : option Emission :=
  snd (tick (rnds k) (state_after k rnds a)).

(** The class invariant: the set has no duplicates, the array is the
    sorted set, and the step counter is not negative. *)
Definition wf (a : Arpeggiator) : Prop :=
  NoDup (activeNotes a)
  /\ sortedNotes a = sort_ascending (activeNotes a)
  /\ (0 <= index a)%Z.

End Arp.

(* ===================================================================== *)
(** ** The audio engine: voices and looper ([AudioEngine]) *)
(* ===================================================================== *)

Module Engine.

Inductive VoiceType :=
  | sine | triangle | sawtooth | square | pulse | fmsynth | amsynth
  | membrane | metal | pluck | duo | noise.

(** A [Voice]: the synth it was built for, the frequency last written to
    it and the gain it is ramping to. *)
Record Voice := { vtype : VoiceType; frequency : R; gain : R }.

(** [new Voice(type, dest)] followed by [triggerAttack(freq, vol)]. *)
Definition attack (t : VoiceType) (freq vol : R) : Voice :=
  {| vtype := t; frequency := freq; gain := vol |}.

(** How a call ends: it returns, or a [TypeError] escapes it. *)
Inductive completion := Returns | Throws.

(** [voice.setNote(freq, vol)]: the voice afterwards and how the call ends.
    [this.frequency] is written first.  A [Tone.PluckSynth] has no
    [frequency] signal, so for a pluck voice the write to
    [this.synth.frequency.value] throws and the gain ramp on the last line
    is not reached; for every other synth the call returns and the gain
    ramps to [vol]. *)
Definition setNote (freq vol : R) (v : Voice) : Voice * completion :=
  match vtype v with
  | pluck => ({| vtype := vtype v; frequency := freq; gain := gain v |}, Throws)
  | _ => ({| vtype := vtype v; frequency := freq; gain := vol |}, Returns)
  end.

(** The voice a [setNote] that returns leaves behind. *)
Definition retuned (freq vol : R) (v : Voice) : Voice :=
  {| vtype := vtype v; frequency := freq; gain := vol |}.

(** The audio held by the blob that [recorder.stop()] resolves to. *)
Record Buffer := { duration : R }.

(** A [Tone.Buffer]: the audio behind the url it was given, if it was
    given one, and whether that audio has been decoded.  [new
    Tone.Buffer(url)] only starts fetching and decoding; until that has
    finished, in a later task, the buffer is not [loaded], its [duration]
    reads [0] and [get()] is [undefined]. *)
Module ToneBuffer.
Record t := { audio : option Buffer; loaded : bool }.
(** [new Tone.Buffer(url)], and the buffer of a [new Tone.Player()]. *)
Definition create (url : option Buffer) : t := {| audio := url; loaded := false |}.
(** The [duration] getter. *)
Definition duration (b : t) : R :=
  match audio b with
  | Some a => if loaded b then duration a else 0%R
  | None => 0%R
  end.
(** [get()]: [None] stands for [undefined]. *)
Definition get (b : t) : option Buffer := if loaded b then audio b else None.
(** An object is truthy whether or not it is loaded. *)
Definition truthy (b : t) : bool := true.
End ToneBuffer.

Module TouchEventData.
Record t := { time : JS.number; x : R; y : R; id : Z; color : string }.
Definition with_time (e : t) (tm : JS.number) : t :=
  {| time := tm; x := x e; y := y e; id := id e; color := color e |}.
End TouchEventData.

(** A [Tone.Player] as far as the engine drives it. *)
Module Player.
Record t := { buffer : ToneBuffer.t; mute : bool; synced : bool; started : bool }.
Definition fresh : t :=
  {| buffer := ToneBuffer.create None; mute := false; synced := false;
     started := false |}.
(** [player.stop(); player.unsync()] *)
Definition stop_unsync (p : t) : t :=
  {| buffer := buffer p; mute := mute p; synced := false; started := false |}.
(** [player.buffer = b; player.sync().start(0)] *)
Definition load_sync_start (b : ToneBuffer.t) (p : t) : t :=
  {| buffer := b; mute := mute p; synced := true; started := true |}.
Definition set_mute (m : bool) (p : t) : t :=
  {| buffer := buffer p; mute := m; synced := synced p; started := started p |}.
End Player.

Module LoopTrack.
Record t := {
  id : string;
  player : Player.t;
  volumeNode : R;
  audioBuffer : option Buffer;
  ghostEvents : list TouchEventData.t;
  isRecording : bool;
  isPlaying : bool;
  color : string
}.
End LoopTrack.

(** [Tone.Transport] as far as the engine configures it. *)
Module Transport.
Record t := { running : bool; loop : bool; loopStart : R; loopEnd : R }.
End Transport.

Import LoopTrack.

Record AudioEngine := {
  voices : gmap Z (list Voice);
  currentVoiceType : VoiceType;
  tracks : list LoopTrack.t;
  recorderStarted : bool;
  masterLoopDuration : option R;
  arpeggiator : Arp.Arpeggiator;
  activeArpTouches : gmap Z (list R);
  transport : Transport.t;
  (** Voices on which [triggerRelease] was called and whose [dispose] is
      scheduled, most recent first. *)
  releasedVoices : list Voice
}.

(** A thrown [TypeError] (a property read on [undefined]); for the [async]
    methods it is the rejection of the returned promise. *)
Inductive result (A : Type) := Ok (a : A) | TypeError.
Arguments Ok {A} a.
Arguments TypeError {A}.

(** The argument [frequency: number | number[]]. *)
Inductive FreqArg := One (f : R) | Many (fs : list R).

Definition to_freqs (frequency : FreqArg) : list R :=
  match frequency with One f => [f] | Many fs => fs end.

Definition with_voices (e : AudioEngine) (vs : gmap Z (list Voice)) (rel : list Voice) : AudioEngine :=
  {| voices := vs; currentVoiceType := currentVoiceType e; tracks := tracks e;
     recorderStarted := recorderStarted e;
     masterLoopDuration := masterLoopDuration e; arpeggiator := arpeggiator e;
     activeArpTouches := activeArpTouches e; transport := transport e;
     releasedVoices := rel |}.

Definition with_arp (e : AudioEngine) (a : Arp.Arpeggiator) (t : gmap Z (list R)) : AudioEngine :=
  {| voices := voices e; currentVoiceType := currentVoiceType e; tracks := tracks e;
     recorderStarted := recorderStarted e;
     masterLoopDuration := masterLoopDuration e; arpeggiator := a;
     activeArpTouches := t; transport := transport e;
     releasedVoices := releasedVoices e |}.

Definition with_looper (e : AudioEngine) (ts : list LoopTrack.t) (rec : bool)
    (m : option R) (tr : Transport.t) : AudioEngine :=
  {| voices := voices e; currentVoiceType := currentVoiceType e; tracks := ts;
     recorderStarted := rec;
     masterLoopDuration := m; arpeggiator := arpeggiator e;
     activeArpTouches := activeArpTouches e; transport := tr;
     releasedVoices := releasedVoices e |}.

Definition new_track (uuid col : string) : LoopTrack.t :=
  {| id := uuid; player := Player.fresh; volumeNode := 0.7%R; audioBuffer := None;
     ghostEvents := []; isRecording := false; isPlaying := false; color := col |}.

(** The constructor; the four track ids are the [uuidv4()] draws. *)
Definition new_engine (u0 u1 u2 u3 : string) : AudioEngine :=
  {| voices := ∅; currentVoiceType := sine;
     tracks := [new_track u0 "#00f0ff"; new_track u1 "#ff0055";
                new_track u2 "#ccff00"; new_track u3 "#aa00ff"];
     recorderStarted := false;
     masterLoopDuration := None; arpeggiator := Arp.new_arpeggiator;
     activeArpTouches := ∅;
     transport := {| Transport.running := true; Transport.loop := false;
                     Transport.loopStart := 0%R; Transport.loopEnd := 0%R |};
     releasedVoices := [] |}.

Definition setArpEnabled (enabled : bool) (e : AudioEngine) : AudioEngine :=
  with_arp e (Arp.setEnabled enabled (arpeggiator e)) (activeArpTouches e).

(** [fs.forEach(f => this.arpeggiator.addNote(f))] and its [removeNote] twin. *)
Definition addNotes (fs : list R) (a : Arp.Arpeggiator) : Arp.Arpeggiator :=
  fold_left (λ acc f, Arp.addNote f acc) fs a.

Definition removeNotes (fs : list R) (a : Arp.Arpeggiator) : Arp.Arpeggiator :=
  fold_left (λ acc f, Arp.removeNote f acc) fs a.

(** [voices.forEach((voice, i) => { if (i < freqs.length) voice.setNote(freqs[i], volume) })]:
    the voices afterwards and how the loop ends.  A [setNote] that throws
    ends the loop, so the voices after it are not visited. *)
Fixpoint setNotes (vs : list Voice) (freqs : list R) (volume : R)
  : list Voice * completion :=
  match vs, freqs with
  | v :: vs', f :: freqs' =>
    match snd (setNote f volume v) with
    | Throws => (fst (setNote f volume v) :: vs', Throws)
    | Returns =>
      (fst (setNote f volume v) :: fst (setNotes vs' freqs' volume),
       snd (setNotes vs' freqs' volume))
    end
  | _, _ => (vs, Returns)
  end.

(** [updateNote]: the engine the call leaves behind and how it ends. *)
Definition updateNote_call (touchId : Z) (frequency : FreqArg) (volume : R)
    (e : AudioEngine) : AudioEngine * completion :=
  let freqs := to_freqs frequency in
  if Arp.getEnabled (arpeggiator e) then
    let a1 := match activeArpTouches e !! touchId with
              | Some oldFreqs => removeNotes oldFreqs (arpeggiator e)
              | None => arpeggiator e
              end in
    (with_arp e (addNotes freqs a1) (<[touchId := freqs]> (activeArpTouches e)),
     Returns)
  else
    match voices e !! touchId with
    | Some vs =>
      (with_voices e (<[touchId := fst (setNotes vs freqs volume)]> (voices e))
         (releasedVoices e),
       snd (setNotes vs freqs volume))
    | None => (e, Returns)
    end.

(** [startNote]: the engine the call leaves behind and how it ends. *)
Definition startNote_call (touchId : Z) (frequency : FreqArg) (volume : R)
    (e : AudioEngine) : AudioEngine * completion :=
  match voices e !! touchId with
  | Some _ => updateNote_call touchId frequency volume e
  | None =>
    let freqs := to_freqs frequency in
    if Arp.getEnabled (arpeggiator e) then
      (with_arp e (addNotes freqs (arpeggiator e))
         (<[touchId := freqs]> (activeArpTouches e)),
       Returns)
    else
      let vs := (λ f, attack (currentVoiceType e) f volume) <$> freqs in
      (with_voices e (<[touchId := vs]> (voices e)) (releasedVoices e), Returns)
  end.

(** The engine after [updateNote] and after [startNote], whether the call
    returned or threw. *)
Definition updateNote (touchId : Z) (frequency : FreqArg) (volume : R)
    (e : AudioEngine) : AudioEngine :=
  fst (updateNote_call touchId frequency volume e).

Definition startNote (touchId : Z) (frequency : FreqArg) (volume : R)
    (e : AudioEngine) : AudioEngine :=
  fst (startNote_call touchId frequency volume e).

Definition stopNote (touchId : Z) (e : AudioEngine) : AudioEngine :=
  let e1 :=
    if Arp.getEnabled (arpeggiator e) then
      let a1 := match activeArpTouches e !! touchId with
                | Some oldFreqs => removeNotes oldFreqs (arpeggiator e)
                | None => arpeggiator e
                end in
      with_arp e a1 (delete touchId (activeArpTouches e))
    else e in
  match voices e1 !! touchId with
  | Some vs => with_voices e1 (delete touchId (voices e1)) (rev vs ++ releasedVoices e1)
  | None => e1
  end.

(** *** Looper *)

Definition with_recording (t : LoopTrack.t) (p : Player.t)
    (evs : list TouchEventData.t) (rec : bool) : LoopTrack.t :=
  {| id := id t; player := p; volumeNode := volumeNode t;
     audioBuffer := audioBuffer t; ghostEvents := evs; isRecording := rec;
     isPlaying := isPlaying t; color := color t |}.

Definition with_playback (t : LoopTrack.t) (p : Player.t)
    (ab : option Buffer) (playing : bool) : LoopTrack.t :=
  {| id := id t; player := p; volumeNode := volumeNode t;
     audioBuffer := ab; ghostEvents := ghostEvents t;
     isRecording := isRecording t; isPlaying := playing; color := color t |}.

Definition with_volume (t : LoopTrack.t) (vol : R) : LoopTrack.t :=
  {| id := id t; player := player t; volumeNode := vol;
     audioBuffer := audioBuffer t; ghostEvents := ghostEvents t;
     isRecording := isRecording t; isPlaying := isPlaying t; color := color t |}.

(** Writing back the track object read at [this.tracks[trackIndex]]. *)
Definition set_track (e : AudioEngine) (trackIndex : Z) (t : LoopTrack.t)
  : list LoopTrack.t := <[Z.to_nat trackIndex := t]> (tracks e).

(** [this.tracks.some(t => t.isRecording)] *)
Definition anyRecording (e : AudioEngine) : bool := existsb isRecording (tracks e).

Definition startRecording (trackIndex : Z) (e : AudioEngine) : result AudioEngine :=
  if anyRecording e then Ok e
  else
    match JS.get (tracks e) trackIndex with
    | None => TypeError
    | Some track =>
      let track1 := with_recording track (Player.stop_unsync (player track)) [] true in
      Ok (with_looper e (set_track e trackIndex track1) true
            (masterLoopDuration e) (transport e))
    end.

(** [now] is the value of [Tone.now()] at the call. *)
Definition recordTouchEvent (trackIndex : Z) (x y : R) (id : Z) (color : string)
    (now : R) (e : AudioEngine) : result AudioEngine :=
  match JS.get (tracks e) trackIndex with
  | None => TypeError
  | Some track =>
    if isRecording track then
      let ev := {| TouchEventData.time := JS.Num now; TouchEventData.x := x;
                   TouchEventData.y := y; TouchEventData.id := id;
                   TouchEventData.color := color |} in
      let track1 := with_recording track (player track)
                      (ghostEvents track ++ [ev]) true in
      Ok (with_looper e (set_track e trackIndex track1) (recorderStarted e)
            (masterLoopDuration e) (transport e))
    else Ok e
  end.

(** What [await this.recorder.stop()] meets: it throws, or it resolves to
    a blob holding the recorded audio [b]. *)
Inductive Capture := StopThrows | Captured (b : Buffer).

(** The first-track normalisation of one event: [e.time - startTime]. *)
Definition normalize_first (startTime : R) (ev : TouchEventData.t) : TouchEventData.t :=
  TouchEventData.with_time ev (JS.sub (TouchEventData.time ev) (JS.Num startTime)).

(** The later-track normalisation of one event:
    [(e.time - startTime) % this.masterLoopDuration]. *)
Definition normalize_later (startTime m : R) (ev : TouchEventData.t) : TouchEventData.t :=
  TouchEventData.with_time ev
    (JS.modulo (JS.sub (TouchEventData.time ev) (JS.Num startTime)) (JS.Num m)).

(** [now] is [Tone.now()] at the call; [cap] is what [recorder.stop()]
    meets.  [await buffer.loaded] awaits a boolean, not the decoding, so
    the method resumes in the same task with the buffer as [new
    Tone.Buffer(url)] made it, and every later read of [buffer.duration]
    and [buffer.get()] sees that buffer.  The awaits are taken as one
    step: nothing else runs in between. *)
Definition stopRecording (trackIndex : Z) (now : R) (cap : Capture)
    (e : AudioEngine) : result AudioEngine :=
  match JS.get (tracks e) trackIndex with
  | None => TypeError
  | Some track =>
    if negb (isRecording track) then Ok e
    else
      let track1 := with_recording track (player track) (ghostEvents track) false in
      match cap with
      | StopThrows =>
        Ok (with_looper e (set_track e trackIndex track1) (recorderStarted e)
              (masterLoopDuration e) (transport e))
      | Captured blob =>
        let buffer := ToneBuffer.create (Some blob) in
        let startTime := (now - ToneBuffer.duration buffer)%R in
        let track2 :=
          match masterLoopDuration e with
          | None =>
            with_recording track1 (player track1)
              (normalize_first startTime <$> ghostEvents track1) false
          | Some m =>
            with_recording track1 (player track1)
              (normalize_later startTime m <$> ghostEvents track1) false
          end in
        let m1 := match masterLoopDuration e with
                  | None => Some (ToneBuffer.duration buffer)
                  | Some m => Some m
                  end in
        let tr1 := match masterLoopDuration e with
                   | None => {| Transport.running := true; Transport.loop := true;
                                Transport.loopStart := 0%R;
                                Transport.loopEnd := ToneBuffer.duration buffer |}
                   | Some _ => {| Transport.running := true;
                                  Transport.loop := Transport.loop (transport e);
                                  Transport.loopStart := Transport.loopStart (transport e);
                                  Transport.loopEnd := Transport.loopEnd (transport e) |}
                   end in
        let track3 := with_playback track2
                        (Player.load_sync_start buffer (player track2))
                        (ToneBuffer.get buffer) true in
        Ok (with_looper e (set_track e trackIndex track3) false m1 tr1)
      end
  end.

Definition toggleTrackPlayback (trackIndex : Z) (e : AudioEngine) : result AudioEngine :=
  match JS.get (tracks e) trackIndex with
  | None => TypeError
  | Some track =>
    if isPlaying track then
      Ok (with_looper e
            (set_track e trackIndex
               (with_playback track (Player.set_mute true (player track))
                  (audioBuffer track) false))
            (recorderStarted e) (masterLoopDuration e) (transport e))
    else if ToneBuffer.truthy (Player.buffer (player track)) then
      Ok (with_looper e
            (set_track e trackIndex
               (with_playback track (Player.set_mute false (player track))
                  (audioBuffer track) true))
            (recorderStarted e) (masterLoopDuration e) (transport e))
    else Ok e
  end.

Definition setTrackVolume (trackIndex : Z) (vol : R) (e : AudioEngine) : result AudioEngine :=
  match JS.get (tracks e) trackIndex with
  | None => TypeError
  | Some track =>
    Ok (with_looper e (set_track e trackIndex (with_volume track vol))
          (recorderStarted e) (masterLoopDuration e) (transport e))
  end.

Definition clearAllLoops (e : AudioEngine) : AudioEngine :=
  with_looper e
    ((λ t, {| id := id t; player := Player.fresh; volumeNode := volumeNode t;
              audioBuffer := None; ghostEvents := []; isRecording := false;
              isPlaying := false; color := color t |}) <$> tracks e)
    (recorderStarted e) None
    {| Transport.running := false; Transport.loop := Transport.loop (transport e);
       Transport.loopStart := Transport.loopStart (transport e);
       Transport.loopEnd := Transport.loopEnd (transport e) |}.

(** A time lies in [[0, d)]; [NaN] lies in no window. *)
Definition in_window (d : R) (tm : JS.number) : Prop :=
  match tm with
  | JS.Num r => (0 <= r < d)%R
  | JS.NaN => False
  end.

(** All ghost-event times of a track lie in [[0, d)]. *)
Definition events_in_window (d : R) (t : LoopTrack.t) : Prop :=
  Forall (λ ev, in_window d (TouchEventData.time ev)) (ghostEvents t).

(** The pointer owns sounding voices / an arpeggiator registration. *)
Definition owns_voices (p : Z) (e : AudioEngine) : Prop := is_Some (voices e !! p).
Definition owns_arp (p : Z) (e : AudioEngine) : Prop := is_Some (activeArpTouches e !! p).

(** While the arpeggiator flag is left alone, voices exist only when it is
    off and registrations only when it is on. *)
Definition mode_stable (e : AudioEngine) : Prop :=
  if Arp.isEnabled (arpeggiator e) then voices e = ∅ else activeArpTouches e = ∅.

(** No pointer is mapped to both a voice set and a registration. *)
Definition exclusive (e : AudioEngine) : Prop :=
  forall p, ~ (owns_voices p e /\ owns_arp p e).

(** The frequencies the arpeggiator currently holds. *)
Definition heldNotes (e : AudioEngine) : list R := Arp.activeNotes (arpeggiator e).

(** *** Releasing every voice *)

(** Every voice in the pointer map. *)
Definition all_voices (m : gmap Z (list Voice)) : list Voice :=
  concat (snd <$> map_to_list m).

(** [releaseAll]: every mapped voice is released and scheduled for
    disposal, then the map is cleared.  The release log lists the voices
    pointer by pointer; the order among pointers is not observable. *)
Definition releaseAll (e : AudioEngine) : AudioEngine :=
  with_voices e ∅ (rev (all_voices (voices e)) ++ releasedVoices e).

Definition setVoiceType (type : VoiceType) (e : AudioEngine) : AudioEngine :=
  releaseAll
    {| voices := voices e; currentVoiceType := type; tracks := tracks e;
       recorderStarted := recorderStarted e;
       masterLoopDuration := masterLoopDuration e; arpeggiator := arpeggiator e;
       activeArpTouches := activeArpTouches e; transport := transport e;
       releasedVoices := releasedVoices e |}.

(** *** Looper invariants *)

(** "Prevent multiple recordings": at most one track carries the flag. *)
Definition at_most_one_recording (e : AudioEngine) : Prop :=
  (length (filter (fun t => isRecording t = true) (tracks e)) <= 1)%nat.

(** No loop length is set, or it is zero. *)
Definition loop_length_zero (e : AudioEngine) : Prop :=
  masterLoopDuration e = None \/ masterLoopDuration e = Some 0%R.

(** Once a loop length is fixed the transport loops over exactly it. *)
Definition loop_armed (e : AudioEngine) : Prop :=
  forall m, masterLoopDuration e = Some m ->
    Transport.loop (transport e) = true
    /\ Transport.loopStart (transport e) = 0%R
    /\ Transport.loopEnd (transport e) = m.

(** One call of a looper method, with what it reads from outside. *)
Inductive LooperCall :=
  | CallStartRecording (trackIndex : Z)
  | CallStopRecording (trackIndex : Z) (now : R) (cap : Capture)
  | CallRecordTouchEvent (trackIndex : Z) (x y : R) (id : Z) (color : string) (now : R)
  | CallToggleTrackPlayback (trackIndex : Z)
  | CallSetTrackVolume (trackIndex : Z) (vol : R)
  | CallClearAllLoops.

Definition looper_call (c : LooperCall) (e : AudioEngine) : result AudioEngine :=
  match c with
  | CallStartRecording i => startRecording i e
  | CallStopRecording i now cap => stopRecording i now cap e
  | CallRecordTouchEvent i x y id color now => recordTouchEvent i x y id color now e
  | CallToggleTrackPlayback i => toggleTrackPlayback i e
  | CallSetTrackVolume i vol => setTrackVolume i vol e
  | CallClearAllLoops => Ok (clearAllLoops e)
  end.

End Engine.

(* ===================================================================== *)
(** ** The touch surface: [src/components/EffectsControlPanel.tsx] *)
(* ===================================================================== *)

Module Panel.

Import Engine Engine.LoopTrack.

(** One visit of [engine.tracks.forEach((track, idx) => { if
    (track.isRecording) engine.recordTouchEvent(idx, x, y, id, color) })];
    [now idx] is what [Tone.now()] returns inside the call for [idx]. *)
Definition recordTouchVisit (x y : R) (id : Z) (color : string) (now : Z -> R)
    (acc : result AudioEngine) (idx : Z) : result AudioEngine :=
  match acc with
  | TypeError => TypeError
  | Ok e =>
    match JS.get (tracks e) idx with
    | Some track =>
      if isRecording track then recordTouchEvent idx x y id color (now idx) e
      else Ok e
    | None => Ok e
    end
  end.

Definition recordTouchIfActive (x y : R) (id : Z) (color : string) (now : Z -> R)
    (e : AudioEngine) : result AudioEngine :=
  fold_left (recordTouchVisit x y id color now)
    (Z.of_nat <$> seq 0 (length (tracks e))) (Ok e).

End Panel.

(* ===================================================================== *)
(** ** Facts about the numeric primitives *)
(* ===================================================================== *)

Section JSFacts.

Import JS.
Local Open Scope R_scope.

Lemma ln2_pos : 0 < ln 2.
Proof. rewrite <- ln_1. apply ln_increasing; lra. Qed.

Lemma pow2_pos y : 0 < pow2 y.
Proof. apply exp_pos. Qed.

Lemma pow2_0 : pow2 0 = 1.
Proof. unfold pow2. apply Rpower_O. lra. Qed.

Lemma log2_pow2 y : log2 (pow2 y) = y.
Proof.
  unfold log2, pow2, Rpower. rewrite ln_exp.
  field. pose proof ln2_pos. lra.
Qed.

Lemma pow2_lt x y : x < y -> pow2 x < pow2 y.
Proof. intros H. apply Rpower_lt; lra. Qed.

Lemma pow2_inj x y : pow2 x = pow2 y -> x = y.
Proof.
  intros H.
  destruct (Rtotal_order x y) as [Hlt | [Heq | Hgt]]; [| exact Heq |].
  - apply pow2_lt in Hlt. lra.
  - apply pow2_lt in Hgt. lra.
Qed.

Lemma floor_IZR (z : Z) : floor (IZR z) = z.
Proof. apply Zfloor_eq. lra. Qed.

Lemma floor_shift x (k : Z) : floor (x + IZR k) = (floor x + k)%Z.
Proof.
  unfold floor. apply Zfloor_eq. rewrite plus_IZR.
  pose proof (Zfloor_bound x). lra.
Qed.

Lemma floor_spec x (z : Z) : IZR z <= x < IZR z + 1 -> floor x = z.
Proof. apply Zfloor_eq. Qed.

Lemma round_IZR (z : Z) : round (IZR z) = z.
Proof. apply Zfloor_eq. lra. Qed.

Lemma round_shift x (k : Z) : round (x + IZR k) = (round x + k)%Z.
Proof.
  unfold round. replace (x + IZR k + / 2) with (x + / 2 + IZR k) by lra.
  apply floor_shift.
Qed.

(** Division of an integer by a positive integer, then [Math.floor]. *)
Lemma floor_div_IZR (a b : Z) : (0 < b)%Z -> floor (IZR a / IZR b) = (a / b)%Z.
Proof.
  intros Hb. apply Zfloor_eq.
  assert (HbR : 0 < IZR b) by (apply IZR_lt; lia).
  pose proof (Z.div_mod a b ltac:(lia)) as Hdm.
  pose proof (Z.mod_pos_bound a b Hb) as Hmod.
  assert (Ha : IZR a = IZR b * IZR (a / b) + IZR (a mod b)).
  { rewrite <- mult_IZR, <- plus_IZR. f_equal. exact Hdm. }
  assert (H0 : 0 <= IZR (a mod b)) by (apply IZR_le; lia).
  assert (H1 : IZR (a mod b) < IZR b) by (apply IZR_lt; lia).
  split.
  - apply Rmult_le_reg_r with (IZR b); [exact HbR |].
    unfold Rdiv. rewrite Rmult_assoc, Rinv_l by lra. nra.
  - apply Rmult_lt_reg_r with (IZR b); [exact HbR |].
    unfold Rdiv. rewrite Rmult_assoc, Rinv_l by lra. nra.
Qed.

Lemma floor_bound x : IZR (floor x) <= x < IZR (floor x) + 1.
Proof. apply Zfloor_bound. Qed.

Lemma round_bound x : IZR (round x) - / 2 <= x < IZR (round x) + / 2.
Proof. unfold round. pose proof (Zfloor_bound (x + / 2)). lra. Qed.

(** Integer bounds read off real ones. *)
Lemma Z_le_of_R_lt (a b : Z) : IZR a < IZR b + 1 -> (a <= b)%Z.
Proof.
  intros H. rewrite <- plus_IZR in H. apply lt_IZR in H. lia.
Qed.

(** [x % 12] for a dividend that is not negative. *)
Lemma rem12_nonneg s :
  0 <= s -> rem s 12 = s - 12 * IZR (floor (s / 12)) /\ 0 <= rem s 12 < 12.
Proof.
  intros Hs. unfold rem, trunc.
  destruct (Rlt_dec (s / 12) 0) as [Hneg | _]; [lra |].
  split; [reflexivity |].
  pose proof (Zfloor_bound (s / 12)). lra.
Qed.

(** [x % 12] for a negative dividend. *)
Lemma rem12_neg s :
  s < 0 -> rem s 12 = s + 12 * IZR (floor (- (s / 12))) /\ -12 < rem s 12 <= 0.
Proof.
  intros Hs. unfold rem, trunc.
  destruct (Rlt_dec (s / 12) 0) as [_ | Hnn]; [| lra].
  rewrite opp_IZR. split; [unfold floor; lra |].
  pose proof (Zfloor_bound (- (s / 12))). lra.
Qed.

Lemma rem_IZR_12 (k : Z) : rem (IZR k) 12 = IZR (Z.rem k 12).
Proof.
  destruct (Z_lt_le_dec k 0) as [Hk | Hk].
  - assert (HkR : IZR k < 0) by (apply (IZR_lt k 0); lia).
    destruct (rem12_neg _ HkR) as [-> _].
    replace (- (IZR k / 12)) with (IZR (- k) / IZR 12) by (rewrite opp_IZR; lra).
    rewrite floor_div_IZR by lia.
    rewrite <- mult_IZR, <- plus_IZR. f_equal.
    rewrite <- (Z.opp_involutive k) at 3. rewrite Z.rem_opp_l by lia.
    rewrite Z.rem_mod_nonneg by lia.
    pose proof (Z.div_mod (- k) 12 ltac:(lia)). lia.
  - assert (HkR : 0 <= IZR k) by (apply (IZR_le 0 k); lia).
    destruct (rem12_nonneg _ HkR) as [-> _].
    replace (IZR k / 12) with (IZR k / IZR 12) by reflexivity.
    rewrite floor_div_IZR by lia.
    rewrite <- mult_IZR, <- minus_IZR. f_equal.
    rewrite Z.rem_mod_nonneg by lia.
    pose proof (Z.div_mod k 12 ltac:(lia)). lia.
Qed.

End JSFacts.

(* ===================================================================== *)
(** ** The quantizer: proofs *)
(* ===================================================================== *)

Section QuantizerFacts.

Import JS Music.

(** The loop of [getNearestScaleNote], started from a candidate [b] already
    taken, chooses as [first_nearest] does on [b :: l]. *)
Lemma nearest_fold_first pos l b :
  snd (fold_left (nearest_step pos) l (Some (Z.abs (pos - b)), b))
  = first_nearest pos (b :: l).
Proof.
  revert b. induction l as [| x l IH]; intros b; [reflexivity |].
  cbn [fold_left]. unfold nearest_step at 2. cbn [fst lt_minDiff].
  destruct (Z.ltb_spec (Z.abs (pos - x)) (Z.abs (pos - b))) as [Hlt | Hge].
  - rewrite IH. cbn [first_nearest]. destruct l as [| y l].
    + destruct (Z.leb_spec (Z.abs (pos - b)) (Z.abs (pos - x))); [lia | reflexivity].
    + set (c := first_nearest pos (y :: l)).
      destruct (Z.leb_spec (Z.abs (pos - x)) (Z.abs (pos - c)));
      repeat match goal with
             | |- context [Z.leb ?a ?b] => destruct (Z.leb_spec a b)
             end; lia.
  - rewrite IH. cbn [first_nearest]. destruct l as [| y l].
    + destruct (Z.leb_spec (Z.abs (pos - b)) (Z.abs (pos - x))); [reflexivity | lia].
    + set (c := first_nearest pos (y :: l)).
      destruct (Z.leb_spec (Z.abs (pos - x)) (Z.abs (pos - c)));
      repeat match goal with
             | |- context [Z.leb ?a ?b] => destruct (Z.leb_spec a b)
             end; lia.
Qed.

Lemma nearest_loop_first pos l : nearest_loop pos l = first_nearest pos l.
Proof.
  unfold nearest_loop. destruct l as [| x l]; [reflexivity |].
  cbn [fold_left]. unfold nearest_step at 2. cbn [fst lt_minDiff].
  apply nearest_fold_first.
Qed.

Lemma first_nearest_spec pos l :
  l <> [] -> is_first_nearest pos l (first_nearest pos l).
Proof.
  induction l as [| x l IH]; [congruence |]. intros _.
  destruct l as [| y l].
  - exists [], []. cbn. split; [reflexivity |]. split.
    + intros z [<- | []]. lia.
    + intros z [].
  - destruct (IH ltac:(congruence)) as (pre & post & Heq & Hmin & Hpre).
    set (c := first_nearest pos (y :: l)) in *.
    change (first_nearest pos (x :: y :: l))
      with (if (Z.abs (pos - x) <=? Z.abs (pos - c))%Z then x else c).
    destruct (Z.leb_spec (Z.abs (pos - x)) (Z.abs (pos - c))) as [Hle | Hgt].
    + exists [], (y :: l). split; [reflexivity |]. split.
      * intros z [<- | Hz]; [lia |]. specialize (Hmin z Hz). lia.
      * intros z [].
    + exists (x :: pre), post. split; [rewrite <- app_comm_cons; f_equal; exact Heq |]. split.
      * intros z [<- | Hz]; [lia | apply Hmin, Hz].
      * intros z [<- | Hz]; [lia | apply Hpre, Hz].
Qed.

(** The relation determines the interval. *)
Lemma is_first_nearest_unique pos l a b :
  is_first_nearest pos l a -> is_first_nearest pos l b -> a = b.
Proof.
  intros (pa & qa & Ha & Hmina & Hprea) (pb & qb & Hb & Hminb & Hpreb).
  assert (Hina : In a l) by (rewrite Ha; apply in_or_app; right; left; reflexivity).
  assert (Hinb : In b l) by (rewrite Hb; apply in_or_app; right; left; reflexivity).
  assert (Hd : Z.abs (pos - a) = Z.abs (pos - b)).
  { specialize (Hmina b Hinb). specialize (Hminb a Hina). lia. }
  (* whichever occurrence comes first forbids the other before it *)
  assert (Hcase : In a pb \/ In b pa \/ a = b).
  { clear -Ha Hb. rewrite Ha in Hb. clear Ha.
    revert pb Hb. induction pa as [| u pa IH]; intros pb Hb.
    - destruct pb as [| v pb]; cbn in Hb.
      + right. right. congruence.
      + left. left. congruence.
    - destruct pb as [| v pb]; cbn in Hb.
      + right. left. injection Hb as -> _. left. reflexivity.
      + injection Hb as _ Hb. destruct (IH pb Hb) as [H | [H | H]].
        * left. right. exact H.
        * right. left. right. exact H.
        * right. right. exact H. }
  destruct Hcase as [H | [H | H]]; [| | exact H].
  - specialize (Hpreb a H). lia.
  - specialize (Hprea b H). lia.
Qed.

Lemma first_nearest_In pos l : l <> [] -> In (first_nearest pos l) l.
Proof.
  intros Hl. destruct (first_nearest_spec pos l Hl) as (pre & post & Heq & _).
  rewrite Heq at 2. apply in_or_app. right. left. reflexivity.
Qed.

(** An interval of a duplicate-free list is its own nearest neighbour. *)
Lemma first_nearest_self iv l : In iv l -> first_nearest iv l = iv.
Proof.
  intros Hin.
  assert (Hl : l <> []) by (intros ->; destruct Hin).
  destruct (first_nearest_spec iv l Hl) as (pre & post & Heq & Hmin & _).
  specialize (Hmin iv Hin). lia.
Qed.

Lemma scale_nonempty sc : intervals (SCALES sc) <> [].
Proof. destruct sc; discriminate. Qed.

Lemma scale_range sc iv : In iv (intervals (SCALES sc)) -> (0 <= iv <= 11)%Z.
Proof. destruct sc; cbn; intuition lia. Qed.

(** [12 * o + iv] split back into octave and interval. *)
Lemma octave_of_semitones (o iv : Z) :
  (0 <= iv <= 11)%Z -> ((o * 12 + iv) / 12 = o)%Z.
Proof.
  intros H. symmetry. apply (Z.div_unique_pos _ 12 o iv); lia.
Qed.

Lemma mod12_unique (n k r : Z) : (0 <= r < 12)%Z -> n = (12 * k + r)%Z -> (n mod 12 = r)%Z.
Proof. intros Hr ->. symmetry. apply (Z.mod_unique_pos _ 12 k r); lia. Qed.

End QuantizerFacts.

Section PositionFacts.

Import JS Music.
Local Open Scope R_scope.

(** For an offset that is not negative the position is [round(s % 12)]; it
    agrees with [round(s) mod 12] below 11.5 and is 12 from there on. *)
Lemma normalizedIndex_nonneg s :
  0 <= s ->
  (rem s 12 < 23 / 2 -> normalizedIndex s = spec_position s)
  /\ (23 / 2 <= rem s 12 -> normalizedIndex s = 12%Z /\ spec_position s = 0%Z).
Proof.
  intros Hs. destruct (rem12_nonneg s Hs) as [Hrem Hrng].
  set (q := floor (s / 12)) in *. set (rm := rem s 12) in *.
  pose proof (round_bound rm) as Hn. set (n := round rm) in *.
  assert (Hn0 : (0 <= n)%Z).
  { apply Z_le_of_R_lt. simpl (IZR 0). lra. }
  assert (Hround : round s = (n + 12 * q)%Z).
  { replace s with (rm + IZR (12 * q)) by (rewrite mult_IZR; lra).
    apply round_shift. }
  assert (Hnorm : normalizedIndex s = n).
  { unfold normalizedIndex. fold rm. fold n.
    destruct (Z.ltb_spec n 0); [lia | reflexivity]. }
  split.
  - intros Hlt. rewrite Hnorm. unfold spec_position. rewrite Hround.
    symmetry. apply (mod12_unique _ q); [| lia].
    split; [exact Hn0 |].
    assert (H11 : (n <= 11)%Z) by (apply Z_le_of_R_lt; simpl (IZR 11); lra).
    lia.
  - intros Hge.
    assert (Hn12 : n = 12%Z).
    { assert (H1 : (n <= 12)%Z) by (apply Z_le_of_R_lt; simpl (IZR 12); lra).
      assert (H2 : (12 <= n)%Z) by (apply Z_le_of_R_lt; simpl (IZR 12); lra).
      lia. }
    split; [rewrite Hnorm; exact Hn12 |].
    unfold spec_position. rewrite Hround, Hn12.
    apply (mod12_unique _ (q + 1)); lia.
Qed.

(** For a negative offset the position is [round(s) mod 12]. *)
Lemma normalizedIndex_neg s : s < 0 -> normalizedIndex s = spec_position s.
Proof.
  intros Hs. destruct (rem12_neg s Hs) as [Hrem Hrng].
  set (q := floor (- (s / 12))) in *. set (rm := rem s 12) in *.
  pose proof (round_bound rm) as Hn. set (n := round rm) in *.
  assert (Hn0 : (n <= 0)%Z).
  { apply Z_le_of_R_lt. simpl (IZR 0). lra. }
  assert (Hn12 : (-12 <= n)%Z).
  { apply Z_le_of_R_lt. lra. }
  assert (Hround : round s = (n - 12 * q)%Z).
  { replace s with (rm + IZR (- (12 * q))) by (rewrite opp_IZR, mult_IZR; lra).
    rewrite round_shift. fold n. lia. }
  unfold spec_position. rewrite Hround.
  unfold normalizedIndex. fold rm. fold n.
  destruct (Z.ltb_spec n 0).
  - symmetry. destruct (Z.eq_dec n (-12)) as [-> | Hne].
    + apply (mod12_unique _ (- q - 1)); lia.
    + apply (mod12_unique _ (- q - 1)); lia.
  - symmetry. apply (mod12_unique _ (- q)); lia.
Qed.

Lemma normalizedIndex_range s : (0 <= normalizedIndex s <= 12)%Z.
Proof.
  destruct (Rlt_le_dec s 0) as [Hs | Hs].
  - rewrite (normalizedIndex_neg s Hs). unfold spec_position.
    pose proof (Z.mod_pos_bound (round s) 12 ltac:(lia)). lia.
  - destruct (normalizedIndex_nonneg s Hs) as [Hlo Hhi].
    destruct (Rlt_le_dec (rem s 12) (23 / 2)) as [H | H].
    + rewrite (Hlo H). unfold spec_position.
      pose proof (Z.mod_pos_bound (round s) 12 ltac:(lia)). lia.
    + destruct (Hhi H) as [-> _]. lia.
Qed.

(** On a whole number of semitones that already is a scale degree the
    nearest-degree search returns it. *)
Lemma getNearestScaleNote_fixed sc (o iv : Z) :
  In iv (intervals (SCALES sc)) ->
  getNearestScaleNote (IZR (o * 12 + iv)) sc = (o * 12 + iv)%Z.
Proof.
  intros Hin. pose proof (scale_range sc iv Hin) as Hrng.
  unfold getNearestScaleNote. cbv zeta.
  replace (IZR (o * 12 + iv) / 12) with (IZR (o * 12 + iv) / IZR 12) by reflexivity.
  rewrite floor_div_IZR by lia. rewrite octave_of_semitones by lia.
  f_equal. rewrite nearest_loop_first.
  assert (Hpos : normalizedIndex (IZR (o * 12 + iv)) = iv).
  { unfold normalizedIndex. cbv zeta. rewrite rem_IZR_12, round_IZR.
    destruct (Z_lt_le_dec (o * 12 + iv) 0) as [Hneg | Hnn].
    - destruct (Z.eq_dec iv 0) as [-> | Hiv].
      + replace (o * 12 + 0)%Z with (o * 12)%Z by lia.
        rewrite Z.rem_mul by lia. reflexivity.
      + assert (Hr : Z.rem (o * 12 + iv) 12 = (iv - 12)%Z).
        { rewrite <- (Z.opp_involutive (o * 12 + iv)).
          rewrite Z.rem_opp_l by lia. rewrite Z.rem_mod_nonneg by lia.
          assert (Hm : ((- (o * 12 + iv)) mod 12 = 12 - iv)%Z).
          { apply (mod12_unique _ (- o - 1)); lia. }
          lia. }
        rewrite Hr. destruct (Z.ltb_spec (iv - 12) 0); lia.
    - rewrite Z.rem_mod_nonneg by lia.
      rewrite (mod12_unique _ o iv) by lia.
      destruct (Z.ltb_spec iv 0); lia. }
  rewrite Hpos. apply first_nearest_self, Hin.
Qed.

(** The result of the search is always of the form octave * 12 + degree. *)
Lemma getNearestScaleNote_form s sc :
  exists iv, In iv (intervals (SCALES sc))
    /\ getNearestScaleNote s sc = (floor (s / 12) * 12 + iv)%Z.
Proof.
  exists (nearest_loop (normalizedIndex s) (intervals (SCALES sc))).
  split; [| reflexivity].
  rewrite nearest_loop_first. apply first_nearest_In, scale_nonempty.
Qed.

(** The semitone offset of [root * 2^(k/12)] from [root] is [k]. *)
Lemma semitones_of_degree (rootFreq : R) (k : Z) :
  0 < rootFreq ->
  12 * log2 (rootFreq * pow2 (IZR k / 12) / rootFreq) = IZR k.
Proof.
  intros Hr.
  replace (rootFreq * pow2 (IZR k / 12) / rootFreq) with (pow2 (IZR k / 12))
    by (field; lra).
  rewrite log2_pow2. field.
Qed.

End PositionFacts.

Section QuantizerClaims.

Import JS Music.
Local Open Scope R_scope.

(** The semitone offset of 300 Hz above C4 lies between 1.5 and 2.5. *)
Lemma semitones_300_C4 :
  3 / 2 <= 12 * log2 (300 / 261.63) < 5 / 2.
Proof.
  set (x := 300 / 261.63).
  assert (Hx : 0 < x) by (unfold x; lra).
  assert (Hx1 : x = 30000 / 26163) by (unfold x; lra).
  assert (Hlo : 2 <= x ^ 8) by (rewrite Hx1; lra).
  assert (Hhi : x ^ 24 < 32) by (rewrite Hx1; lra).
  pose proof ln2_pos as Hln2.
  assert (H8 : ln 2 <= 8 * ln x).
  { replace 8 with (INR 8) by (simpl; lra). rewrite <- ln_pow by exact Hx.
    destruct Hlo as [Hlt | Heq]; [left; apply ln_increasing; lra | rewrite Heq; lra]. }
  assert (H24 : 24 * ln x < 5 * ln 2).
  { replace 24 with (INR 24) by (simpl; lra). rewrite <- ln_pow by exact Hx.
    replace 5 with (INR 5) by (simpl; lra). rewrite <- (ln_pow 2) by lra.
    apply ln_increasing; [apply pow_lt; exact Hx | lra]. }
  unfold log2. fold x.
  split.
  - apply Rmult_le_reg_r with (ln 2); [exact Hln2 |].
    replace (12 * (ln x / ln 2) * ln 2) with (12 * ln x) by (field; lra). lra.
  - apply Rmult_lt_reg_r with (ln 2); [exact Hln2 |].
    replace (12 * (ln x / ln 2) * ln 2) with (12 * ln x) by (field; lra). lra.
Qed.

(** The worked scenario: 300 Hz over C4 in the major scale. *)
Lemma quantize_300_C4_major :
  quantizeFrequency 300 261.63 major = 261.63 * pow2 (2 / 12).
Proof.
  pose proof semitones_300_C4 as Hs.
  unfold quantizeFrequency. cbn [is_chromatic]. cbv zeta.
  set (s := 12 * log2 (300 / 261.63)) in *.
  assert (Hoct : floor (s / 12) = 0%Z) by (apply floor_spec; simpl (IZR 0); lra).
  assert (Hrem : rem s 12 = s).
  { destruct (rem12_nonneg s ltac:(lra)) as [-> _]. rewrite Hoct. simpl (IZR 0). lra. }
  assert (Hpos : normalizedIndex s = 2%Z).
  { unfold normalizedIndex. cbv zeta. rewrite Hrem.
    assert (Hrd : round s = 2%Z) by (apply floor_spec; lra).
    rewrite Hrd. reflexivity. }
  unfold getNearestScaleNote. cbv zeta. rewrite Hoct, Hpos.
  reflexivity.
Qed.

Lemma quantizeFrequency_unfold freq rootFreq sc :
  sc <> chromatic ->
  quantizeFrequency freq rootFreq sc
  = rootFreq * pow2 (IZR (getNearestScaleNote (12 * log2 (freq / rootFreq)) sc) / 12).
Proof. intros Hsc. destruct sc; try reflexivity. congruence. Qed.

Lemma quantize_spec_unfold freq rootFreq sc :
  sc <> chromatic ->
  quantize_spec freq rootFreq sc
  = rootFreq * pow2 (IZR (floor (12 * log2 (freq / rootFreq) / 12) * 12
        + first_nearest (spec_position (12 * log2 (freq / rootFreq)))
            (intervals (SCALES sc))) / 12).
Proof. intros Hsc. destruct sc; try reflexivity. congruence. Qed.

(** The quantized frequency is a scale degree. *)
Lemma quantizeFrequency_on_scale freq rootFreq sc :
  sc <> chromatic -> on_scale rootFreq sc (quantizeFrequency freq rootFreq sc).
Proof.
  intros Hsc. rewrite quantizeFrequency_unfold by exact Hsc.
  destruct (getNearestScaleNote_form (12 * log2 (freq / rootFreq)) sc)
    as (iv & Hin & ->).
  exists (floor (12 * log2 (freq / rootFreq) / 12)), iv. split; [exact Hin | reflexivity].
Qed.

(** A frequency on the scale is left where it is. *)
Lemma quantizeFrequency_fixes_scale rootFreq sc x :
  0 < rootFreq -> sc <> chromatic -> on_scale rootFreq sc x ->
  quantizeFrequency x rootFreq sc = x.
Proof.
  intros Hr Hsc (o & iv & Hin & ->).
  rewrite quantizeFrequency_unfold by exact Hsc.
  rewrite semitones_of_degree by exact Hr.
  rewrite getNearestScaleNote_fixed by exact Hin. reflexivity.
Qed.

(** C3, as stated, fails: 11.6 semitones above C4 in the major scale the
    code reads position 12 and picks degree 11, where [round(s) mod 12]
    is position 0 and picks degree 0. *)
Lemma C3_counterexample :
  quantizeFrequency (261.63 * pow2 (29 / 30)) 261.63 major = 261.63 * pow2 (11 / 12)
  /\ quantize_spec (261.63 * pow2 (29 / 30)) 261.63 major = 261.63 * pow2 (0 / 12)
  /\ quantizeFrequency (261.63 * pow2 (29 / 30)) 261.63 major
     <> quantize_spec (261.63 * pow2 (29 / 30)) 261.63 major.
Proof.
  assert (Hs : 12 * log2 (261.63 * pow2 (29 / 30) / 261.63) = 58 / 5).
  { replace (261.63 * pow2 (29 / 30) / 261.63) with (pow2 (29 / 30)) by (field; lra).
    rewrite log2_pow2. lra. }
  assert (Hoct : floor (58 / 5 / 12) = 0%Z) by (apply floor_spec; simpl (IZR 0); lra).
  assert (Hrem : rem (58 / 5) 12 = 58 / 5).
  { destruct (rem12_nonneg (58 / 5) ltac:(lra)) as [-> _]. rewrite Hoct.
    simpl (IZR 0). lra. }
  destruct (normalizedIndex_nonneg (58 / 5) ltac:(lra)) as [_ Hhi].
  destruct (Hhi ltac:(rewrite Hrem; lra)) as [Hpos Hspec].
  assert (Hcode : quantizeFrequency (261.63 * pow2 (29 / 30)) 261.63 major
                  = 261.63 * pow2 (11 / 12)).
  { rewrite quantizeFrequency_unfold by discriminate. rewrite Hs.
    unfold getNearestScaleNote. cbv zeta. rewrite Hoct, Hpos. reflexivity. }
  assert (Hsp : quantize_spec (261.63 * pow2 (29 / 30)) 261.63 major
                = 261.63 * pow2 (0 / 12)).
  { rewrite quantize_spec_unfold by discriminate. rewrite Hs, Hoct, Hspec.
    reflexivity. }
  split; [exact Hcode |]. split; [exact Hsp |].
  rewrite Hcode, Hsp. intros Heq.
  assert (Hp : pow2 (11 / 12) = pow2 (0 / 12)) by lra.
  apply pow2_inj in Hp. lra.
Qed.

(** C3, amended: for positive frequencies and a non-chromatic scale,
    [quantizeFrequency] returns [rootFreq * 2^((octave*12 + interval)/12)]
    with [octave = floor(s/12)], [s = 12*log2(freq/rootFreq)], and
    [interval] the first scale interval at minimum distance from the
    position.  The position is [round(s % 12)] with [%] the truncating
    remainder, plus 12 when negative: it lies in [0,12], equals
    [round(s) mod 12] when [s < 0] or [s % 12 < 11.5] (there the function
    agrees with the specified quantizer), and is 12 when [s >= 0] and
    [s % 12 >= 11.5].  The chromatic scale is the identity, and
    300 Hz over 261.63 Hz in major gives [261.63 * 2^(2/12)]. *)
Theorem C3_quantizeFrequency_amended (freq rootFreq : R) (sc : ScaleType) :
  0 < freq -> 0 < rootFreq ->
  let s := 12 * log2 (freq / rootFreq) in
  (sc = chromatic -> quantizeFrequency freq rootFreq sc = freq)
  /\ (sc <> chromatic ->
      exists interval,
        is_first_nearest (normalizedIndex s) (intervals (SCALES sc)) interval
        /\ quantizeFrequency freq rootFreq sc
           = rootFreq * pow2 (IZR (floor (s / 12) * 12 + interval) / 12))
  /\ (0 <= normalizedIndex s <= 12)%Z
  /\ (s < 0 \/ rem s 12 < 23 / 2 -> normalizedIndex s = (round s mod 12)%Z)
  /\ (0 <= s -> 23 / 2 <= rem s 12 -> normalizedIndex s = 12%Z)
  /\ (sc <> chromatic -> s < 0 \/ rem s 12 < 23 / 2 ->
      quantizeFrequency freq rootFreq sc = quantize_spec freq rootFreq sc)
  /\ quantizeFrequency 300 261.63 major = 261.63 * pow2 (2 / 12).
Proof.
  intros Hf Hr s.
  assert (Hagree : s < 0 \/ rem s 12 < 23 / 2 -> normalizedIndex s = spec_position s).
  { intros [Hneg | Hlt]; [apply normalizedIndex_neg, Hneg |].
    destruct (Rlt_le_dec s 0) as [Hneg | Hnn]; [apply normalizedIndex_neg, Hneg |].
    apply (normalizedIndex_nonneg s Hnn), Hlt. }
  split; [intros ->; reflexivity |].
  split.
  { intros Hsc. exists (first_nearest (normalizedIndex s) (intervals (SCALES sc))).
    split; [apply first_nearest_spec, scale_nonempty |].
    rewrite quantizeFrequency_unfold by exact Hsc.
    unfold getNearestScaleNote. cbv zeta. rewrite nearest_loop_first. reflexivity. }
  split; [apply normalizedIndex_range |].
  split; [exact Hagree |].
  split; [intros Hnn Hge; apply (normalizedIndex_nonneg s Hnn), Hge |].
  split; [| exact quantize_300_C4_major].
  intros Hsc Hzone.
  rewrite quantizeFrequency_unfold, quantize_spec_unfold by exact Hsc.
  unfold getNearestScaleNote. cbv zeta. rewrite nearest_loop_first.
  fold s. rewrite (Hagree Hzone). reflexivity.
Qed.

Lemma C3_quantizeFrequency_amended_witness :
  exists interval,
    is_first_nearest (normalizedIndex (12 * log2 (300 / 261.63)))
      (intervals (SCALES major)) interval
    /\ quantizeFrequency 300 261.63 major
       = 261.63 * pow2 (IZR (floor (12 * log2 (300 / 261.63) / 12) * 12 + interval) / 12).
Proof.
  destruct (C3_quantizeFrequency_amended 300 261.63 major ltac:(lra) ltac:(lra))
    as (_ & H & _).
  apply H. discriminate.
Defined.

(** C8: [quantizeFrequency] is idempotent for every positive frequency,
    positive root and scale. *)
Theorem C8_quantizeFrequency_idempotent (freq rootFreq : R) (sc : ScaleType) :
  0 < freq -> 0 < rootFreq ->
  quantizeFrequency (quantizeFrequency freq rootFreq sc) rootFreq sc
  = quantizeFrequency freq rootFreq sc.
Proof.
  intros Hf Hr. destruct (decide (sc = chromatic)) as [-> | Hsc]; [reflexivity |].
  apply quantizeFrequency_fixes_scale; [exact Hr | exact Hsc |].
  apply quantizeFrequency_on_scale, Hsc.
Qed.

Lemma C8_quantizeFrequency_idempotent_witness :
  quantizeFrequency (quantizeFrequency 300 261.63 major) 261.63 major
  = quantizeFrequency 300 261.63 major.
Proof.
  apply (C8_quantizeFrequency_idempotent 300 261.63 major); lra.
Defined.

End QuantizerClaims.

Section ChordClaims.

Import JS Music.
Local Open Scope R_scope.

(** C7: ['off'] gives [[f]]; each named quality gives its fixed interval
    list applied to the base frequency whatever the scale and root;
    ['triad'] under the chromatic scale gives the major triad; a selector
    that is neither ['triad'] nor a key of the interval table gives
    [[baseFreq]]. *)
Theorem C7_getChordFrequencies_fixed :
  (forall f r sc, getChordFrequencies f r sc off = [f])
  /\ (forall f r sc,
        getChordFrequencies f r sc maj7 = apply_intervals f [0; 4; 7; 11]%Z
        /\ getChordFrequencies f r sc m7 = apply_intervals f [0; 3; 7; 10]%Z
        /\ getChordFrequencies f r sc dom7 = apply_intervals f [0; 4; 7; 10]%Z
        /\ getChordFrequencies f r sc sus2 = apply_intervals f [0; 2; 7]%Z
        /\ getChordFrequencies f r sc sus4 = apply_intervals f [0; 5; 7]%Z
        /\ getChordFrequencies f r sc aug = apply_intervals f [0; 4; 8]%Z
        /\ getChordFrequencies f r sc dim = apply_intervals f [0; 3; 6]%Z
        /\ getChordFrequencies f r sc maj9 = apply_intervals f [0; 4; 7; 11; 14]%Z
        /\ getChordFrequencies f r sc m9 = apply_intervals f [0; 3; 7; 10; 14]%Z)
  /\ (forall f r, getChordFrequencies f r chromatic triad = apply_intervals f [0; 4; 7]%Z)
  /\ (forall f r sc ct,
        ct <> triad -> CHORD_INTERVALS ct = None ->
        getChordFrequencies f r sc ct = [f]).
Proof.
  split; [reflexivity |].
  split; [intros f r sc; repeat split |].
  split; [reflexivity |].
  intros f r sc ct Hct Hnone. destruct ct; try discriminate; [reflexivity | congruence].
Qed.

Lemma C7_getChordFrequencies_fixed_witness :
  getChordFrequencies 440 261.63 major off = [440].
Proof.
  destruct C7_getChordFrequencies_fixed as (_ & _ & _ & H).
  apply H; [discriminate | reflexivity].
Defined.

(** The [forEach] search of the diatonic branch finds the position of a
    scale degree in its scale. *)
Lemma index_loop_degree sc iv :
  In iv (intervals (SCALES sc)) ->
  exists i : nat,
    (i < length (intervals (SCALES sc)))%nat
    /\ nth i (intervals (SCALES sc)) 0%Z = iv
    /\ index_loop iv (intervals (SCALES sc)) = Z.of_nat i.
Proof.
  intros Hin.
  destruct sc; cbn in Hin;
    repeat (destruct Hin as [<- | Hin];
            [ first [ exists 0%nat; vm_compute; split; [lia | split; reflexivity]
                    | exists 1%nat; vm_compute; split; [lia | split; reflexivity]
                    | exists 2%nat; vm_compute; split; [lia | split; reflexivity]
                    | exists 3%nat; vm_compute; split; [lia | split; reflexivity]
                    | exists 4%nat; vm_compute; split; [lia | split; reflexivity]
                    | exists 5%nat; vm_compute; split; [lia | split; reflexivity]
                    | exists 6%nat; vm_compute; split; [lia | split; reflexivity]
                    | exists 7%nat; vm_compute; split; [lia | split; reflexivity]
                    | exists 8%nat; vm_compute; split; [lia | split; reflexivity]
                    | exists 9%nat; vm_compute; split; [lia | split; reflexivity]
                    | exists 10%nat; vm_compute; split; [lia | split; reflexivity]
                    | exists 11%nat; vm_compute; split; [lia | split; reflexivity] ]
            | ]);
    destruct Hin.
Qed.

(** [((q % 12) % 12 + 12) % 12] recovers the degree of [q = o*12 + iv]. *)
Lemma normBaseMod_degree (o iv : Z) :
  (0 <= iv <= 11)%Z ->
  Z.rem (Z.rem (Z.rem (o * 12 + iv) 12) 12 + 12) 12 = iv.
Proof.
  intros Hiv.
  pose proof (Z.rem_bound_abs (o * 12 + iv) 12 ltac:(lia)) as Hb.
  pose proof (Z.quot_rem' (o * 12 + iv) 12) as Hq.
  set (r1 := Z.rem (o * 12 + iv) 12) in *.
  assert (Hr1 : Z.rem r1 12 = r1) by (apply Z.rem_small_iff; lia).
  rewrite Hr1. rewrite Z.rem_mod_nonneg by lia.
  apply (mod12_unique _ (o - Z.quot (o * 12 + iv) 12 + 1)); lia.
Qed.

(** Every tone of the diatonic chord is a scale degree. *)
Lemma chord_tone_on_scale rootFreq sc (i : nat) (o offset : Z) :
  (i < length (intervals (SCALES sc)))%nat -> (0 <= offset)%Z ->
  on_scale rootFreq sc
    (chord_tone rootFreq (intervals (SCALES sc)) (Z.of_nat i) o offset).
Proof.
  intros Hi Hoff. unfold chord_tone. cbv zeta.
  set (ivs := intervals (SCALES sc)) in *.
  set (len := Z.of_nat (length ivs)).
  assert (Hlen : (0 < len)%Z) by (unfold len; lia).
  set (tot := (Z.of_nat i + offset)%Z).
  assert (Hrem : Z.rem tot len = (tot mod len)%Z)
    by (apply Z.rem_mod_nonneg; unfold tot; lia).
  pose proof (Z.mod_pos_bound tot len Hlen) as Hbound.
  exists (o + tot / len)%Z, (nth (Z.to_nat (Z.rem tot len)) ivs 0%Z).
  split.
  - apply nth_In. rewrite Hrem. unfold len, ivs in *. lia.
  - rewrite Z.add_comm. reflexivity.
Qed.

(** C10: under a non-chromatic scale the ['triad'] chord has exactly three
    frequencies, the first being the quantized base note; all three are
    scale degrees, so a base frequency off the scale is not in the chord.
    ['off'] and the fixed qualities start on the base frequency itself. *)
Theorem C10_diatonic_triad_rooted_on_quantized (baseFreq rootFreq : R) (sc : ScaleType) :
  0 < baseFreq -> 0 < rootFreq -> sc <> chromatic ->
  (exists f2 f3,
      getChordFrequencies baseFreq rootFreq sc triad
      = [quantizeFrequency baseFreq rootFreq sc; f2; f3])
  /\ length (getChordFrequencies baseFreq rootFreq sc triad) = 3%nat
  /\ (forall x, In x (getChordFrequencies baseFreq rootFreq sc triad) ->
        on_scale rootFreq sc x)
  /\ (~ on_scale rootFreq sc baseFreq ->
        ~ In baseFreq (getChordFrequencies baseFreq rootFreq sc triad))
  /\ (quantizeFrequency baseFreq rootFreq sc = baseFreq <-> on_scale rootFreq sc baseFreq)
  /\ (forall sc' ct, ct <> triad ->
        head (getChordFrequencies baseFreq rootFreq sc' ct) = Some baseFreq).
Proof.
  intros Hb Hr Hsc.
  set (s := 12 * log2 (baseFreq / rootFreq)).
  destruct (getNearestScaleNote_form s sc) as (iv & Hin & Hk).
  set (o := floor (s / 12)) in *.
  pose proof (scale_range sc iv Hin) as Hrng.
  destruct (index_loop_degree sc iv Hin) as (i & Hi & Hnth & Hidx).
  assert (Hchord : getChordFrequencies baseFreq rootFreq sc triad
                   = chord_tone rootFreq (intervals (SCALES sc)) (Z.of_nat i) o
                     <$> [0; 2; 4]%Z).
  { unfold getChordFrequencies. cbn [CHORD_INTERVALS].
    replace (is_chromatic sc) with false by (destruct sc; congruence || reflexivity).
    cbv zeta. fold s. rewrite Hk.
    rewrite normBaseMod_degree by exact Hrng.
    rewrite octave_of_semitones by exact Hrng.
    rewrite Hidx.
    destruct (Z.eqb_spec (Z.of_nat i) (-1)); [lia | reflexivity]. }
  assert (Hfirst : chord_tone rootFreq (intervals (SCALES sc)) (Z.of_nat i) o 0
                   = quantizeFrequency baseFreq rootFreq sc).
  { rewrite quantizeFrequency_unfold by exact Hsc. fold s. rewrite Hk.
    unfold chord_tone. cbv zeta. rewrite Z.add_0_r.
    rewrite Z.rem_small by lia. rewrite Z.div_small by lia.
    rewrite Nat2Z.id, Hnth, Z.add_0_r, (Z.add_comm iv). reflexivity. }
  assert (Hall : forall x, In x (getChordFrequencies baseFreq rootFreq sc triad) ->
                           on_scale rootFreq sc x).
  { intros x Hx. rewrite Hchord in Hx. cbn in Hx.
    destruct Hx as [<- | [<- | [<- | []]]];
      apply chord_tone_on_scale; (exact Hi || lia). }
  split; [rewrite Hchord; cbn [fmap list_fmap]; rewrite Hfirst; eauto |].
  split; [rewrite Hchord; reflexivity |].
  split; [exact Hall |].
  split; [intros Hoff Hx; apply Hoff, Hall, Hx |].
  split.
  - split.
    + intros <-. apply quantizeFrequency_on_scale, Hsc.
    + apply quantizeFrequency_fixes_scale; assumption.
  - intros sc' ct Hct.
    assert (H0 : baseFreq * pow2 (IZR 0 / 12) = baseFreq).
    { replace (IZR 0 / 12) with 0 by (simpl (IZR 0); lra). rewrite pow2_0. lra. }
    destruct ct; try congruence; cbn; try (f_equal; exact H0); reflexivity.
Qed.

Lemma C10_diatonic_triad_rooted_on_quantized_witness :
  length (getChordFrequencies 300 261.63 major triad) = 3%nat.
Proof.
  destruct (C10_diatonic_triad_rooted_on_quantized 300 261.63 major
              ltac:(lra) ltac:(lra) ltac:(discriminate)) as (_ & H & _).
  exact H.
Defined.

End ChordClaims.

(* ===================================================================== *)
(** ** The arpeggiator: proofs *)
(* ===================================================================== *)

Section ArpFacts.

Import Arp.

Lemma sort_ascending_perm l : sort_ascending l ≡ₚ l.
Proof. apply merge_sort_Permutation. Qed.

Lemma sort_ascending_length l : length (sort_ascending l) = length l.
Proof. apply Permutation_length, sort_ascending_perm. Qed.

Lemma set_add_NoDup f s : NoDup s -> NoDup (set_add f s).
Proof.
  intros Hs. unfold set_add. destruct (decide (f ∈ s)) as [Hin | Hnin]; [exact Hs |].
  apply NoDup_app. split; [exact Hs |]. split.
  - intros x Hx Hx'. apply list_elem_of_singleton in Hx'. subst. contradiction.
  - apply NoDup_singleton.
Qed.

Lemma set_delete_NoDup f s : NoDup s -> NoDup (set_delete f s).
Proof. apply NoDup_filter. Qed.

Lemma wf_new : wf new_arpeggiator.
Proof. split; [apply NoDup_nil_2 |]. split; [reflexivity | cbn; lia]. Qed.

Lemma wf_addNote f a : wf a -> wf (addNote f a).
Proof.
  intros (Hnd & _ & Hi). split; [apply set_add_NoDup, Hnd |].
  split; [reflexivity | exact Hi].
Qed.

Lemma wf_removeNote f a : wf a -> wf (removeNote f a).
Proof.
  intros (Hnd & _ & Hi). split; [apply set_delete_NoDup, Hnd |].
  split; [reflexivity | exact Hi].
Qed.

Lemma wf_setEnabled b a : wf a -> wf (setEnabled b a).
Proof.
  intros (Hnd & Hs & Hi). destruct b; cbn.
  - split; [exact Hnd |]. split; [exact Hs | exact Hi].
  - split; [apply NoDup_nil_2 |]. split; [reflexivity | exact Hi].
Qed.

Lemma wf_setPattern p a : wf a -> wf (setPattern p a).
Proof. intros H. exact H. Qed.

Lemma wf_setRate r a : wf a -> wf (setRate r a).
Proof. intros H. exact H. Qed.

Lemma wf_clear a : wf a -> wf (clear a).
Proof.
  intros (_ & _ & Hi). split; [apply NoDup_nil_2 |]. split; [reflexivity | exact Hi].
Qed.

Lemma wf_tick rnd a : wf a -> wf (fst (tick rnd a)).
Proof.
  intros (Hnd & Hs & Hi). unfold tick. cbv zeta.
  destruct (negb (isEnabled a) || (Z.of_nat (length (sortedNotes a)) =? 0)%Z) eqn:Hg;
    [split; [exact Hnd | split; [exact Hs | exact Hi]] |].
  apply orb_false_elim in Hg as [_ Hlen]. apply Z.eqb_neq in Hlen.
  assert (Hrem : (0 <= Z.rem (index a) (Z.of_nat (length (sortedNotes a))))%Z)
    by (apply Z.rem_nonneg; lia).
  destruct (pattern a);
    try (destruct (Z.of_nat (length (sortedNotes a)) =? 1)%Z);
    (split; [exact Hnd | split; [exact Hs | cbn; lia]]).
Qed.

Lemma wf_sorted_NoDup a : wf a -> NoDup (sortedNotes a).
Proof.
  intros (Hnd & Hs & _). rewrite Hs, sort_ascending_perm. exact Hnd.
Qed.

(** The held notes are read in ascending order. *)
Lemma wf_sorted_ascending a : wf a -> Sorted Rle (sortedNotes a).
Proof.
  intros (_ & Hs & _). rewrite Hs. apply Sorted_merge_sort.
  intros x y. destruct (Rle_dec x y); [left; assumption | right; lra].
Qed.

(** *** The up-down walk *)

Lemma upDown_position_spec (len i : Z) :
  (2 <= len)%Z -> (0 <= i)%Z ->
  let m := (i mod (2 * len - 2))%Z in
  upDown_position len i = (if (m <? len)%Z then m else 2 * len - 2 - m)%Z
  /\ (0 <= upDown_position len i < len)%Z.
Proof.
  intros Hlen Hi m. unfold upDown_position. cbv zeta.
  replace (len * 2 - 2)%Z with (2 * len - 2)%Z by lia.
  rewrite Z.rem_mod_nonneg by lia. fold m.
  pose proof (Z.mod_pos_bound i (2 * len - 2) ltac:(lia)) as Hm. fold m in Hm.
  destruct (Z.ltb_spec m len); split; lia.
Qed.

Lemma mod_succ (i c : Z) :
  (0 < c)%Z ->
  ((i + 1) mod c = if (i mod c + 1 <? c) then i mod c + 1 else 0)%Z.
Proof.
  intros Hc. pose proof (Z.mod_pos_bound i c Hc) as Hm.
  rewrite <- Zplus_mod_idemp_l.
  destruct (Z.ltb_spec (i mod c + 1) c) as [Hlt | Hge].
  - apply Z.mod_small. lia.
  - replace (i mod c + 1)%Z with c by lia. apply Z_mod_same_full.
Qed.

(** Consecutive indices never read the same position. *)
Lemma upDown_position_step (len i : Z) :
  (2 <= len)%Z -> (0 <= i)%Z ->
  upDown_position len (i + 1) <> upDown_position len i.
Proof.
  intros Hlen Hi.
  destruct (upDown_position_spec len i Hlen Hi) as [-> _].
  destruct (upDown_position_spec len (i + 1) Hlen ltac:(lia)) as [-> _].
  cbv zeta. rewrite mod_succ by lia.
  pose proof (Z.mod_pos_bound i (2 * len - 2) ltac:(lia)) as Hm.
  set (m := (i mod (2 * len - 2))%Z) in *.
  repeat match goal with
         | |- context [Z.ltb ?a ?b] => destruct (Z.ltb_spec a b)
         end; lia.
Qed.

(** The position depends on the index modulo [2*len - 2] only. *)
Lemma upDown_position_period (len i : Z) :
  (2 <= len)%Z -> (0 <= i)%Z ->
  upDown_position len (i + (2 * len - 2)) = upDown_position len i.
Proof.
  intros Hlen Hi.
  destruct (upDown_position_spec len i Hlen Hi) as [-> _].
  destruct (upDown_position_spec len (i + (2 * len - 2)) Hlen ltac:(lia)) as [-> _].
  cbv zeta.
  replace (i + (2 * len - 2))%Z with (i + 1 * (2 * len - 2))%Z by lia.
  rewrite Z_mod_plus_full. reflexivity.
Qed.

Section UpDownRun.

Variable a : Arpeggiator.
Variable rnds : nat -> R.
Hypothesis Hwf : wf a.
Hypothesis Hen : isEnabled a = true.
Hypothesis Hpat : pattern a = upDown.

Let N := length (sortedNotes a).

Lemma upDown_state_single k : N = 1%nat -> state_after k rnds a = a.
Proof.
  intros HN. induction k as [| k IH]; [reflexivity |].
  cbn [state_after]. rewrite IH. unfold tick. cbv zeta.
  rewrite Hen, Hpat. fold N. rewrite HN. reflexivity.
Qed.

Lemma upDown_state_many k :
  (2 <= N)%nat ->
  let s := state_after k rnds a in
  sortedNotes s = sortedNotes a /\ isEnabled s = true /\ pattern s = upDown
  /\ index s = (index a + Z.of_nat k)%Z.
Proof.
  intros HN. induction k as [| k IH]; cbv zeta.
  - cbn. repeat split; [exact Hen | exact Hpat | lia].
  - cbv zeta in IH. destruct IH as (Hs & He & Hp & Hi).
    cbn [state_after]. unfold tick. cbv zeta. rewrite He, Hp, Hs. fold N.
    destruct (Z.eqb_spec (Z.of_nat N) 0) as [H0 | _]; [lia |].
    destruct (Z.eqb_spec (Z.of_nat N) 1) as [H1 | _]; [lia |].
    cbn. repeat split; [exact Hs | exact He | exact Hp | lia].
Qed.

Lemma upDown_emission_many k :
  (2 <= N)%nat ->
  emission_at k rnds a
  = Single <$> sortedNotes a
      !! Z.to_nat (upDown_position (Z.of_nat N) (index a + Z.of_nat k)).
Proof.
  intros HN. unfold emission_at.
  destruct (upDown_state_many k HN) as (Hs & He & Hp & Hi).
  unfold tick. cbv zeta. rewrite He, Hp, Hs, Hi. fold N.
  destruct (Z.eqb_spec (Z.of_nat N) 0) as [H0 | _]; [lia |].
  destruct (Z.eqb_spec (Z.of_nat N) 1) as [H1 | _]; [lia |].
  cbn [negb orb snd]. unfold JS.get.
  destruct Hwf as (_ & _ & Hidx).
  destruct (upDown_position_spec (Z.of_nat N) (index a + Z.of_nat k)
              ltac:(lia) ltac:(lia)) as [_ Hrng].
  destruct (Z.ltb_spec (upDown_position (Z.of_nat N) (index a + Z.of_nat k)) 0);
    [lia | reflexivity].
Qed.

End UpDownRun.

(** In a duplicate-free array two in-range reads agree only at the same
    position. *)
Lemma single_lookup_inj (l : list R) (p q : nat) :
  NoDup l -> (p < length l)%nat -> (q < length l)%nat ->
  Single <$> l !! p = Single <$> l !! q -> p = q.
Proof.
  intros Hnd Hp Hq Heq.
  destruct (lookup_lt_is_Some_2 l p Hp) as [x Hx].
  destruct (lookup_lt_is_Some_2 l q Hq) as [y Hy].
  rewrite Hx, Hy in Heq. cbn in Heq.
  assert (x = y) by congruence. subst y.
  eapply NoDup_lookup; eassumption.
Qed.

(** Within a cycle that starts on a multiple of the cycle length the
    position is the tick number on the way up and its mirror on the way
    down. *)
Lemma upDown_position_aligned (len i j : Z) :
  (2 <= len)%Z -> (0 <= i)%Z -> (i mod (2 * len - 2) = 0)%Z ->
  (0 <= j < 2 * len - 2)%Z ->
  upDown_position len (i + j) = (if (j <? len)%Z then j else 2 * len - 2 - j)%Z.
Proof.
  intros Hlen Hi Hal Hj.
  destruct (upDown_position_spec len (i + j) Hlen ltac:(lia)) as [-> _].
  cbv zeta. rewrite Zplus_mod, Hal, Z.add_0_l, Z.mod_mod by lia.
  rewrite Z.mod_small by lia. reflexivity.
Qed.

(** C6: with the arpeggiator enabled on pattern [upDown] and the held notes
    fixed, a single held note is emitted on every tick; [N >= 2] held notes
    are emitted with period [2N-2], a cycle reads the sorted positions
    [0, 1, ..., N-1, N-2, ..., 1], each endpoint once, and consecutive
    ticks never emit the same note. *)
Theorem C6_upDown_palindrome (a : Arpeggiator) (rnds : nat -> R) :
  wf a -> isEnabled a = true -> pattern a = upDown ->
  let N := length (sortedNotes a) in
  let emitted k := emission_at k rnds a in
  let at_position p := Single <$> sortedNotes a !! p in
  (N = 1%nat ->
     exists x, sortedNotes a = [x] /\ forall k, emitted k = Some (Single x))
  /\ ((2 <= N)%nat ->
      (forall k, exists x, x ∈ sortedNotes a /\ emitted k = Some (Single x))
      /\ (forall k, emitted (k + (2 * N - 2))%nat = emitted k)
      /\ (forall k, emitted (S k) <> emitted k)
      /\ ((index a mod (2 * Z.of_nat N - 2) = 0)%Z ->
          (forall j, (j < N)%nat -> emitted j = at_position j)
          /\ (forall j, (N <= j < 2 * N - 2)%nat ->
                emitted j = at_position (2 * N - 2 - j)%nat)
          /\ (forall j, (j < 2 * N - 2)%nat ->
                (emitted j = at_position 0%nat <-> j = 0%nat)
                /\ (emitted j = at_position (N - 1)%nat <-> j = (N - 1)%nat)))).
Proof.
  intros Hwf Hen Hpat N emitted at_position.
  pose proof (wf_sorted_NoDup a Hwf) as Hnd.
  assert (Hidx : (0 <= index a)%Z) by apply Hwf.
  split.
  { intros HN. destruct (sortedNotes a) as [| x [| y l]] eqn:Hl; try discriminate.
    exists x. split; [reflexivity |]. intros k. unfold emitted, emission_at.
    rewrite (upDown_state_single a rnds Hen Hpat k)
      by (rewrite Hl; reflexivity).
    unfold tick. cbv zeta. rewrite Hen, Hpat, Hl. reflexivity. }
  intros HN.
  assert (Hem : forall k, emitted k
      = at_position (Z.to_nat (upDown_position (Z.of_nat N) (index a + Z.of_nat k)))).
  { intros k. apply upDown_emission_many; assumption. }
  assert (Hrng : forall k,
      (Z.to_nat (upDown_position (Z.of_nat N) (index a + Z.of_nat k)) < N)%nat).
  { intros k.
    destruct (upDown_position_spec (Z.of_nat N) (index a + Z.of_nat k)
                ltac:(lia) ltac:(lia)) as [_ H]. lia. }
  split.
  { intros k. rewrite Hem. unfold at_position.
    destruct (lookup_lt_is_Some_2 (sortedNotes a) _ (Hrng k)) as [x Hx].
    exists x. rewrite Hx. split; [| reflexivity].
    eapply list_elem_of_lookup_2, Hx. }
  split.
  { intros k. rewrite !Hem.
    replace (index a + Z.of_nat (k + (2 * N - 2)))%Z
      with (index a + Z.of_nat k + (2 * Z.of_nat N - 2))%Z by lia.
    rewrite upDown_position_period by lia. reflexivity. }
  split.
  { intros k Heq. rewrite !Hem in Heq.
    apply single_lookup_inj in Heq; [| exact Hnd | apply Hrng | apply Hrng].
    pose proof (upDown_position_step (Z.of_nat N) (index a + Z.of_nat k)
                  ltac:(lia) ltac:(lia)) as Hstep.
    destruct (upDown_position_spec (Z.of_nat N) (index a + Z.of_nat k)
                ltac:(lia) ltac:(lia)) as [_ H1].
    destruct (upDown_position_spec (Z.of_nat N) (index a + Z.of_nat k + 1)
                ltac:(lia) ltac:(lia)) as [_ H2].
    replace (index a + Z.of_nat (S k))%Z with (index a + Z.of_nat k + 1)%Z in Heq by lia.
    lia. }
  intros Hal.
  assert (Hpos : forall j, (j < 2 * N - 2)%nat ->
      Z.to_nat (upDown_position (Z.of_nat N) (index a + Z.of_nat j))
      = if (j <? N)%nat then j else (2 * N - 2 - j)%nat).
  { intros j Hj. rewrite upDown_position_aligned by lia.
    destruct (Z.ltb_spec (Z.of_nat j) (Z.of_nat N)), (Nat.ltb_spec j N); lia. }
  split.
  { intros j Hj. rewrite Hem, Hpos by lia.
    destruct (Nat.ltb_spec j N); [reflexivity | lia]. }
  split.
  { intros j Hj. rewrite Hem, Hpos by lia.
    destruct (Nat.ltb_spec j N); [lia | reflexivity]. }
  intros j Hj. rewrite Hem. split; split.
  - intros Heq. apply single_lookup_inj in Heq; [| exact Hnd | apply Hrng | lia].
    rewrite Hpos in Heq by lia. destruct (Nat.ltb_spec j N); lia.
  - intros ->. rewrite Hpos by lia. destruct (Nat.ltb_spec 0 N); [reflexivity | lia].
  - intros Heq. apply single_lookup_inj in Heq; [| exact Hnd | apply Hrng | lia].
    rewrite Hpos in Heq by lia. destruct (Nat.ltb_spec j N); lia.
  - intros ->. rewrite Hpos by lia. destruct (Nat.ltb_spec (N - 1) N); [reflexivity | lia].
Qed.

Lemma C6_upDown_palindrome_witness :
  let a := addNote 440 (addNote 330 (setPattern upDown (setEnabled true new_arpeggiator))) in
  length (sortedNotes a) = 2%nat
  /\ forall k, emission_at (S k) (fun _ => 0%R) a <> emission_at k (fun _ => 0%R) a.
Proof.
  intros a.
  assert (Hwf : wf a).
  { unfold a. apply wf_addNote, wf_addNote, wf_setPattern, wf_setEnabled, wf_new. }
  assert (Hlen : length (sortedNotes a) = 2%nat).
  { unfold a. cbn. rewrite sort_ascending_length. unfold set_add.
    destruct (decide (330%R ∈ [])) as [Hin | _]; [inversion Hin |].
    cbn. destruct (decide (440%R ∈ [330%R])) as [Hin | _]; [| reflexivity].
    apply list_elem_of_singleton in Hin. lra. }
  split; [exact Hlen |].
  destruct (C6_upDown_palindrome a (fun _ => 0%R) Hwf eq_refl eq_refl) as [_ H].
  apply H. rewrite Hlen. lia.
Defined.

End ArpFacts.

(* ===================================================================== *)
(** ** Voices and arpeggiator registrations: proofs *)
(* ===================================================================== *)

Section VoiceFacts.

Import Engine.

Lemma with_arp_id e : with_arp e (arpeggiator e) (activeArpTouches e) = e.
Proof. destruct e; reflexivity. Qed.

Lemma with_voices_id e : with_voices e (voices e) (releasedVoices e) = e.
Proof. destruct e; reflexivity. Qed.

Lemma with_looper_id e :
  with_looper e (tracks e) (recorderStarted e) (masterLoopDuration e) (transport e) = e.
Proof. destruct e; reflexivity. Qed.

Lemma addNote_keeps x g a :
  x ∈ Arp.activeNotes a -> x ∈ Arp.activeNotes (Arp.addNote g a).
Proof.
  intros Hx. cbn. unfold Arp.set_add.
  destruct (decide (g ∈ Arp.activeNotes a)); [exact Hx |].
  apply elem_of_app. left. exact Hx.
Qed.

Lemma addNote_adds g a : g ∈ Arp.activeNotes (Arp.addNote g a).
Proof.
  cbn. unfold Arp.set_add.
  destruct (decide (g ∈ Arp.activeNotes a)) as [Hin | _]; [exact Hin |].
  apply elem_of_app. right. apply list_elem_of_singleton. reflexivity.
Qed.

Lemma addNotes_keeps fs x a :
  x ∈ Arp.activeNotes a -> x ∈ Arp.activeNotes (addNotes fs a).
Proof.
  revert a. induction fs as [| g fs IH]; intros a Hx; [exact Hx |].
  change (addNotes (g :: fs) a) with (addNotes fs (Arp.addNote g a)).
  apply IH, addNote_keeps, Hx.
Qed.

(** After [freqs.forEach(f => addNote(f))] every frequency is held. *)
Lemma addNotes_adds fs a f : f ∈ fs -> f ∈ Arp.activeNotes (addNotes fs a).
Proof.
  revert a. induction fs as [| g fs IH]; intros a Hf; [inversion Hf |].
  change (addNotes (g :: fs) a) with (addNotes fs (Arp.addNote g a)).
  apply elem_of_cons in Hf as [-> | Hf].
  - apply addNotes_keeps, addNote_adds.
  - apply IH, Hf.
Qed.

Lemma addNotes_enabled fs a : Arp.isEnabled (addNotes fs a) = Arp.isEnabled a.
Proof.
  revert a. induction fs as [| g fs IH]; intros a; [reflexivity |].
  change (addNotes (g :: fs) a) with (addNotes fs (Arp.addNote g a)).
  rewrite IH. reflexivity.
Qed.

Lemma removeNotes_enabled fs a : Arp.isEnabled (removeNotes fs a) = Arp.isEnabled a.
Proof.
  revert a. induction fs as [| g fs IH]; intros a; [reflexivity |].
  change (removeNotes (g :: fs) a) with (removeNotes fs (Arp.removeNote g a)).
  rewrite IH. reflexivity.
Qed.

(** The held notes as the arpeggiator reads them hold the same
    frequencies as the set. *)
Lemma sorted_holds a f : Arp.wf a -> f ∈ Arp.sortedNotes a <-> f ∈ Arp.activeNotes a.
Proof. intros (_ & -> & _). unfold Arp.sort_ascending. rewrite merge_sort_Permutation. reflexivity. Qed.

Lemma mode_stable_exclusive e : mode_stable e -> exclusive e.
Proof.
  unfold mode_stable, exclusive, owns_voices, owns_arp. intros H p [[vs Hv] [fs Hf]].
  destruct (Arp.isEnabled (arpeggiator e)); rewrite H in *;
    rewrite lookup_empty in *; discriminate.
Qed.

Lemma mode_stable_new u0 u1 u2 u3 : mode_stable (new_engine u0 u1 u2 u3).
Proof. reflexivity. Qed.

Lemma mode_stable_updateNote p fr vol e : mode_stable e -> mode_stable (updateNote p fr vol e).
Proof.
  unfold mode_stable, updateNote, updateNote_call. cbv zeta. unfold Arp.getEnabled.
  destruct (Arp.isEnabled (arpeggiator e)) eqn:Hen; intros H.
  - cbn. rewrite addNotes_enabled.
    destruct (activeArpTouches e !! p); rewrite ?removeNotes_enabled, Hen; exact H.
  - destruct (voices e !! p); cbn; rewrite Hen; exact H.
Qed.

Lemma mode_stable_startNote p fr vol e : mode_stable e -> mode_stable (startNote p fr vol e).
Proof.
  intros H. unfold startNote, startNote_call.
  destruct (voices e !! p) eqn:Hv; [apply mode_stable_updateNote, H |].
  revert H. unfold mode_stable. cbv zeta. unfold Arp.getEnabled.
  destruct (Arp.isEnabled (arpeggiator e)) eqn:Hen; intros H; cbn.
  - rewrite addNotes_enabled, Hen. exact H.
  - rewrite Hen. exact H.
Qed.

Lemma mode_stable_stopNote p e : mode_stable e -> mode_stable (stopNote p e).
Proof.
  unfold mode_stable, stopNote. cbv zeta. unfold Arp.getEnabled.
  destruct (Arp.isEnabled (arpeggiator e)) eqn:Hen; intros H.
  - cbn. rewrite H, lookup_empty. cbn.
    destruct (activeArpTouches e !! p); rewrite ?removeNotes_enabled, Hen; exact H.
  - destruct (voices e !! p); cbn; rewrite Hen; exact H.
Qed.

Lemma setArpEnabled_frame b e :
  voices (setArpEnabled b e) = voices e
  /\ activeArpTouches (setArpEnabled b e) = activeArpTouches e
  /\ releasedVoices (setArpEnabled b e) = releasedVoices e
  /\ Arp.isEnabled (arpeggiator (setArpEnabled b e)) = b
  /\ Arp.activeNotes (arpeggiator (setArpEnabled b e))
     = (if b then Arp.activeNotes (arpeggiator e) else [])
  /\ Arp.sortedNotes (arpeggiator (setArpEnabled b e))
     = (if b then Arp.sortedNotes (arpeggiator e) else []).
Proof. repeat split. Qed.

(** C1, as stated, fails: enabling the arpeggiator while pointer 1 sounds
    a 440 Hz voice leaves the voice in the map and unreleased and the
    held-note set empty; the pointer's next update then puts it in both
    maps. *)
Lemma C1_counterexample :
  let e1 := startNote 1 (One 440) 0.8 (new_engine "t0" "t1" "t2" "t3") in
  let e2 := setArpEnabled true e1 in
  let e3 := updateNote 1 (One 440) 0.8 e2 in
  voices e1 !! 1%Z = Some [attack sine 440 0.8]
  /\ voices e2 !! 1%Z = Some [attack sine 440 0.8]
  /\ releasedVoices e2 = []
  /\ Arp.activeNotes (arpeggiator e2) = []
  /\ Arp.sortedNotes (arpeggiator e2) = []
  /\ (owns_voices 1 e3 /\ owns_arp 1 e3)
  /\ ~ exclusive e3.
Proof.
  intros e1 e2 e3.
  assert (Hv : voices e1 !! 1%Z = Some [attack sine 440 0.8]) by apply lookup_insert_eq.
  assert (Hboth : owns_voices 1 e3 /\ owns_arp 1 e3).
  { split.
    - exists [attack sine 440 0.8]. exact Hv.
    - exists [440%R]. apply lookup_insert_eq. }
  split; [exact Hv |]. split; [exact Hv |].
  split; [reflexivity |]. split; [reflexivity |]. split; [reflexivity |].
  split; [exact Hboth |].
  intros Hex. exact (Hex 1%Z Hboth).
Qed.

(** C1, amended: [setArpEnabled] only sets the arpeggiator flag (and
    clears the held notes when switching off); both pointer maps and the
    sounding voices are untouched.  A pointer that owns voices when the
    arpeggiator is switched on keeps them until its [stopNote], which
    releases them and leaves the pointer in neither map; its frequencies
    enter the held-note set at its next [startNote]/[updateNote].  As long
    as voices exist only with the arpeggiator off and registrations only
    with it on, the note operations keep it so and no pointer is in both
    maps. *)
Theorem C1_arp_toggle_amended (e : AudioEngine) (p : Z) (vs : list Voice)
    (fr : FreqArg) (vol : R) :
  voices e !! p = Some vs ->
  let e1 := setArpEnabled true e in
  let e2 := updateNote p fr vol e1 in
  let e3 := stopNote p e1 in
  (voices e1 = voices e /\ activeArpTouches e1 = activeArpTouches e
   /\ releasedVoices e1 = releasedVoices e
   /\ Arp.activeNotes (arpeggiator e1) = Arp.activeNotes (arpeggiator e)
   /\ Arp.isEnabled (arpeggiator e1) = true)
  /\ (forall e', voices (setArpEnabled false e') = voices e'
        /\ activeArpTouches (setArpEnabled false e') = activeArpTouches e'
        /\ Arp.activeNotes (arpeggiator (setArpEnabled false e')) = [])
  /\ (startNote p fr vol e1 = e2
      /\ activeArpTouches e2 !! p = Some (to_freqs fr)
      /\ (forall f, f ∈ to_freqs fr -> f ∈ Arp.activeNotes (arpeggiator e2))
      /\ voices e2 !! p = Some vs)
  /\ (voices e3 !! p = None /\ activeArpTouches e3 !! p = None
      /\ releasedVoices e3 = rev vs ++ releasedVoices e)
  /\ (forall e' q fr' vol', mode_stable e' ->
        exclusive e'
        /\ mode_stable (startNote q fr' vol' e')
        /\ mode_stable (updateNote q fr' vol' e')
        /\ mode_stable (stopNote q e')).
Proof.
  intros Hv e1 e2 e3.
  split; [repeat split |].
  split; [intros e'; repeat split |].
  split.
  { split.
    - unfold startNote, startNote_call. change (voices e1) with (voices e). rewrite Hv. reflexivity.
    - split; [apply lookup_insert_eq |]. split; [| exact Hv].
      intros f Hf. unfold e2, updateNote, updateNote_call. cbn. apply addNotes_adds, Hf. }
  split.
  { unfold e3, stopNote. cbn.
    destruct (activeArpTouches e !! p); cbn; rewrite Hv; cbn;
      (split; [apply lookup_delete_eq | split; [apply lookup_delete_eq | reflexivity]]). }
  intros e' q fr' vol' Hst.
  split; [apply mode_stable_exclusive, Hst |].
  split; [apply mode_stable_startNote, Hst |].
  split; [apply mode_stable_updateNote, Hst | apply mode_stable_stopNote, Hst].
Qed.

Lemma C1_arp_toggle_amended_witness :
  let e := startNote 1 (One 440) 0.8 (new_engine "t0" "t1" "t2" "t3") in
  voices (stopNote 1 (setArpEnabled true e)) !! 1%Z = None
  /\ activeArpTouches (stopNote 1 (setArpEnabled true e)) !! 1%Z = None
  /\ releasedVoices (stopNote 1 (setArpEnabled true e))
     = rev [attack sine 440 0.8] ++ releasedVoices e.
Proof.
  intros e.
  destruct (C1_arp_toggle_amended e 1 [attack sine 440 0.8] (One 440) 0.8
              (lookup_insert_eq _ _ _)) as (_ & _ & _ & H & _).
  exact H.
Defined.

End VoiceFacts.

(* ===================================================================== *)
(** ** The looper: proofs *)
(* ===================================================================== *)

Section LooperFacts.

Import Engine Engine.LoopTrack.
Local Open Scope R_scope.

Lemma get_Some {A} (l : list A) (i : Z) (x : A) :
  JS.get l i = Some x -> (0 <= i)%Z /\ l !! Z.to_nat i = Some x.
Proof.
  unfold JS.get. destruct (Z.ltb_spec i 0) as [Hneg | Hnn]; [discriminate |].
  intros Hl. split; [lia | exact Hl].
Qed.

Lemma get_insert_eq {A} (l : list A) (i : Z) (x y : A) :
  JS.get l i = Some x -> JS.get (<[Z.to_nat i := y]> l) i = Some y.
Proof.
  intros Hg. destruct (get_Some l i x Hg) as [Hi Hl].
  unfold JS.get. destruct (Z.ltb_spec i 0) as [Hneg | Hnn]; [lia |].
  apply list_lookup_insert_eq. eapply lookup_lt_Some, Hl.
Qed.

Lemma get_insert_ne {A} (l : list A) (i j : Z) (y : A) :
  (0 <= i)%Z -> i <> j -> JS.get (<[Z.to_nat i := y]> l) j = JS.get l j.
Proof.
  intros Hi Hne. unfold JS.get. destruct (Z.ltb_spec j 0) as [Hneg | Hnn]; [reflexivity |].
  apply list_lookup_insert_ne. lia.
Qed.

Lemma anyRecording_true e :
  anyRecording e = true <-> exists t, t ∈ tracks e /\ isRecording t = true.
Proof.
  unfold anyRecording. rewrite existsb_exists. split.
  - intros (t & Hin & Hr). exists t. split; [apply list_elem_of_In, Hin | exact Hr].
  - intros (t & Hin & Hr). exists t. split; [apply list_elem_of_In, Hin | exact Hr].
Qed.

(** C5: while any track is recording, [startRecording] on any index
    returns without starting the recorder or touching any track. *)
Theorem C5_second_startRecording_rejected (e : AudioEngine) (i : Z) :
  (exists t, t ∈ tracks e /\ isRecording t = true) ->
  startRecording i e = Ok e.
Proof.
  intros H. apply anyRecording_true in H. unfold startRecording. rewrite H. reflexivity.
Qed.

Lemma C5_second_startRecording_rejected_witness :
  exists e, startRecording 0 (new_engine "t0" "t1" "t2" "t3") = Ok e
            /\ startRecording 2 e = Ok e.
Proof.
  eexists. split; [reflexivity |].
  apply C5_second_startRecording_rejected.
  eexists. split; [apply list_elem_of_here | reflexivity].
Defined.

(** What a take whose [recorder.stop()] throws leaves behind: only the
    recording flag of the track is cleared. *)
Lemma stopRecording_failure_result e i now t :
  JS.get (tracks e) i = Some t -> isRecording t = true ->
  stopRecording i now StopThrows e
  = Ok (with_looper e
          (set_track e i (with_recording t (player t) (ghostEvents t) false))
          (recorderStarted e) (masterLoopDuration e) (transport e)).
Proof.
  intros Hg Hrec. unfold stopRecording. rewrite Hg, Hrec. reflexivity.
Qed.

(** What a take whose [recorder.stop()] resolves leaves behind.  The
    buffer made from the blob is read before it has loaded: the start time
    is [now - 0], a null loop length becomes [0], and [buffer.get() || null]
    is [null]. *)
Lemma stopRecording_captured e i now b t :
  JS.get (tracks e) i = Some t -> isRecording t = true ->
  stopRecording i now (Captured b) e
  = Ok (with_looper e
          (set_track e i
             {| id := id t;
                player := Player.load_sync_start (ToneBuffer.create (Some b)) (player t);
                volumeNode := volumeNode t;
                audioBuffer := None;
                ghostEvents := match masterLoopDuration e with
                               | None => normalize_first now <$> ghostEvents t
                               | Some m => normalize_later now m <$> ghostEvents t
                               end;
                isRecording := false; isPlaying := true; color := color t |})
          false
          (match masterLoopDuration e with None => Some 0 | Some m => Some m end)
          (match masterLoopDuration e with
           | None => {| Transport.running := true; Transport.loop := true;
                        Transport.loopStart := 0; Transport.loopEnd := 0 |}
           | Some _ => {| Transport.running := true;
                          Transport.loop := Transport.loop (transport e);
                          Transport.loopStart := Transport.loopStart (transport e);
                          Transport.loopEnd := Transport.loopEnd (transport e) |}
           end)).
Proof.
  intros Hg Hrec. unfold stopRecording. rewrite Hg, Hrec. cbn [negb]. cbv zeta.
  change (ToneBuffer.duration (ToneBuffer.create (Some b))) with 0.
  rewrite Rminus_0_r. destruct (masterLoopDuration e); reflexivity.
Qed.

(** The window [[0, 0)] holds no time at all. *)
Lemma in_window_zero tm : ~ in_window 0 tm.
Proof. destruct tm as [r |]; cbn; [lra | tauto]. Qed.

(** C9, as stated, fails for a track that is recorded a second time: after
    a first take on track 0, a new take whose [recorder.stop()] throws
    leaves the track flagged as playing. *)
Lemma C9_counterexample :
  let b := {| duration := 4 |} in
  exists e1 e2 e3 e4 t,
    startRecording 0 (new_engine "t0" "t1" "t2" "t3") = Ok e1
    /\ stopRecording 0 10 (Captured b) e1 = Ok e2
    /\ startRecording 0 e2 = Ok e3
    /\ stopRecording 0 20 StopThrows e3 = Ok e4
    /\ JS.get (tracks e4) 0 = Some t
    /\ isPlaying t = true.
Proof.
  intros b. do 5 eexists.
  split; [reflexivity |]. split; [reflexivity |].
  split; [reflexivity |]. split; [reflexivity |].
  split; reflexivity.
Qed.

(** C9, amended: when [recorder.stop()] throws, the call still returns
    normally; the track's [isRecording] becomes false while its buffer,
    [isPlaying] flag, player and ghost events are what they were before the
    call, the other tracks are untouched and [masterLoopDuration] is
    unchanged.  So a track with no buffer that is not playing ends that
    way, and a null [masterLoopDuration] stays null: once no track is
    recording, the track can be recorded again and that take sets the loop
    length. *)
Theorem C9_capture_failure_amended (e : AudioEngine) (i : Z) (now : R)
    (t : LoopTrack.t) :
  JS.get (tracks e) i = Some t -> isRecording t = true ->
  exists e' t',
    stopRecording i now StopThrows e = Ok e'
    /\ JS.get (tracks e') i = Some t'
    /\ isRecording t' = false
    /\ audioBuffer t' = audioBuffer t
    /\ isPlaying t' = isPlaying t
    /\ player t' = player t
    /\ ghostEvents t' = ghostEvents t
    /\ (audioBuffer t = None -> isPlaying t = false ->
        audioBuffer t' = None /\ isPlaying t' = false)
    /\ (forall j, j <> i -> JS.get (tracks e') j = JS.get (tracks e) j)
    /\ masterLoopDuration e' = masterLoopDuration e
    /\ (masterLoopDuration e = None -> masterLoopDuration e' = None)
    /\ (masterLoopDuration e = None -> anyRecording e' = false ->
        forall now' b, exists e1 e2,
          startRecording i e' = Ok e1
          /\ stopRecording i now' (Captured b) e1 = Ok e2
          /\ is_Some (masterLoopDuration e2)).
Proof.
  intros Hg Hrec.
  destruct (get_Some _ _ _ Hg) as [Hi _].
  set (t' := with_recording t (player t) (ghostEvents t) false).
  set (e' := with_looper e (set_track e i t') (recorderStarted e)
               (masterLoopDuration e) (transport e)).
  assert (Hget' : JS.get (tracks e') i = Some t')
    by (cbn; unfold set_track; eapply get_insert_eq, Hg).
  exists e', t'.
  split; [apply stopRecording_failure_result; assumption |].
  split; [exact Hget' |].
  do 5 (split; [reflexivity |]).
  split; [intros Hb Hp; split; assumption |].
  split; [intros j Hj; cbn; unfold set_track; apply get_insert_ne; [exact Hi | congruence] |].
  split; [reflexivity |]. split; [intros H; exact H |].
  intros Hn Hany now' b.
  set (t1 := with_recording t' (Player.stop_unsync (player t')) [] true).
  set (e1 := with_looper e' (set_track e' i t1) true (masterLoopDuration e')
               (transport e')).
  assert (Hstart : startRecording i e' = Ok e1)
    by (unfold startRecording; rewrite Hany, Hget'; reflexivity).
  assert (Hget1 : JS.get (tracks e1) i = Some t1)
    by (unfold e1; cbn [tracks with_looper]; unfold set_track;
        eapply get_insert_eq, Hget').
  exists e1. eexists. split; [exact Hstart |].
  split; [apply (stopRecording_captured e1 i now' b t1 Hget1 eq_refl) |].
  cbn [masterLoopDuration with_looper].
  change (masterLoopDuration e1) with (masterLoopDuration e). rewrite Hn.
  eexists. reflexivity.
Qed.

Lemma C9_capture_failure_amended_witness :
  exists e1 e' t',
    startRecording 0 (new_engine "t0" "t1" "t2" "t3") = Ok e1
    /\ stopRecording 0 20 StopThrows e1 = Ok e'
    /\ JS.get (tracks e') 0 = Some t'
    /\ audioBuffer t' = None /\ isPlaying t' = false
    /\ masterLoopDuration e' = None.
Proof.
  eexists.
  edestruct (C9_capture_failure_amended
               (with_looper (new_engine "t0" "t1" "t2" "t3")
                  (set_track (new_engine "t0" "t1" "t2" "t3") 0
                     (with_recording (new_track "t0" "#00f0ff") Player.fresh [] true))
                  true None
                  (transport (new_engine "t0" "t1" "t2" "t3")))
               0 20
               (with_recording (new_track "t0" "#00f0ff") Player.fresh [] true)
               eq_refl eq_refl)
    as (e' & t' & Hstop & Hget & _ & _ & _ & _ & _ & Hkeep & _ & _ & Hnull & _).
  exists e', t'.
  split; [reflexivity |]. split; [exact Hstop |]. split; [exact Hget |].
  destruct (Hkeep eq_refl eq_refl) as [Hb Hp].
  split; [exact Hb |]. split; [exact Hp | exact (Hnull eq_refl)].
Defined.

(** C2: the code misses the claim.  [stopRecording] reads the buffer it
    has just made from the recorder's blob before that buffer has loaded,
    so on the first take of a session, whatever was recorded, the loop
    length becomes [0] and not the duration of the recorded audio, no audio
    buffer is stored on the track, and each ghost event's time becomes its
    raw stamp minus [now]; the window [[0, masterLoopDuration)] is empty
    and holds none of them. *)
Theorem C2_first_take_reads_unloaded_buffer (e : AudioEngine) (i : Z) (now : R)
    (b : Buffer) (t : LoopTrack.t) :
  JS.get (tracks e) i = Some t -> isRecording t = true ->
  masterLoopDuration e = None ->
  exists e' t',
    stopRecording i now (Captured b) e = Ok e'
    /\ JS.get (tracks e') i = Some t'
    /\ masterLoopDuration e' = Some 0
    /\ (duration b <> 0 -> masterLoopDuration e' <> Some (duration b))
    /\ audioBuffer t' = None
    /\ isPlaying t' = true /\ isRecording t' = false
    /\ ghostEvents t'
       = (fun ev => TouchEventData.with_time ev
                      (JS.sub (TouchEventData.time ev) (JS.Num now)))
         <$> ghostEvents t
    /\ (ghostEvents t <> [] -> ~ events_in_window 0 t').
Proof.
  intros Hg Hrec Hm.
  do 2 eexists. split; [apply stopRecording_captured; eassumption |].
  rewrite Hm.
  split; [cbn; unfold set_track; eapply get_insert_eq, Hg |].
  split; [reflexivity |].
  split; [intros Hd [= H]; apply Hd; symmetry; exact H |].
  do 3 (split; [reflexivity |]).
  split; [reflexivity |].
  cbn [ghostEvents]. intros Hne Hall. unfold events_in_window in Hall.
  cbn [ghostEvents] in Hall.
  destruct (ghostEvents t) as [| ev evs]; [congruence |].
  apply Forall_inv in Hall. exact (in_window_zero _ Hall).
Qed.

Lemma C2_first_take_reads_unloaded_buffer_witness :
  exists e1 e2 e3 t,
    startRecording 0 (new_engine "t0" "t1" "t2" "t3") = Ok e1
    /\ recordTouchEvent 0 100 50 1 "#fff" 4 e1 = Ok e2
    /\ stopRecording 0 5 (Captured {| duration := 2 |}) e2 = Ok e3
    /\ masterLoopDuration e3 = Some 0
    /\ JS.get (tracks e3) 0 = Some t
    /\ audioBuffer t = None
    /\ TouchEventData.time <$> ghostEvents t = [JS.Num (4 - 5)].
Proof.
  do 2 eexists.
  match goal with
  | |- exists e3 t, ?A /\ recordTouchEvent _ _ _ _ _ _ ?e1 = Ok ?e2 /\ _ =>
      assert (H12 : A /\ recordTouchEvent 0 100 50 1 "#fff" 4 e1 = Ok e2)
        by (split; reflexivity)
  end.
  match type of H12 with
  | _ /\ _ = Ok ?e2 =>
      destruct (C2_first_take_reads_unloaded_buffer e2 0 5 {| duration := 2 |} _
                  eq_refl eq_refl eq_refl)
        as (e3 & t & Hstop & Hget & Hm & _ & Hbuf & _ & _ & Hev & _)
  end.
  exists e3, t. destruct H12 as [H1 H2].
  split; [exact H1 |]. split; [exact H2 |]. split; [exact Hstop |].
  split; [exact Hm |]. split; [exact Hget |]. split; [exact Hbuf |].
  rewrite Hev. reflexivity.
Defined.

(** C4, as stated, fails: with the arpeggiator on, [updateNote] for a
    pointer that owns nothing registers it; and every looper operation
    given an index outside the four tracks throws. *)
Lemma C4_counterexample :
  let e0 := new_engine "t0" "t1" "t2" "t3" in
  let e := setArpEnabled true e0 in
  (voices e !! 7%Z = None /\ activeArpTouches e !! 7%Z = None
   /\ activeArpTouches (updateNote 7 (One 440) 0.8 e) !! 7%Z = Some [440]
   /\ updateNote 7 (One 440) 0.8 e <> e)
  /\ startRecording 4 e0 = TypeError
  /\ stopRecording 4 1 (Captured {| duration := 2 |}) e0 = TypeError
  /\ recordTouchEvent 4 100 50 1 "#fff" 1 e0 = TypeError
  /\ toggleTrackPlayback (-1) e0 = TypeError
  /\ setTrackVolume 4 0.5 e0 = TypeError.
Proof.
  intros e0 e.
  assert (Hreg : activeArpTouches (updateNote 7 (One 440) 0.8 e) !! 7%Z = Some [440])
    by apply lookup_insert_eq.
  split; [| repeat split].
  split; [apply lookup_empty |]. split; [apply lookup_empty |].
  split; [exact Hreg |].
  intros Heq. rewrite Heq in Hreg.
  change (activeArpTouches e) with (∅ : gmap Z (list R)) in Hreg.
  rewrite lookup_empty in Hreg. discriminate.
Qed.

(** C4, amended: for a pointer that owns neither voices nor a
    registration, [stopNote] changes nothing, and [updateNote] changes
    nothing when the arpeggiator is off; when it is on, [updateNote] adds
    the frequencies to the held notes and registers the pointer.  A looper
    operation given an index with no track throws a [TypeError] and changes
    nothing, except that [startRecording] returns unchanged when some track
    is recording.  Nothing else is raised: [updateNote] returns in either
    mode. *)
Theorem C4_unknown_ids_amended (e : AudioEngine) (p : Z) (fr : FreqArg) (vol : R) :
  voices e !! p = None -> activeArpTouches e !! p = None ->
  stopNote p e = e
  /\ (Arp.isEnabled (arpeggiator e) = false -> updateNote p fr vol e = e)
  /\ (Arp.isEnabled (arpeggiator e) = true ->
      updateNote p fr vol e
      = with_arp e (addNotes (to_freqs fr) (arpeggiator e))
          (<[p := to_freqs fr]> (activeArpTouches e)))
  /\ (forall i x y id col now cap v,
        JS.get (tracks e) i = None ->
        recordTouchEvent i x y id col now e = TypeError
        /\ stopRecording i now cap e = TypeError
        /\ toggleTrackPlayback i e = TypeError
        /\ setTrackVolume i v e = TypeError
        /\ startRecording i e = (if anyRecording e then Ok e else TypeError))
  /\ snd (updateNote_call p fr vol e) = Returns.
Proof.
  intros Hv Ha.
  split.
  { unfold stopNote. unfold Arp.getEnabled.
    destruct (Arp.isEnabled (arpeggiator e)).
    - rewrite Ha, delete_id by exact Ha. rewrite with_arp_id, Hv. reflexivity.
    - rewrite Hv. reflexivity. }
  split.
  { intros Hen. unfold updateNote, updateNote_call, Arp.getEnabled. rewrite Hen, Hv. reflexivity. }
  split.
  { intros Hen. unfold updateNote, updateNote_call, Arp.getEnabled. rewrite Hen, Ha. reflexivity. }
  split.
  { intros i x y id col now cap v Hg.
    unfold recordTouchEvent, stopRecording, toggleTrackPlayback, setTrackVolume,
      startRecording.
    rewrite Hg. repeat split. }
  unfold updateNote_call, Arp.getEnabled.
  destruct (Arp.isEnabled (arpeggiator e)); [reflexivity |]. rewrite Hv. reflexivity.
Qed.

Lemma C4_unknown_ids_amended_witness :
  stopNote 7 (new_engine "t0" "t1" "t2" "t3") = new_engine "t0" "t1" "t2" "t3"
  /\ setTrackVolume 4 0.5 (new_engine "t0" "t1" "t2" "t3") = TypeError.
Proof.
  destruct (C4_unknown_ids_amended (new_engine "t0" "t1" "t2" "t3") 7 (One 440) 0.8
              (lookup_empty _) (lookup_empty _)) as (Hstop & _ & _ & Hloop & _).
  split; [exact Hstop |].
  destruct (Hloop 4%Z 0 0 0%Z "#fff" 0 StopThrows 0.5 eq_refl) as (_ & _ & _ & H & _).
  exact H.
Defined.

End LooperFacts.

(* ===================================================================== *)
(** ** The arpeggiator: the other patterns and the held-note set *)
(* ===================================================================== *)

Section ArpPatterns.

Import Arp.

(** *** Patterns [up] and [down] *)

Section UpDownwards.

Variable a : Arpeggiator.
Variable rnds : nat -> R.
Hypothesis Hwf : wf a.
Hypothesis Hen : isEnabled a = true.
Hypothesis Hpat : pattern a = up \/ pattern a = down.
Hypothesis Hne : sortedNotes a <> [].

Let N := Z.of_nat (length (sortedNotes a)).

Lemma stepwise_N_pos : (0 < N)%Z.
Proof. unfold N. destruct (sortedNotes a); [congruence | cbn; lia]. Qed.

(** Both patterns advance the counter the same way. *)
Lemma stepwise_state k :
  let s := state_after k rnds a in
  sortedNotes s = sortedNotes a /\ isEnabled s = true /\ pattern s = pattern a
  /\ (0 <= index s)%Z
  /\ (index s mod N = (index a + Z.of_nat k) mod N)%Z.
Proof.
  pose proof stepwise_N_pos as HN.
  induction k as [| k IH]; cbv zeta.
  - cbn. destruct Hwf as (_ & _ & Hi).
    repeat split; [exact Hen | exact Hi | f_equal; lia].
  - cbv zeta in IH. destruct IH as (Hs & He & Hp & Hi & Hm).
    cbn [state_after]. unfold tick. cbv zeta. rewrite He, Hs. fold N.
    destruct (Z.eqb_spec N 0) as [H0 | _]; [lia |]. cbn [negb orb].
    assert (Hrem : Z.rem (index (state_after k rnds a)) N
                   = (index (state_after k rnds a) mod N)%Z)
      by (apply Z.rem_mod_nonneg; lia).
    pose proof (Z.mod_pos_bound (index (state_after k rnds a)) N HN) as Hb.
    assert (Hnext : ((index (state_after k rnds a) mod N + 1) mod N
                     = (index a + Z.of_nat (S k)) mod N)%Z).
    { rewrite Hm, Zplus_mod_idemp_l. f_equal. lia. }
    rewrite Hp. destruct Hpat as [Hu | Hd]; [rewrite Hu | rewrite Hd]; cbn;
      rewrite Hrem; (split; [exact Hs |]); (split; [exact He |]);
      (split; [congruence |]); (split; [lia | exact Hnext]).
Qed.

Lemma up_emission k :
  pattern a = up ->
  emission_at k rnds a
  = Single <$> sortedNotes a !! Z.to_nat ((index a + Z.of_nat k) mod N).
Proof.
  intros Hu. pose proof stepwise_N_pos as HN.
  destruct (stepwise_state k) as (Hs & He & Hp & Hi & Hm).
  unfold emission_at, tick. cbv zeta. rewrite He, Hs, Hp, Hu. fold N.
  destruct (Z.eqb_spec N 0) as [H0 | _]; [lia |]. cbn [negb orb snd].
  rewrite Z.rem_mod_nonneg, Hm by lia.
  pose proof (Z.mod_pos_bound (index a + Z.of_nat k) N HN) as Hb.
  unfold JS.get. destruct (Z.ltb_spec ((index a + Z.of_nat k) mod N) 0); [lia | reflexivity].
Qed.

Lemma down_emission k :
  pattern a = down ->
  emission_at k rnds a
  = Single <$> sortedNotes a !! Z.to_nat (N - 1 - (index a + Z.of_nat k) mod N).
Proof.
  intros Hd. pose proof stepwise_N_pos as HN.
  destruct (stepwise_state k) as (Hs & He & Hp & Hi & Hm).
  unfold emission_at, tick. cbv zeta. rewrite He, Hs, Hp, Hd. fold N.
  destruct (Z.eqb_spec N 0) as [H0 | _]; [lia |]. cbn [negb orb snd].
  rewrite Z.rem_mod_nonneg, Hm by lia.
  pose proof (Z.mod_pos_bound (index a + Z.of_nat k) N HN) as Hb.
  unfold JS.get.
  destruct (Z.ltb_spec (N - 1 - (index a + Z.of_nat k) mod N) 0); [lia | reflexivity].
Qed.

End UpDownwards.

(** In an ascending array without duplicates a later position holds a
    strictly greater value. *)
Lemma sorted_lookup_lt (l : list R) (i j : nat) (x y : R) :
  Sorted Rle l -> NoDup l -> (i < j)%nat ->
  l !! i = Some x -> l !! j = Some y -> (x < y)%R.
Proof.
  intros Hs. apply Sorted_StronglySorted in Hs; [| intros u v w; apply Rle_trans].
  revert i j. induction Hs as [| c l Hl IH Hall]; intros i j Hnd Hij Hi Hj.
  - rewrite lookup_nil in Hi. discriminate.
  - apply NoDup_cons in Hnd as [Hc Hnd].
    destruct j as [| j]; [lia |]. cbn in Hj.
    destruct i as [| i].
    + cbn in Hi. injection Hi as <-.
      assert (Hy : y ∈ l) by (eapply list_elem_of_lookup_2, Hj).
      assert (Hle : (c <= y)%R).
      { rewrite Forall_forall in Hall. apply Hall, Hy. }
      destruct (Req_dec_T c y) as [-> | Hne]; [contradiction | lra].
    + cbn in Hi. apply (IH i j); [exact Hnd | lia | exact Hi | exact Hj].
Qed.

(** X1: with the arpeggiator enabled on pattern [up] and a non-empty held
    set left alone, tick [k] emits the note at sorted position
    [(index + k) mod N], whatever the step counter started at; the
    emissions repeat with period [N], and a cycle that starts on a multiple
    of [N] emits every held note exactly once, in strictly ascending
    order. *)
Theorem X1_up_visits_ascending (a : Arpeggiator) (rnds : nat -> R) :
  wf a -> isEnabled a = true -> pattern a = up -> sortedNotes a <> [] ->
  let N := length (sortedNotes a) in
  let emitted k := emission_at k rnds a in
  (forall k, emitted k
             = Single <$> sortedNotes a
                 !! Z.to_nat ((index a + Z.of_nat k) mod Z.of_nat N))
  /\ (forall k, exists x, x ∈ sortedNotes a /\ emitted k = Some (Single x))
  /\ (forall k, emitted (k + N)%nat = emitted k)
  /\ ((index a mod Z.of_nat N = 0)%Z ->
      (forall j, (j < N)%nat -> emitted j = Single <$> sortedNotes a !! j)
      /\ (forall j j', (j < N)%nat -> (j' < N)%nat -> emitted j = emitted j' -> j = j')
      /\ (forall x, x ∈ sortedNotes a ->
            exists j, (j < N)%nat /\ emitted j = Some (Single x))
      /\ (forall j j' x y, (j < j')%nat -> (j' < N)%nat ->
            emitted j = Some (Single x) -> emitted j' = Some (Single y) ->
            (x < y)%R)).
Proof.
  intros Hwf Hen Hpat Hne N emitted.
  pose proof (stepwise_N_pos a Hne) as HN. fold N in HN.
  pose proof (wf_sorted_NoDup a Hwf) as Hnd.
  assert (Hidx : (0 <= index a)%Z) by apply Hwf.
  assert (Hem : forall k, emitted k
      = Single <$> sortedNotes a !! Z.to_nat ((index a + Z.of_nat k) mod Z.of_nat N)).
  { intros k. apply up_emission; auto. }
  assert (Hrng : forall k, (Z.to_nat ((index a + Z.of_nat k) mod Z.of_nat N) < N)%nat).
  { intros k. pose proof (Z.mod_pos_bound (index a + Z.of_nat k) (Z.of_nat N) HN). lia. }
  split; [exact Hem |].
  split.
  { intros k. rewrite Hem.
    destruct (lookup_lt_is_Some_2 (sortedNotes a) _ (Hrng k)) as [x Hx].
    exists x. rewrite Hx. split; [eapply list_elem_of_lookup_2, Hx | reflexivity]. }
  split.
  { intros k. rewrite !Hem.
    replace (index a + Z.of_nat (k + N))%Z
      with (index a + Z.of_nat k + 1 * Z.of_nat N)%Z by lia.
    rewrite Z_mod_plus_full. reflexivity. }
  intros Hal.
  assert (Hpos : forall j, (j < N)%nat ->
      Z.to_nat ((index a + Z.of_nat j) mod Z.of_nat N) = j).
  { intros j Hj. rewrite Zplus_mod, Hal, Z.add_0_l, Z.mod_mod by lia.
    rewrite Z.mod_small by lia. lia. }
  assert (Hcycle : forall j, (j < N)%nat -> emitted j = Single <$> sortedNotes a !! j).
  { intros j Hj. rewrite Hem, Hpos by exact Hj. reflexivity. }
  split; [exact Hcycle |]. split; [| split].
  - intros j j' Hj Hj' Heq. rewrite !Hcycle in Heq by assumption.
    eapply single_lookup_inj; eassumption.
  - intros x Hx. apply list_elem_of_lookup in Hx as [j Hjx].
    assert (Hj : (j < N)%nat) by (eapply lookup_lt_Some, Hjx).
    exists j. split; [exact Hj |]. rewrite Hcycle, Hjx by exact Hj. reflexivity.
  - intros j j' x y Hjj Hj' Hx Hy.
    rewrite Hcycle in Hx by lia. rewrite Hcycle in Hy by lia.
    destruct (sortedNotes a !! j) as [x0 |] eqn:Hxj; [| discriminate].
    destruct (sortedNotes a !! j') as [y0 |] eqn:Hyj; [| discriminate].
    cbn in Hx, Hy. injection Hx as ->. injection Hy as ->.
    exact (sorted_lookup_lt _ j j' x y (wf_sorted_ascending a Hwf) Hnd Hjj Hxj Hyj).
Qed.

(** X2: on pattern [down] tick [k] emits the note at sorted position
    [N - 1 - (index + k) mod N], whatever the step counter started at; the
    emissions repeat with period [N], and a cycle that starts on a multiple
    of [N] emits every held note exactly once, in strictly descending
    order. *)
Theorem X2_down_visits_descending (a : Arpeggiator) (rnds : nat -> R) :
  wf a -> isEnabled a = true -> pattern a = down -> sortedNotes a <> [] ->
  let N := length (sortedNotes a) in
  let emitted k := emission_at k rnds a in
  (forall k, emitted k
             = Single <$> sortedNotes a
                 !! Z.to_nat (Z.of_nat N - 1
                              - (index a + Z.of_nat k) mod Z.of_nat N))
  /\ (forall k, exists x, x ∈ sortedNotes a /\ emitted k = Some (Single x))
  /\ (forall k, emitted (k + N)%nat = emitted k)
  /\ ((index a mod Z.of_nat N = 0)%Z ->
      (forall j, (j < N)%nat -> emitted j = Single <$> sortedNotes a !! (N - 1 - j)%nat)
      /\ (forall j j', (j < N)%nat -> (j' < N)%nat -> emitted j = emitted j' -> j = j')
      /\ (forall x, x ∈ sortedNotes a ->
            exists j, (j < N)%nat /\ emitted j = Some (Single x))
      /\ (forall j j' x y, (j < j')%nat -> (j' < N)%nat ->
            emitted j = Some (Single x) -> emitted j' = Some (Single y) ->
            (y < x)%R)).
Proof.
  intros Hwf Hen Hpat Hne N emitted.
  pose proof (stepwise_N_pos a Hne) as HN. fold N in HN.
  pose proof (wf_sorted_NoDup a Hwf) as Hnd.
  assert (Hidx : (0 <= index a)%Z) by apply Hwf.
  assert (Hem : forall k, emitted k
      = Single <$> sortedNotes a
          !! Z.to_nat (Z.of_nat N - 1 - (index a + Z.of_nat k) mod Z.of_nat N)).
  { intros k. apply down_emission; auto. }
  assert (Hrng : forall k,
      (Z.to_nat (Z.of_nat N - 1 - (index a + Z.of_nat k) mod Z.of_nat N) < N)%nat).
  { intros k. pose proof (Z.mod_pos_bound (index a + Z.of_nat k) (Z.of_nat N) HN). lia. }
  split; [exact Hem |].
  split.
  { intros k. rewrite Hem.
    destruct (lookup_lt_is_Some_2 (sortedNotes a) _ (Hrng k)) as [x Hx].
    exists x. rewrite Hx. split; [eapply list_elem_of_lookup_2, Hx | reflexivity]. }
  split.
  { intros k. rewrite !Hem.
    replace (index a + Z.of_nat (k + N))%Z
      with (index a + Z.of_nat k + 1 * Z.of_nat N)%Z by lia.
    rewrite Z_mod_plus_full. reflexivity. }
  intros Hal.
  assert (Hpos : forall j, (j < N)%nat ->
      Z.to_nat (Z.of_nat N - 1 - (index a + Z.of_nat j) mod Z.of_nat N) = (N - 1 - j)%nat).
  { intros j Hj. rewrite Zplus_mod, Hal, Z.add_0_l, Z.mod_mod by lia.
    rewrite Z.mod_small by lia. lia. }
  assert (Hcycle : forall j, (j < N)%nat ->
      emitted j = Single <$> sortedNotes a !! (N - 1 - j)%nat).
  { intros j Hj. rewrite Hem, Hpos by exact Hj. reflexivity. }
  split; [exact Hcycle |]. split; [| split].
  - intros j j' Hj Hj' Heq. rewrite !Hcycle in Heq by assumption.
    apply single_lookup_inj in Heq; [lia | exact Hnd | lia | lia].
  - intros x Hx. apply list_elem_of_lookup in Hx as [p Hpx].
    assert (Hp : (p < N)%nat) by (eapply lookup_lt_Some, Hpx).
    exists (N - 1 - p)%nat. split; [lia |].
    rewrite Hcycle by lia. replace (N - 1 - (N - 1 - p))%nat with p by lia.
    rewrite Hpx. reflexivity.
  - intros j j' x y Hjj Hj' Hx Hy.
    rewrite Hcycle in Hx by lia. rewrite Hcycle in Hy by lia.
    destruct (sortedNotes a !! (N - 1 - j)%nat) as [x0 |] eqn:Hxj; [| discriminate].
    destruct (sortedNotes a !! (N - 1 - j')%nat) as [y0 |] eqn:Hyj; [| discriminate].
    cbn in Hx, Hy. injection Hx as ->. injection Hy as ->.
    apply (sorted_lookup_lt _ (N - 1 - j') (N - 1 - j) y x
             (wf_sorted_ascending a Hwf) Hnd); [lia | exact Hyj | exact Hxj].
Qed.

(** A pair of held notes on a given pattern, for use as a concrete state. *)
Lemma two_held_notes p :
  let a := addNote 440 (addNote 330 (setPattern p (setEnabled true new_arpeggiator))) in
  wf a /\ isEnabled a = true /\ pattern a = p /\ length (sortedNotes a) = 2%nat
  /\ activeNotes a = [330%R; 440%R].
Proof.
  intros a.
  assert (Han : activeNotes a = [330%R; 440%R]).
  { unfold a. cbn. unfold set_add.
    destruct (decide (330%R ∈ [])) as [Hin | _]; [inversion Hin |].
    cbn. destruct (decide (440%R ∈ [330%R])) as [Hin | _]; [| reflexivity].
    apply list_elem_of_singleton in Hin. lra. }
  split.
  { unfold a. apply wf_addNote, wf_addNote, wf_setPattern, wf_setEnabled, wf_new. }
  split; [reflexivity |]. split; [reflexivity |]. split; [| exact Han].
  change (sortedNotes a) with (sort_ascending (activeNotes a)).
  rewrite sort_ascending_length, Han. reflexivity.
Qed.

Lemma nonempty_of_length {A} (l : list A) n : length l = S n -> l <> [].
Proof. intros H ->. discriminate. Qed.

Lemma X1_up_visits_ascending_witness :
  let a := addNote 440 (addNote 330 (setPattern up (setEnabled true new_arpeggiator))) in
  emission_at (1 + length (sortedNotes a)) (fun _ => 0%R) a
  = emission_at 1 (fun _ => 0%R) a.
Proof.
  intros a. destruct (two_held_notes up) as (Hwf & Hen & Hpat & Hlen & _).
  destruct (X1_up_visits_ascending a (fun _ => 0%R) Hwf Hen Hpat
              (nonempty_of_length _ _ Hlen)) as (_ & _ & H & _).
  exact (H 1%nat).
Defined.

Lemma X2_down_visits_descending_witness :
  let a := addNote 440 (addNote 330 (setPattern down (setEnabled true new_arpeggiator))) in
  emission_at (1 + length (sortedNotes a)) (fun _ => 0%R) a
  = emission_at 1 (fun _ => 0%R) a.
Proof.
  intros a. destruct (two_held_notes down) as (Hwf & Hen & Hpat & Hlen & _).
  destruct (X2_down_visits_descending a (fun _ => 0%R) Hwf Hen Hpat
              (nonempty_of_length _ _ Hlen)) as (_ & _ & H & _).
  exact (H 1%nat).
Defined.

(** *** Patterns [chord] and [random]; silence *)

Lemma get_in_range {A} (l : list A) (i : Z) :
  (0 <= i < Z.of_nat (length l))%Z -> exists x, JS.get l i = Some x /\ x ∈ l.
Proof.
  intros Hi. unfold JS.get. destruct (Z.ltb_spec i 0) as [Hneg | _]; [lia |].
  destruct (lookup_lt_is_Some_2 l (Z.to_nat i) ltac:(lia)) as [x Hx].
  exists x. split; [exact Hx | eapply list_elem_of_lookup_2, Hx].
Qed.

(** [Math.floor(Math.random() * length)] is a valid index. *)
Lemma random_index_range (rnd : R) (n : Z) :
  (0 <= rnd < 1)%R -> (0 < n)%Z -> (0 <= JS.floor (rnd * IZR n) < n)%Z.
Proof.
  intros Hr Hn. assert (HnR : (0 < IZR n)%R) by (apply (IZR_lt 0 n); lia).
  pose proof (Zfloor_bound (rnd * IZR n)) as [Hlo Hhi]. unfold JS.floor.
  split.
  - apply Zfloor_lub. simpl (IZR 0). nra.
  - apply lt_IZR. nra.
Qed.

(** X3: on pattern [chord] every tick hands the callback the whole sorted
    held set as one group and changes nothing; the group has no duplicates,
    is in ascending order and holds exactly the frequencies of the set. *)
Theorem X3_chord_emits_whole_set (a : Arpeggiator) (rnds : nat -> R) :
  wf a -> isEnabled a = true -> pattern a = chord -> sortedNotes a <> [] ->
  (forall k, state_after k rnds a = a
             /\ emission_at k rnds a = Some (Chord (sortedNotes a)))
  /\ NoDup (sortedNotes a) /\ Sorted Rle (sortedNotes a)
  /\ (forall f, f ∈ sortedNotes a <-> f ∈ activeNotes a).
Proof.
  intros Hwf Hen Hpat Hne.
  assert (Htick : forall rnd, tick rnd a = (a, Some (Chord (sortedNotes a)))).
  { intros rnd. unfold tick. cbv zeta. rewrite Hen, Hpat.
    destruct (Z.eqb_spec (Z.of_nat (length (sortedNotes a))) 0) as [H0 | _];
      [| reflexivity].
    destruct (sortedNotes a); [congruence | discriminate]. }
  assert (Hstate : forall k, state_after k rnds a = a).
  { induction k as [| k IH]; [reflexivity |].
    cbn [state_after]. rewrite IH, Htick. reflexivity. }
  split.
  { intros k. split; [apply Hstate |]. unfold emission_at.
    rewrite Hstate, Htick. reflexivity. }
  split; [apply wf_sorted_NoDup, Hwf |]. split; [apply wf_sorted_ascending, Hwf |].
  intros f. destruct Hwf as (_ & -> & _). unfold sort_ascending.
  rewrite merge_sort_Permutation. reflexivity.
Qed.

Lemma X3_chord_emits_whole_set_witness :
  let a := addNote 440 (addNote 330 (setPattern chord (setEnabled true new_arpeggiator))) in
  emission_at 2 (fun _ => 0%R) a = Some (Chord (sortedNotes a)).
Proof.
  intros a. destruct (two_held_notes chord) as (Hwf & Hen & Hpat & Hlen & _).
  destruct (X3_chord_emits_whole_set a (fun _ => 0%R) Hwf Hen Hpat
              (nonempty_of_length _ _ Hlen)) as (H & _).
  apply (H 2%nat).
Defined.

(** X4: on pattern [random], as long as [Math.random()] returns a value in
    [[0, 1)], every tick emits one held note, the one at position
    [floor(random * N)], and leaves the arpeggiator (its step counter
    included) unchanged. *)
Theorem X4_random_emits_held_note (a : Arpeggiator) (rnds : nat -> R) :
  isEnabled a = true -> pattern a = random -> sortedNotes a <> [] ->
  (forall k, (0 <= rnds k < 1)%R) ->
  forall k,
    state_after k rnds a = a
    /\ exists x, x ∈ sortedNotes a
         /\ JS.get (sortedNotes a)
              (JS.floor (rnds k * IZR (Z.of_nat (length (sortedNotes a))))) = Some x
         /\ emission_at k rnds a = Some (Single x).
Proof.
  intros Hen Hpat Hne Hrnd.
  assert (HN : (0 < Z.of_nat (length (sortedNotes a)))%Z)
    by (destruct (sortedNotes a); [congruence | cbn; lia]).
  assert (Htick : forall rnd, tick rnd a
      = (a, Single <$> JS.get (sortedNotes a)
                         (JS.floor (rnd * IZR (Z.of_nat (length (sortedNotes a))))))).
  { intros rnd. unfold tick. cbv zeta. rewrite Hen, Hpat.
    destruct (Z.eqb_spec (Z.of_nat (length (sortedNotes a))) 0) as [H0 | _];
      [lia | reflexivity]. }
  assert (Hstate : forall k, state_after k rnds a = a).
  { induction k as [| k IH]; [reflexivity |].
    cbn [state_after]. rewrite IH, Htick. reflexivity. }
  intros k. split; [apply Hstate |].
  destruct (get_in_range (sortedNotes a) _ (random_index_range _ _ (Hrnd k) HN))
    as (x & Hget & Hin).
  exists x. split; [exact Hin |]. split; [exact Hget |].
  unfold emission_at. rewrite Hstate, Htick, Hget. reflexivity.
Qed.

Lemma X4_random_emits_held_note_witness :
  let a := addNote 440 (addNote 330 (setPattern random (setEnabled true new_arpeggiator))) in
  state_after 3 (fun _ => (/ 2)%R) a = a.
Proof.
  intros a. destruct (two_held_notes random) as (_ & Hen & Hpat & Hlen & _).
  apply (X4_random_emits_held_note a (fun _ => (/ 2)%R) Hen Hpat
           (nonempty_of_length _ _ Hlen)).
  intros k. lra.
Defined.

Lemma tick_silent rnd a :
  isEnabled a = false \/ sortedNotes a = [] -> tick rnd a = (a, None).
Proof.
  intros [Hd | He]; unfold tick; cbv zeta.
  - rewrite Hd. reflexivity.
  - rewrite He. cbn. rewrite orb_true_r. reflexivity.
Qed.

Lemma tick_emits rnd a :
  wf a -> (0 <= rnd < 1)%R -> isEnabled a = true -> sortedNotes a <> [] ->
  exists em, snd (tick rnd a) = Some em.
Proof.
  intros (_ & _ & Hidx) Hrnd Hen Hne.
  assert (HN : (0 < Z.of_nat (length (sortedNotes a)))%Z)
    by (destruct (sortedNotes a); [congruence | cbn; lia]).
  set (N := Z.of_nat (length (sortedNotes a))) in *.
  assert (Hread : forall i (s : Arpeggiator), (0 <= i < N)%Z ->
            exists em, snd (s, Single <$> JS.get (sortedNotes a) i) = Some em).
  { intros i s Hi. destruct (get_in_range _ _ Hi) as (x & -> & _).
    eexists. reflexivity. }
  unfold tick. cbv zeta. rewrite Hen. fold N.
  destruct (Z.eqb_spec N 0) as [H0 | _]; [lia |]. cbn [negb orb].
  pose proof (Z.rem_bound_pos (index a) N Hidx HN) as Hrem.
  destruct (pattern a).
  - apply Hread. exact Hrem.
  - apply Hread. lia.
  - destruct (Z.eqb_spec N 1) as [H1 | Hn1].
    + apply Hread. lia.
    + apply Hread. apply upDown_position_spec; lia.
  - apply Hread. apply random_index_range; assumption.
  - eexists. reflexivity.
Qed.

(** X5: a tick is silent exactly when the arpeggiator is disabled or holds
    no note, and a silent tick changes nothing: whatever the pattern and
    the step counter, an enabled arpeggiator with a held note always finds
    a note to emit. *)
Theorem X5_tick_silent_iff (a : Arpeggiator) (rnd : R) :
  wf a -> (0 <= rnd < 1)%R ->
  (snd (tick rnd a) = None <-> isEnabled a = false \/ sortedNotes a = [])
  /\ (snd (tick rnd a) = None -> fst (tick rnd a) = a).
Proof.
  intros Hwf Hrnd.
  assert (Hiff : snd (tick rnd a) = None <-> isEnabled a = false \/ sortedNotes a = []).
  { split.
    - intros Hnone. destruct (isEnabled a) eqn:Hen; [| left; reflexivity].
      destruct (sortedNotes a) as [| x l] eqn:Hl; [right; reflexivity |].
      destruct (tick_emits rnd a Hwf Hrnd Hen) as [em Hem]; [rewrite Hl; discriminate |].
      congruence.
    - intros H. rewrite (tick_silent rnd a H). reflexivity. }
  split; [exact Hiff |].
  intros Hnone. apply Hiff in Hnone. rewrite (tick_silent rnd a Hnone). reflexivity.
Qed.

Lemma X5_tick_silent_iff_witness :
  snd (tick (/ 2) (setEnabled false new_arpeggiator)) = None.
Proof.
  destruct (X5_tick_silent_iff (setEnabled false new_arpeggiator) (/ 2)
              (wf_setEnabled false _ wf_new) ltac:(lra)) as [H _].
  apply H. left. reflexivity.
Defined.

(** *** The held-note set *)

Lemma set_delete_absent f s : f ∉ s -> set_delete f s = s.
Proof.
  intros Hf. unfold set_delete. induction s as [| x s IH]; [reflexivity |].
  apply not_elem_of_cons in Hf as [Hne Hf].
  rewrite filter_cons_True by congruence. rewrite IH by exact Hf. reflexivity.
Qed.

Lemma set_delete_add f s : f ∉ s -> set_delete f (set_add f s) = s.
Proof.
  intros Hf. unfold set_add. destruct (decide (f ∈ s)); [contradiction |].
  unfold set_delete. rewrite filter_app. fold (set_delete f s).
  rewrite set_delete_absent by exact Hf.
  rewrite filter_cons_False by (intros H; apply H; reflexivity).
  apply app_nil_r.
Qed.

Lemma wf_eta a an :
  wf a -> an = activeNotes a ->
  {| activeNotes := an; sortedNotes := sort_ascending an; pattern := pattern a;
     rate := rate a; index := index a; isEnabled := isEnabled a |} = a.
Proof. intros (_ & Hs & _) ->. destruct a; cbn in *. rewrite Hs. reflexivity. Qed.

(** X6: the held notes behave as a set.  Adding a frequency twice is the
    same as adding it once; adding a held frequency or removing one that is
    not held changes nothing; and removing a frequency just added to a set
    that did not hold it restores the arpeggiator exactly. *)
Theorem X6_held_notes_are_a_set (a : Arpeggiator) (f : R) :
  wf a ->
  addNote f (addNote f a) = addNote f a
  /\ (f ∈ activeNotes a -> addNote f a = a)
  /\ (f ∉ activeNotes a -> removeNote f a = a)
  /\ (f ∉ activeNotes a -> removeNote f (addNote f a) = a)
  /\ f ∈ sortedNotes (addNote f a)
  /\ f ∉ sortedNotes (removeNote f a).
Proof.
  intros Hwf.
  assert (Hidem : set_add f (set_add f (activeNotes a)) = set_add f (activeNotes a)).
  { unfold set_add at 1. destruct (decide (f ∈ set_add f (activeNotes a))) as [_ | Hn];
      [reflexivity |].
    exfalso. apply Hn. unfold set_add.
    destruct (decide (f ∈ activeNotes a)) as [Hin | _]; [exact Hin |].
    apply elem_of_app. right. apply list_elem_of_singleton. reflexivity. }
  split.
  { unfold addNote, updateSortedNotes, with_notes. cbn. rewrite Hidem. reflexivity. }
  split.
  { intros Hin. unfold addNote, updateSortedNotes, with_notes. cbn.
    apply wf_eta; [exact Hwf |]. unfold set_add.
    destruct (decide (f ∈ activeNotes a)); [reflexivity | contradiction]. }
  split.
  { intros Hnin. unfold removeNote, updateSortedNotes, with_notes. cbn.
    apply wf_eta; [exact Hwf | apply set_delete_absent, Hnin]. }
  split.
  { intros Hnin. unfold removeNote, addNote, updateSortedNotes, with_notes. cbn.
    apply wf_eta; [exact Hwf | apply set_delete_add, Hnin]. }
  split.
  - cbn. unfold sort_ascending. rewrite merge_sort_Permutation.
    unfold set_add. destruct (decide (f ∈ activeNotes a)) as [Hin | _]; [exact Hin |].
    apply elem_of_app. right. apply list_elem_of_singleton. reflexivity.
  - cbn. unfold sort_ascending. rewrite merge_sort_Permutation.
    unfold set_delete. rewrite list_elem_of_filter. intros [Hne _]. apply Hne. reflexivity.
Qed.

Lemma X6_held_notes_are_a_set_witness :
  removeNote 440 (addNote 440 new_arpeggiator) = new_arpeggiator.
Proof.
  destruct (X6_held_notes_are_a_set new_arpeggiator 440 wf_new) as (_ & _ & _ & H & _).
  apply H. cbn. apply not_elem_of_nil.
Defined.

(** X7: after [addNote] or [removeNote] the array the patterns read is in
    ascending order without duplicates, and holds exactly the previous
    frequencies plus, respectively minus, the given one. *)
Theorem X7_sortedNotes_tracks_set (a : Arpeggiator) (f : R) :
  wf a ->
  (Sorted Rle (sortedNotes (addNote f a)) /\ NoDup (sortedNotes (addNote f a))
   /\ forall g, g ∈ sortedNotes (addNote f a) <-> g = f \/ g ∈ sortedNotes a)
  /\ (Sorted Rle (sortedNotes (removeNote f a)) /\ NoDup (sortedNotes (removeNote f a))
      /\ forall g, g ∈ sortedNotes (removeNote f a) <-> g <> f /\ g ∈ sortedNotes a)
  /\ length (sortedNotes (addNote f a))
     = (if decide (f ∈ sortedNotes a) then length (sortedNotes a)
        else S (length (sortedNotes a))).
Proof.
  intros Hwf.
  assert (Hmem : forall g, g ∈ sortedNotes a <-> g ∈ activeNotes a).
  { intros g. destruct Hwf as (_ & -> & _). unfold sort_ascending.
    rewrite merge_sort_Permutation. reflexivity. }
  split.
  { split; [apply wf_sorted_ascending, wf_addNote, Hwf |].
    split; [apply wf_sorted_NoDup, wf_addNote, Hwf |].
    intros g. rewrite Hmem. cbn. unfold sort_ascending. rewrite merge_sort_Permutation.
    unfold set_add. destruct (decide (f ∈ activeNotes a)) as [Hin | Hnin].
    - split; [intros H; right; exact H | intros [-> | H]; assumption].
    - rewrite elem_of_app, list_elem_of_singleton. tauto. }
  split.
  { split; [apply wf_sorted_ascending, wf_removeNote, Hwf |].
    split; [apply wf_sorted_NoDup, wf_removeNote, Hwf |].
    intros g. rewrite Hmem. cbn. unfold sort_ascending. rewrite merge_sort_Permutation.
    unfold set_delete. rewrite list_elem_of_filter. reflexivity. }
  cbn. rewrite sort_ascending_length.
  assert (Hlen : length (sortedNotes a) = length (activeNotes a)).
  { destruct Hwf as (_ & -> & _). apply sort_ascending_length. }
  unfold set_add.
  destruct (decide (f ∈ activeNotes a)) as [Hin | Hnin];
    destruct (decide (f ∈ sortedNotes a)) as [Hin' | Hnin'].
  - exact (eq_sym Hlen).
  - exfalso. apply Hnin', Hmem, Hin.
  - exfalso. apply Hnin, Hmem, Hin'.
  - rewrite length_app. cbn. lia.
Qed.

Lemma X7_sortedNotes_tracks_set_witness :
  NoDup (sortedNotes (addNote 440 (addNote 440 new_arpeggiator))).
Proof.
  destruct (X7_sortedNotes_tracks_set (addNote 440 new_arpeggiator) 440
              (wf_addNote 440 _ wf_new)) as ((_ & H & _) & _).
  exact H.
Defined.

(** X8: every operation of the arpeggiator keeps its two containers in
    step: the set stays duplicate-free, the array stays the ascending sort
    of the set, and the step counter never becomes negative. *)
Theorem X8_arpeggiator_invariant (a : Arpeggiator) :
  wf a ->
  (forall b, wf (setEnabled b a))
  /\ (forall r, wf (setRate r a))
  /\ (forall p, wf (setPattern p a))
  /\ (forall f, wf (addNote f a))
  /\ (forall f, wf (removeNote f a))
  /\ wf (clear a)
  /\ (forall rnd, wf (fst (tick rnd a)))
  /\ (forall k rnds, wf (state_after k rnds a)).
Proof.
  intros Hwf.
  split; [intros b; apply wf_setEnabled, Hwf |].
  split; [intros r; apply wf_setRate, Hwf |].
  split; [intros p; apply wf_setPattern, Hwf |].
  split; [intros f; apply wf_addNote, Hwf |].
  split; [intros f; apply wf_removeNote, Hwf |].
  split; [apply wf_clear, Hwf |].
  split; [intros rnd; apply wf_tick, Hwf |].
  intros k rnds. induction k as [| k IH]; [exact Hwf |].
  cbn [state_after]. apply wf_tick, IH.
Qed.

Lemma X8_arpeggiator_invariant_witness :
  wf (fst (tick 0 (addNote 440 new_arpeggiator))).
Proof.
  destruct (X8_arpeggiator_invariant (addNote 440 new_arpeggiator)
              (wf_addNote 440 _ wf_new)) as (_ & _ & _ & _ & _ & _ & H & _).
  apply H.
Defined.

End ArpPatterns.

(* ===================================================================== *)
(** ** Voices and registrations: further properties *)
(* ===================================================================== *)

Section VoiceExtras.

Import Engine.

Lemma addNote_mem g f a :
  g ∈ Arp.activeNotes (Arp.addNote f a) <-> g = f \/ g ∈ Arp.activeNotes a.
Proof.
  cbn. unfold Arp.set_add. destruct (decide (f ∈ Arp.activeNotes a)) as [Hin | Hnin].
  - split; [intros H; right; exact H | intros [-> | H]; assumption].
  - rewrite elem_of_app, list_elem_of_singleton. tauto.
Qed.

Lemma removeNote_mem g f a :
  g ∈ Arp.activeNotes (Arp.removeNote f a) <-> g <> f /\ g ∈ Arp.activeNotes a.
Proof. cbn. unfold Arp.set_delete. rewrite list_elem_of_filter. reflexivity. Qed.

Lemma addNotes_mem fs g a :
  g ∈ Arp.activeNotes (addNotes fs a) <-> g ∈ fs \/ g ∈ Arp.activeNotes a.
Proof.
  revert a. induction fs as [| f fs IH]; intros a.
  - cbn. split.
    + intros H. right. exact H.
    + intros [H | H]; [inversion H | exact H].
  - change (addNotes (f :: fs) a) with (addNotes fs (Arp.addNote f a)).
    rewrite IH, addNote_mem, elem_of_cons. tauto.
Qed.

Lemma removeNotes_mem fs g a :
  g ∈ Arp.activeNotes (removeNotes fs a) <-> (g ∉ fs) /\ g ∈ Arp.activeNotes a.
Proof.
  revert a. induction fs as [| f fs IH]; intros a.
  - cbn. split; [intros H; split; [apply not_elem_of_nil | exact H] | intros [_ H]; exact H].
  - change (removeNotes (f :: fs) a) with (removeNotes fs (Arp.removeNote f a)).
    rewrite IH, removeNote_mem, not_elem_of_cons. tauto.
Qed.

Lemma addNotes_wf fs a : Arp.wf a -> Arp.wf (addNotes fs a).
Proof.
  revert a. induction fs as [| f fs IH]; intros a Hwf; [exact Hwf |].
  change (addNotes (f :: fs) a) with (addNotes fs (Arp.addNote f a)).
  apply IH, wf_addNote, Hwf.
Qed.

Lemma removeNotes_wf fs a : Arp.wf a -> Arp.wf (removeNotes fs a).
Proof.
  revert a. induction fs as [| f fs IH]; intros a Hwf; [exact Hwf |].
  change (removeNotes (f :: fs) a) with (removeNotes fs (Arp.removeNote f a)).
  apply IH, wf_removeNote, Hwf.
Qed.

Lemma setNote_returns f vol v :
  vtype v <> pluck -> setNote f vol v = (retuned f vol v, Returns).
Proof. unfold setNote, retuned. destruct (vtype v); congruence. Qed.

Lemma setNote_throws f vol v :
  vtype v = pluck ->
  setNote f vol v = ({| vtype := vtype v; frequency := f; gain := gain v |}, Throws).
Proof. unfold setNote. intros ->. reflexivity. Qed.

Lemma setNote_vtype f vol v : vtype (fst (setNote f vol v)) = vtype v.
Proof. unfold setNote. destruct (vtype v); reflexivity. Qed.

Lemma setNotes_vtypes vs fs vol : vtype <$> fst (setNotes vs fs vol) = vtype <$> vs.
Proof.
  revert fs. induction vs as [| v vs IH]; intros fs; [reflexivity |].
  destruct fs as [| f fs]; [reflexivity |]. cbn [setNotes].
  destruct (snd (setNote f vol v)); cbn; rewrite setNote_vtype, ?IH; reflexivity.
Qed.

Lemma setNotes_length vs fs vol : length (fst (setNotes vs fs vol)) = length vs.
Proof.
  rewrite <- (length_fmap vtype), setNotes_vtypes. apply length_fmap.
Qed.

(** When no voice that gets a frequency is a pluck voice, the loop runs to
    its end. *)
Lemma setNotes_returns vs fs vol :
  (forall i v, (i < length fs)%nat -> vs !! i = Some v -> vtype v <> pluck) ->
  snd (setNotes vs fs vol) = Returns
  /\ forall i, fst (setNotes vs fs vol) !! i
       = match fs !! i with
         | Some f => retuned f vol <$> vs !! i
         | None => vs !! i
         end.
Proof.
  revert fs. induction vs as [| v vs IH]; intros fs Hok.
  - split; [destruct fs; reflexivity |].
    intros i. cbn. destruct (fs !! i); reflexivity.
  - destruct fs as [| f fs]; [split; [reflexivity | intros i; reflexivity] |].
    cbn [setNotes].
    rewrite (setNote_returns f vol v) by (apply (Hok 0%nat); [cbn; lia | reflexivity]).
    cbn [fst snd].
    destruct (IH fs) as [Hret Hlk].
    { intros i w Hi Hw. apply (Hok (S i)); [cbn; lia | exact Hw]. }
    split; [exact Hret |].
    intros [| i]; [reflexivity | cbn; apply Hlk].
Qed.

(** At the first pluck voice that gets a frequency the loop is abandoned:
    the voices before it are retuned, its own frequency field is written
    and its gain is not, and the voices after it are not visited. *)
Lemma setNotes_throws vs fs vol j vj f :
  vs !! j = Some vj -> fs !! j = Some f -> vtype vj = pluck ->
  (forall i v, (i < j)%nat -> vs !! i = Some v -> vtype v <> pluck) ->
  snd (setNotes vs fs vol) = Throws
  /\ fst (setNotes vs fs vol) !! j
     = Some {| vtype := vtype vj; frequency := f; gain := gain vj |}
  /\ (forall i, (j < i)%nat -> fst (setNotes vs fs vol) !! i = vs !! i)
  /\ (forall i v g, (i < j)%nat -> vs !! i = Some v -> fs !! i = Some g ->
        fst (setNotes vs fs vol) !! i = Some (retuned g vol v)).
Proof.
  revert fs j. induction vs as [| v vs IH]; intros fs j Hvj Hfj Hpl Hbefore.
  - rewrite lookup_nil in Hvj. discriminate.
  - destruct fs as [| f0 fs]; [rewrite lookup_nil in Hfj; discriminate |].
    cbn [setNotes]. destruct j as [| j].
    + cbn in Hvj, Hfj. injection Hvj as ->. injection Hfj as ->.
      rewrite (setNote_throws f vol vj Hpl). cbn [fst snd].
      split; [reflexivity |]. split; [reflexivity |].
      split; [intros [| i] Hi; [lia | reflexivity] | intros i w g Hi; lia].
    + cbn in Hvj, Hfj.
      rewrite (setNote_returns f0 vol v)
        by (apply (Hbefore 0%nat); [lia | reflexivity]).
      cbn [fst snd].
      destruct (IH fs j Hvj Hfj Hpl) as (Hthr & Hat & Hafter & Hbef).
      { intros i w Hi Hw. apply (Hbefore (S i)); [lia | exact Hw]. }
      split; [exact Hthr |]. split; [exact Hat |].
      split.
      * intros [| i] Hi; [lia |]. cbn. apply Hafter. lia.
      * intros [| i] w g Hi Hw Hg.
        { cbn in Hw, Hg. injection Hw as ->. injection Hg as ->. reflexivity. }
        cbn in Hw, Hg |- *. apply (Hbef i w g); [lia | exact Hw | exact Hg].
Qed.

(** X9: with the arpeggiator off, [startNote] for a pointer that already
    owns voices allocates nothing: it does what [updateNote] does and ends
    the way [updateNote] ends; the pointer keeps the same number of voices,
    nothing is released and no other pointer is touched.  In particular
    two [startNote] calls for a fresh pointer leave as many voices as the
    first call's frequencies. *)
Theorem X9_startNote_existing_pointer (e : AudioEngine) (p : Z)
    (vs : list Voice) (fr : FreqArg) (vol : R) :
  Arp.isEnabled (arpeggiator e) = false -> voices e !! p = Some vs ->
  let e' := startNote p fr vol e in
  startNote_call p fr vol e = updateNote_call p fr vol e
  /\ voices e' !! p = Some (fst (setNotes vs (to_freqs fr) vol))
  /\ length (fst (setNotes vs (to_freqs fr) vol)) = length vs
  /\ dom (voices e') = dom (voices e)
  /\ releasedVoices e' = releasedVoices e
  /\ (forall q, q <> p -> voices e' !! q = voices e !! q)
  /\ arpeggiator e' = arpeggiator e /\ activeArpTouches e' = activeArpTouches e.
Proof.
  intros Hen Hv e'.
  assert (He' : e' = with_voices e
                       (<[p := fst (setNotes vs (to_freqs fr) vol)]> (voices e))
                       (releasedVoices e)).
  { unfold e', startNote, startNote_call. rewrite Hv.
    unfold updateNote_call, Arp.getEnabled. rewrite Hen, Hv. reflexivity. }
  split; [unfold startNote_call; rewrite Hv; reflexivity |].
  rewrite He'. cbn.
  split; [apply lookup_insert_eq |].
  split; [apply setNotes_length |].
  split.
  { rewrite dom_insert_L. apply subseteq_union_1_L, singleton_subseteq_l.
    eapply elem_of_dom_2, Hv. }
  split; [reflexivity |].
  split; [intros q Hq; apply lookup_insert_ne; congruence |].
  split; reflexivity.
Qed.

Lemma X9_startNote_existing_pointer_witness :
  let e := startNote 1 (One 440) 0.8 (new_engine "t0" "t1" "t2" "t3") in
  voices (startNote 1 (One 330) 0.5 e) !! 1%Z
  = Some [{| vtype := sine; frequency := 330; gain := 0.5 |}]
  /\ startNote_call 1 (One 330) 0.5 e = updateNote_call 1 (One 330) 0.5 e.
Proof.
  intros e.
  destruct (X9_startNote_existing_pointer e 1 [attack sine 440 0.8] (One 330) 0.5
              eq_refl (lookup_insert_eq _ _ _)) as (H0 & H & _).
  split; [exact H | exact H0].
Defined.

(** X10: with the arpeggiator off, [updateNote] visits the pointer's
    voices in order, giving voice [i] frequency [i] while there is one; the
    number of voices and each voice's synth type never change and nothing
    is released.  When none of the voices visited is a pluck voice the call
    returns, each visited voice has the new frequency and the given volume,
    and the voices without a frequency are left alone.  At the first pluck
    voice visited the call throws: the voices before it are retuned, its
    own frequency field is written but its gain is not, and the voices
    after it are not touched. *)
Theorem X10_updateNote_count_mismatch (e : AudioEngine) (p : Z)
    (vs : list Voice) (fr : FreqArg) (vol : R) :
  Arp.isEnabled (arpeggiator e) = false -> voices e !! p = Some vs ->
  exists vs',
    voices (updateNote p fr vol e) !! p = Some vs'
    /\ length vs' = length vs
    /\ (forall i v', vs' !! i = Some v' ->
          exists v, vs !! i = Some v /\ vtype v' = vtype v)
    /\ releasedVoices (updateNote p fr vol e) = releasedVoices e
    /\ ((forall i v, (i < length (to_freqs fr))%nat -> vs !! i = Some v ->
           vtype v <> pluck) ->
        snd (updateNote_call p fr vol e) = Returns
        /\ forall i v, vs !! i = Some v ->
             vs' !! i = Some (match to_freqs fr !! i with
                              | Some f => {| vtype := vtype v; frequency := f;
                                             gain := vol |}
                              | None => v
                              end))
    /\ (forall j vj f,
          vs !! j = Some vj -> to_freqs fr !! j = Some f -> vtype vj = pluck ->
          (forall i v, (i < j)%nat -> vs !! i = Some v -> vtype v <> pluck) ->
          snd (updateNote_call p fr vol e) = Throws
          /\ vs' !! j = Some {| vtype := pluck; frequency := f; gain := gain vj |}
          /\ (forall i, (j < i)%nat -> vs' !! i = vs !! i)
          /\ (forall i v g, (i < j)%nat -> vs !! i = Some v ->
                to_freqs fr !! i = Some g ->
                vs' !! i = Some {| vtype := vtype v; frequency := g; gain := vol |})).
Proof.
  intros Hen Hv. exists (fst (setNotes vs (to_freqs fr) vol)).
  assert (Hcall : updateNote_call p fr vol e
                  = (with_voices e
                       (<[p := fst (setNotes vs (to_freqs fr) vol)]> (voices e))
                       (releasedVoices e),
                     snd (setNotes vs (to_freqs fr) vol))).
  { unfold updateNote_call, Arp.getEnabled. rewrite Hen, Hv. reflexivity. }
  unfold updateNote. rewrite Hcall. cbn [fst snd voices releasedVoices with_voices].
  split; [apply lookup_insert_eq |].
  split; [apply setNotes_length |].
  split.
  { intros i v' Hi.
    pose proof (setNotes_vtypes vs (to_freqs fr) vol) as Hty.
    apply (f_equal (fun l => l !! i)) in Hty.
    rewrite !list_lookup_fmap, Hi in Hty. cbn in Hty.
    destruct (vs !! i) as [v |]; [| discriminate].
    exists v. split; [reflexivity |]. cbn in Hty. congruence. }
  split; [reflexivity |].
  split.
  - intros Hok. destruct (setNotes_returns vs (to_freqs fr) vol Hok) as [Hret Hlk].
    split; [exact Hret |].
    intros i v Hi. rewrite Hlk, Hi. destruct (to_freqs fr !! i); reflexivity.
  - intros j vj f Hj Hf Hpl Hbefore.
    destruct (setNotes_throws vs (to_freqs fr) vol j vj f Hj Hf Hpl Hbefore)
      as (Hthr & Hat & Hafter & Hbef).
    split; [exact Hthr |].
    split; [rewrite Hat, Hpl; reflexivity |].
    split; [exact Hafter | exact Hbef].
Qed.

Lemma X10_updateNote_count_mismatch_witness :
  let e := startNote 1 (Many [440; 550]%R) 0.8
             (setVoiceType pluck (new_engine "t0" "t1" "t2" "t3")) in
  exists vs',
    voices (updateNote 1 (Many [330; 660]%R) 0.5 e) !! 1%Z = Some vs'
    /\ snd (updateNote_call 1 (Many [330; 660]%R) 0.5 e) = Throws
    /\ vs' !! 0%nat = Some {| vtype := pluck; frequency := 330; gain := 0.8 |}
    /\ vs' !! 1%nat = Some (attack pluck 550 0.8).
Proof.
  intros e.
  destruct (X10_updateNote_count_mismatch e 1
              [attack pluck 440 0.8; attack pluck 550 0.8] (Many [330; 660]%R) 0.5
              eq_refl (lookup_insert_eq _ _ _)) as (vs' & H1 & _ & _ & _ & _ & H2).
  destruct (H2 0%nat (attack pluck 440 0.8) 330%R eq_refl eq_refl eq_refl
              ltac:(intros i v Hi; lia)) as (Hthr & H0 & Hafter & _).
  exists vs'. split; [exact H1 |]. split; [exact Hthr |]. split; [exact H0 |].
  rewrite (Hafter 1%nat) by lia. reflexivity.
Defined.

(** X11: with the arpeggiator off, starting a note on a pointer that owns
    nothing and then stopping it restores the voice map exactly; the only
    trace is that the voices started, one per frequency, are in the release
    log. *)
Theorem X11_start_stop_round_trip (e : AudioEngine) (p : Z) (fr : FreqArg) (vol : R) :
  Arp.isEnabled (arpeggiator e) = false -> voices e !! p = None ->
  let started := (fun f => attack (currentVoiceType e) f vol) <$> to_freqs fr in
  voices (startNote p fr vol e) !! p = Some started
  /\ length started = length (to_freqs fr)
  /\ stopNote p (startNote p fr vol e)
     = with_voices e (voices e) (rev started ++ releasedVoices e).
Proof.
  intros Hen Hv started.
  assert (Hs : startNote p fr vol e
               = with_voices e (<[p := started]> (voices e)) (releasedVoices e)).
  { unfold startNote, startNote_call, Arp.getEnabled. rewrite Hv, Hen. reflexivity. }
  split; [rewrite Hs; apply lookup_insert_eq |].
  split; [apply length_fmap |].
  rewrite Hs. unfold stopNote, Arp.getEnabled. cbn. rewrite Hen.
  cbn. rewrite lookup_insert_eq. cbn.
  rewrite delete_insert_eq, delete_id by exact Hv. reflexivity.
Qed.

Lemma X11_start_stop_round_trip_witness :
  voices (stopNote 1 (startNote 1 (One 440) 0.8 (new_engine "t0" "t1" "t2" "t3")))
  = voices (new_engine "t0" "t1" "t2" "t3").
Proof.
  destruct (X11_start_stop_round_trip (new_engine "t0" "t1" "t2" "t3") 1 (One 440) 0.8
              eq_refl (lookup_empty _)) as (_ & _ & H).
  rewrite H. reflexivity.
Defined.

Lemma stopNote_clears p e :
  voices (stopNote p e) !! p = None
  /\ (Arp.isEnabled (arpeggiator e) = true -> activeArpTouches (stopNote p e) !! p = None)
  /\ Arp.isEnabled (arpeggiator (stopNote p e)) = Arp.isEnabled (arpeggiator e).
Proof.
  unfold stopNote, Arp.getEnabled.
  destruct (Arp.isEnabled (arpeggiator e)) eqn:Hen.
  - cbn. destruct (voices e !! p) eqn:Hv; cbn.
    + split; [apply lookup_delete_eq |]. split; [intros _; apply lookup_delete_eq |].
      destruct (activeArpTouches e !! p); rewrite ?removeNotes_enabled; exact Hen.
    + split; [exact Hv |]. split; [intros _; apply lookup_delete_eq |].
      destruct (activeArpTouches e !! p); rewrite ?removeNotes_enabled; exact Hen.
  - destruct (voices e !! p) eqn:Hv; cbn.
    + split; [apply lookup_delete_eq |]. split; [discriminate | exact Hen].
    + split; [exact Hv |]. split; [discriminate | exact Hen].
Qed.

Lemma stopNote_unknown p e :
  voices e !! p = None ->
  (Arp.isEnabled (arpeggiator e) = true -> activeArpTouches e !! p = None) ->
  stopNote p e = e.
Proof.
  intros Hv Ha. unfold stopNote, Arp.getEnabled.
  destruct (Arp.isEnabled (arpeggiator e)).
  - rewrite (Ha eq_refl), delete_id by exact (Ha eq_refl).
    rewrite with_arp_id, Hv. reflexivity.
  - rewrite Hv. reflexivity.
Qed.

(** X12: [stopNote] is idempotent in either mode: a second [stopNote] for
    the same pointer changes nothing, releases nothing and removes nothing
    from the held notes. *)
Theorem X12_stopNote_idempotent (e : AudioEngine) (p : Z) :
  stopNote p (stopNote p e) = stopNote p e.
Proof.
  destruct (stopNote_clears p e) as (Hv & Ha & Hen).
  apply stopNote_unknown; [exact Hv |].
  intros H. apply Ha. rewrite <- Hen. exact H.
Qed.

(** X13: the note operations on one pointer never change what another
    pointer owns: its voices and its arpeggiator registration stay as they
    are. *)
Theorem X13_pointers_are_isolated (e : AudioEngine) (p q : Z) (fr : FreqArg) (vol : R) :
  q <> p ->
  (voices (startNote p fr vol e) !! q = voices e !! q
   /\ activeArpTouches (startNote p fr vol e) !! q = activeArpTouches e !! q)
  /\ (voices (updateNote p fr vol e) !! q = voices e !! q
      /\ activeArpTouches (updateNote p fr vol e) !! q = activeArpTouches e !! q)
  /\ (voices (stopNote p e) !! q = voices e !! q
      /\ activeArpTouches (stopNote p e) !! q = activeArpTouches e !! q).
Proof.
  intros Hq.
  assert (Hupd : voices (updateNote p fr vol e) !! q = voices e !! q
                 /\ activeArpTouches (updateNote p fr vol e) !! q
                    = activeArpTouches e !! q).
  { unfold updateNote, updateNote_call, Arp.getEnabled.
    destruct (Arp.isEnabled (arpeggiator e)).
    - cbn. split; [reflexivity | apply lookup_insert_ne; congruence].
    - destruct (voices e !! p); cbn;
        (split; [try reflexivity; apply lookup_insert_ne; congruence | reflexivity]). }
  split.
  { unfold startNote, startNote_call. destruct (voices e !! p) eqn:Hv; [exact Hupd |].
    unfold Arp.getEnabled. destruct (Arp.isEnabled (arpeggiator e)); cbn.
    - split; [reflexivity | apply lookup_insert_ne; congruence].
    - split; [apply lookup_insert_ne; congruence | reflexivity]. }
  split; [exact Hupd |].
  unfold stopNote, Arp.getEnabled.
  destruct (Arp.isEnabled (arpeggiator e)); cbn;
    destruct (voices e !! p); cbn;
    (split; [try reflexivity; apply lookup_delete_ne; congruence
            | try reflexivity; apply lookup_delete_ne; congruence]).
Qed.

Lemma X13_pointers_are_isolated_witness :
  let e := startNote 1 (One 440) 0.8 (new_engine "t0" "t1" "t2" "t3") in
  voices (stopNote 2 e) !! 1%Z = voices e !! 1%Z.
Proof.
  intros e.
  destruct (X13_pointers_are_isolated e 2 1 (One 440) 0.8 ltac:(lia))
    as (_ & _ & H & _).
  exact H.
Defined.

Lemma stopNote_arp e p :
  arpeggiator (stopNote p e)
  = (if Arp.isEnabled (arpeggiator e)
     then match activeArpTouches e !! p with
          | Some oldFreqs => removeNotes oldFreqs (arpeggiator e)
          | None => arpeggiator e
          end
     else arpeggiator e)
  /\ activeArpTouches (stopNote p e)
     = (if Arp.isEnabled (arpeggiator e) then delete p (activeArpTouches e)
        else activeArpTouches e).
Proof.
  unfold stopNote, Arp.getEnabled.
  destruct (Arp.isEnabled (arpeggiator e)); cbn;
    destruct (voices e !! p); split; reflexivity.
Qed.

(** X14: with the arpeggiator on, lifting a pointer removes every
    frequency of its registration from the held notes, whether or not
    another pointer registered the same frequency; the other registrations
    themselves stay. *)
Theorem X14_stopNote_drops_shared_frequencies (e : AudioEngine) (p : Z) (fs : list R) :
  Arp.isEnabled (arpeggiator e) = true -> activeArpTouches e !! p = Some fs ->
  (forall g, g ∈ heldNotes (stopNote p e) <-> (g ∉ fs) /\ g ∈ heldNotes e)
  /\ activeArpTouches (stopNote p e) !! p = None
  /\ (forall q gs f, q <> p -> activeArpTouches e !! q = Some gs -> f ∈ gs -> f ∈ fs ->
        activeArpTouches (stopNote p e) !! q = Some gs
        /\ f ∉ heldNotes (stopNote p e)).
Proof.
  intros Hen Ht. unfold heldNotes. destruct (stopNote_arp e p) as [Harp Hmap].
  rewrite Hen, Ht in Harp. rewrite Hen in Hmap.
  assert (Hheld : forall g, g ∈ Arp.activeNotes (arpeggiator (stopNote p e))
                            <-> (g ∉ fs) /\ g ∈ Arp.activeNotes (arpeggiator e)).
  { intros g. rewrite Harp. apply removeNotes_mem. }
  split; [exact Hheld |].
  split; [rewrite Hmap; apply lookup_delete_eq |].
  intros q gs f Hq Hgs Hf Hfs. split.
  - rewrite Hmap, lookup_delete_ne by congruence. exact Hgs.
  - rewrite Hheld. intros [Hn _]. contradiction.
Qed.

Lemma X14_stopNote_drops_shared_frequencies_witness :
  let e0 := setArpEnabled true (new_engine "t0" "t1" "t2" "t3") in
  let e := startNote 2 (One 440) 0.8 (startNote 1 (One 440) 0.8 e0) in
  activeArpTouches (stopNote 1 e) !! 2%Z = Some [440%R] /\ 440%R ∉ heldNotes (stopNote 1 e).
Proof.
  intros e0 e.
  assert (H1 : activeArpTouches e !! 1%Z = Some [440%R]) by reflexivity.
  assert (H2 : activeArpTouches e !! 2%Z = Some [440%R]) by reflexivity.
  assert (Hen : Arp.isEnabled (arpeggiator e) = true) by reflexivity.
  destruct (X14_stopNote_drops_shared_frequencies e 1 [440%R] Hen H1) as (_ & _ & H).
  apply (H 2%Z [440%R] 440%R ltac:(lia) H2);
    apply list_elem_of_singleton; reflexivity.
Defined.

(** X15: with the arpeggiator on, [startNote] for a pointer that is
    already registered adds the new frequencies without removing the old
    ones and overwrites the registration; lifting the pointer then removes
    only the latest frequencies, so a frequency of an earlier call that the
    last call did not repeat stays held. *)
Theorem X15_startNote_accumulates_held_notes (e : AudioEngine) (p : Z)
    (fr1 fr2 : FreqArg) (vol1 vol2 : R) :
  Arp.isEnabled (arpeggiator e) = true -> voices e !! p = None ->
  let e2 := startNote p fr2 vol2 (startNote p fr1 vol1 e) in
  let e3 := stopNote p e2 in
  voices e2 = voices e
  /\ activeArpTouches e2 !! p = Some (to_freqs fr2)
  /\ (forall g, g ∈ heldNotes e2 <-> g ∈ to_freqs fr2 \/ g ∈ to_freqs fr1 \/ g ∈ heldNotes e)
  /\ activeArpTouches e3 !! p = None
  /\ (forall g, g ∈ heldNotes e3
                <-> (g ∉ to_freqs fr2) /\ (g ∈ to_freqs fr1 \/ g ∈ heldNotes e)).
Proof.
  intros Hen Hv e2 e3. unfold heldNotes.
  assert (H1 : startNote p fr1 vol1 e
               = with_arp e (addNotes (to_freqs fr1) (arpeggiator e))
                   (<[p := to_freqs fr1]> (activeArpTouches e))).
  { unfold startNote, startNote_call, Arp.getEnabled. rewrite Hv, Hen. reflexivity. }
  assert (H2 : e2 = with_arp e
                      (addNotes (to_freqs fr2) (addNotes (to_freqs fr1) (arpeggiator e)))
                      (<[p := to_freqs fr2]> (<[p := to_freqs fr1]> (activeArpTouches e)))).
  { unfold e2. rewrite H1. unfold startNote, startNote_call, Arp.getEnabled. cbn.
    rewrite Hv, addNotes_enabled, Hen. reflexivity. }
  assert (Hheld2 : forall g, g ∈ Arp.activeNotes (arpeggiator e2)
                             <-> g ∈ to_freqs fr2 \/ g ∈ to_freqs fr1
                                 \/ g ∈ Arp.activeNotes (arpeggiator e)).
  { intros g. rewrite H2. cbn. rewrite !addNotes_mem. reflexivity. }
  assert (Ht2 : activeArpTouches e2 !! p = Some (to_freqs fr2))
    by (rewrite H2; apply lookup_insert_eq).
  assert (Hen2 : Arp.isEnabled (arpeggiator e2) = true)
    by (rewrite H2; cbn; rewrite !addNotes_enabled; exact Hen).
  split; [rewrite H2; reflexivity |].
  split; [exact Ht2 |]. split; [exact Hheld2 |].
  destruct (stopNote_arp e2 p) as [Harp Hmap]. rewrite Hen2, Ht2 in Harp.
  rewrite Hen2 in Hmap. fold e3 in Harp, Hmap.
  split; [rewrite Hmap; apply lookup_delete_eq |].
  intros g. rewrite Harp, removeNotes_mem, Hheld2. tauto.
Qed.

Lemma X15_startNote_accumulates_held_notes_witness :
  let e := setArpEnabled true (new_engine "t0" "t1" "t2" "t3") in
  440%R ∈ heldNotes (stopNote 1 (startNote 1 (One 450) 0.8 (startNote 1 (One 440) 0.8 e))).
Proof.
  intros e.
  destruct (X15_startNote_accumulates_held_notes e 1 (One 440) (One 450) 0.8 0.8
              eq_refl (lookup_empty _)) as (_ & _ & _ & _ & H).
  apply H. split.
  - intros Hin. apply list_elem_of_singleton in Hin. lra.
  - left. apply list_elem_of_singleton. reflexivity.
Defined.

(** X16: with the arpeggiator on, [updateNote] replaces: afterwards the
    held notes are the new frequencies together with the previously held
    ones that were not in the pointer's old registration, and the
    registration is the new frequency list.  Voices are not touched. *)
Theorem X16_updateNote_replaces_registration (e : AudioEngine) (p : Z)
    (fr : FreqArg) (vol : R) :
  Arp.isEnabled (arpeggiator e) = true ->
  let old := default [] (activeArpTouches e !! p) in
  let e' := updateNote p fr vol e in
  (forall g, g ∈ heldNotes e' <-> g ∈ to_freqs fr \/ (g ∈ heldNotes e /\ g ∉ old))
  /\ activeArpTouches e' !! p = Some (to_freqs fr)
  /\ voices e' = voices e /\ releasedVoices e' = releasedVoices e.
Proof.
  intros Hen old e'. unfold heldNotes, e', updateNote, updateNote_call, Arp.getEnabled. rewrite Hen. cbn.
  split.
  { intros g. rewrite addNotes_mem. unfold old.
    destruct (activeArpTouches e !! p) as [fs |]; cbn.
    - rewrite removeNotes_mem. tauto.
    - split; [intros [H | H]; [left; exact H | right; split; [exact H | apply not_elem_of_nil]]
             | tauto]. }
  split; [apply lookup_insert_eq |]. split; reflexivity.
Qed.

Lemma X16_updateNote_replaces_registration_witness :
  let e := startNote 1 (One 440) 0.8 (setArpEnabled true (new_engine "t0" "t1" "t2" "t3")) in
  activeArpTouches (updateNote 1 (One 450) 0.8 e) !! 1%Z = Some [450%R].
Proof.
  intros e.
  assert (Hen : Arp.isEnabled (arpeggiator e) = true) by reflexivity.
  destruct (X16_updateNote_replaces_registration e 1 (One 450) 0.8 Hen) as (_ & H & _).
  exact H.
Defined.

Lemma elem_of_rev {A} (x : A) (l : list A) : x ∈ rev l <-> x ∈ l.
Proof. rewrite !list_elem_of_In. symmetry. apply in_rev. Qed.

Lemma all_voices_mem (m : gmap Z (list Voice)) v :
  v ∈ all_voices m <-> exists p vs, m !! p = Some vs /\ v ∈ vs.
Proof.
  unfold all_voices. rewrite list_elem_of_In, in_concat. split.
  - intros (vs & Hvs & Hv). apply list_elem_of_In in Hvs.
    apply list_elem_of_fmap in Hvs as ([p vs'] & -> & Hp).
    apply elem_of_map_to_list in Hp.
    exists p, vs'. split; [exact Hp | apply list_elem_of_In, Hv].
  - intros (p & vs & Hp & Hv). exists vs. split; [| apply list_elem_of_In, Hv].
    apply list_elem_of_In, list_elem_of_fmap. exists (p, vs).
    split; [reflexivity | apply elem_of_map_to_list, Hp].
Qed.

(** X17: [releaseAll] empties the voice map and releases exactly the
    voices that were mapped; it leaves the arpeggiator's held notes, the
    pointer registrations and the tracks alone, and a second call does
    nothing.  [setVoiceType] does the same and makes every later voice of
    the new type. *)
Theorem X17_releaseAll (e : AudioEngine) :
  voices (releaseAll e) = ∅
  /\ (forall v, v ∈ releasedVoices (releaseAll e)
        <-> (exists p vs, voices e !! p = Some vs /\ v ∈ vs) \/ v ∈ releasedVoices e)
  /\ arpeggiator (releaseAll e) = arpeggiator e
  /\ activeArpTouches (releaseAll e) = activeArpTouches e
  /\ tracks (releaseAll e) = tracks e
  /\ releaseAll (releaseAll e) = releaseAll e
  /\ (forall t, voices (setVoiceType t e) = ∅
        /\ currentVoiceType (setVoiceType t e) = t
        /\ releasedVoices (setVoiceType t e) = releasedVoices (releaseAll e)
        /\ forall p fr vol, Arp.isEnabled (arpeggiator e) = false ->
             voices (startNote p fr vol (setVoiceType t e)) !! p
             = Some ((fun f => attack t f vol) <$> to_freqs fr)).
Proof.
  split; [reflexivity |].
  split.
  { intros v. cbn. rewrite elem_of_app, elem_of_rev, all_voices_mem. reflexivity. }
  split; [reflexivity |]. split; [reflexivity |]. split; [reflexivity |].
  split.
  { unfold releaseAll. cbn. unfold all_voices. rewrite map_to_list_empty. reflexivity. }
  intros t. split; [reflexivity |]. split; [reflexivity |]. split; [reflexivity |].
  intros p fr vol Hen. unfold startNote, startNote_call, Arp.getEnabled. cbn.
  rewrite lookup_empty, Hen. cbn. apply lookup_insert_eq.
Qed.

Lemma X17_releaseAll_witness :
  voices (startNote 1 (One 440) 0.8
            (setVoiceType fmsynth (new_engine "t0" "t1" "t2" "t3"))) !! 1%Z
  = Some [attack fmsynth 440 0.8].
Proof.
  destruct (X17_releaseAll (new_engine "t0" "t1" "t2" "t3"))
    as (_ & _ & _ & _ & _ & _ & H).
  destruct (H fmsynth) as (_ & _ & _ & Hstart).
  apply (Hstart 1%Z (One 440%R) 0.8%R eq_refl).
Defined.

(** X18: switching the arpeggiator off and on again forgets the held notes
    but not the pointer registrations: until a registered pointer moves
    the clock ticks are silent, and its next [updateNote] holds exactly the
    new frequencies. *)
Theorem X18_arp_toggle_forgets_held_notes (e : AudioEngine) :
  let e' := setArpEnabled true (setArpEnabled false e) in
  heldNotes e' = [] /\ Arp.sortedNotes (arpeggiator e') = []
  /\ activeArpTouches e' = activeArpTouches e
  /\ (forall rnd, Arp.tick rnd (arpeggiator e') = (arpeggiator e', None))
  /\ (forall p fr vol g, g ∈ heldNotes (updateNote p fr vol e') <-> g ∈ to_freqs fr).
Proof.
  intros e'. split; [reflexivity |]. split; [reflexivity |]. split; [reflexivity |].
  split; [intros rnd; apply tick_silent; right; reflexivity |].
  intros p fr vol g. unfold heldNotes, updateNote, updateNote_call, Arp.getEnabled. cbn.
  rewrite addNotes_mem.
  destruct (activeArpTouches e !! p) as [fs |].
  - rewrite removeNotes_mem. cbn. split; [intros [H | [_ H]]; [exact H | inversion H] | tauto].
  - cbn. split; [intros [H | H]; [exact H | inversion H] | tauto].
Qed.

(** X19: the engine never breaks the arpeggiator's invariant: starting
    from an engine whose arpeggiator has its containers in step, every
    voice operation leaves them in step, so the pattern properties apply to
    every state the engine reaches. *)
Theorem X19_engine_keeps_arpeggiator_invariant (e : AudioEngine) :
  Arp.wf (arpeggiator e) ->
  (forall p fr vol, Arp.wf (arpeggiator (startNote p fr vol e)))
  /\ (forall p fr vol, Arp.wf (arpeggiator (updateNote p fr vol e)))
  /\ (forall p, Arp.wf (arpeggiator (stopNote p e)))
  /\ (forall b, Arp.wf (arpeggiator (setArpEnabled b e)))
  /\ Arp.wf (arpeggiator (releaseAll e))
  /\ (forall t, Arp.wf (arpeggiator (setVoiceType t e))).
Proof.
  intros Hwf.
  assert (Hupd : forall p fr vol, Arp.wf (arpeggiator (updateNote p fr vol e))).
  { intros p fr vol. unfold updateNote, updateNote_call, Arp.getEnabled.
    destruct (Arp.isEnabled (arpeggiator e)); cbn.
    - apply addNotes_wf. destruct (activeArpTouches e !! p);
        [apply removeNotes_wf, Hwf | exact Hwf].
    - destruct (voices e !! p); exact Hwf. }
  split.
  { intros p fr vol. unfold startNote, startNote_call. destruct (voices e !! p); [apply Hupd |].
    unfold Arp.getEnabled. destruct (Arp.isEnabled (arpeggiator e)); cbn;
      [apply addNotes_wf, Hwf | exact Hwf]. }
  split; [exact Hupd |].
  split.
  { intros p. destruct (stopNote_arp e p) as [-> _].
    destruct (Arp.isEnabled (arpeggiator e)); [| exact Hwf].
    destruct (activeArpTouches e !! p); [apply removeNotes_wf, Hwf | exact Hwf]. }
  split; [intros b; apply wf_setEnabled, Hwf |].
  split; [exact Hwf | intros t; exact Hwf].
Qed.

Lemma X19_engine_keeps_arpeggiator_invariant_witness :
  Arp.wf (arpeggiator (startNote 1 (One 440) 0.8
                         (setArpEnabled true (new_engine "t0" "t1" "t2" "t3")))).
Proof.
  destruct (X19_engine_keeps_arpeggiator_invariant
              (setArpEnabled true (new_engine "t0" "t1" "t2" "t3"))
              (wf_setEnabled true _ wf_new)) as (H & _).
  apply H.
Defined.

End VoiceExtras.

(* ===================================================================== *)
(** ** The looper: invariants and compositions *)
(* ===================================================================== *)

Section LooperExtras.

Import Engine Engine.LoopTrack.
Local Open Scope R_scope.

(** The number of tracks carrying the recording flag. *)
Let recording (l : list LoopTrack.t) : nat :=
  length (filter (fun t => isRecording t = true) l).

Lemma recording_insert (l : list LoopTrack.t) (i : nat) (t t' : LoopTrack.t) :
  l !! i = Some t ->
  (recording (<[i := t']> l) + (if isRecording t then 1 else 0)
   = recording l + (if isRecording t' then 1 else 0))%nat.
Proof.
  intros Hl. unfold recording.
  rewrite <- (take_drop_middle l i t Hl) at 2.
  rewrite insert_take_drop by (eapply lookup_lt_Some, Hl).
  rewrite !filter_app, !length_app.
  rewrite (filter_cons _ t'), (filter_cons _ t).
  destruct (decide (isRecording t' = true)) as [Ht' | Ht'];
    destruct (decide (isRecording t = true)) as [Ht | Ht];
    destruct (isRecording t), (isRecording t'); try congruence; cbn; lia.
Qed.

Lemma recording_none e : anyRecording e = false -> recording (tracks e) = 0%nat.
Proof.
  unfold anyRecording, recording. induction (tracks e) as [| t l IH]; [reflexivity |].
  cbn [existsb]. intros H. apply orb_false_elim in H as [Ht Hl].
  rewrite filter_cons_False by congruence. apply IH, Hl.
Qed.

Lemma recording_cleared (f : LoopTrack.t -> LoopTrack.t) l :
  (forall t, isRecording (f t) = false) -> recording (f <$> l) = 0%nat.
Proof.
  intros Hf. unfold recording. induction l as [| t l IH]; [reflexivity |].
  cbn [fmap list_fmap]. rewrite filter_cons_False by (rewrite Hf; discriminate).
  exact IH.
Qed.

(** Relates the count after writing a track back to the count before;
    [flag] is the recording flag of the track written. *)
Ltac count_written t Hl flag :=
  match goal with
  | |- (length (filter _ (<[_ := ?t']> _)) <= 1)%nat =>
      let Hcnt := fresh "Hcnt" in
      let Hf := fresh "Hf" in
      pose proof (recording_insert _ _ t t' Hl) as Hcnt;
      unfold recording in Hcnt;
      assert (Hf : isRecording t' = flag)
        by (try destruct (masterLoopDuration _); reflexivity);
      rewrite Hf in Hcnt
  end.

(** X20: "prevent multiple recordings" is an invariant: if at most one
    track is recording, then after any looper call that returns at most one
    track is recording; a fresh engine has none. *)
Theorem X20_at_most_one_recording (c : LooperCall) (e e' : AudioEngine) :
  at_most_one_recording e -> looper_call c e = Ok e' ->
  at_most_one_recording e'.
Proof.
  unfold at_most_one_recording.
  intros Hinv Hcall. destruct c as [i | i now cap | i x y id col now | i | i vol |]; cbn in Hcall.
  - unfold startRecording in Hcall.
    destruct (anyRecording e) eqn:Hany; [injection Hcall as <-; exact Hinv |].
    destruct (JS.get (tracks e) i) as [t |] eqn:Hg; [| discriminate].
    injection Hcall as <-. cbn [tracks with_looper]. unfold set_track.
    destruct (get_Some _ _ _ Hg) as [_ Hl].
    pose proof (recording_none e Hany) as H0. unfold recording in H0.
    count_written t Hl true. rewrite H0 in Hcnt. destruct (isRecording t); lia.
  - unfold stopRecording in Hcall.
    destruct (JS.get (tracks e) i) as [t |] eqn:Hg; [| discriminate].
    destruct (get_Some _ _ _ Hg) as [_ Hl].
    destruct (isRecording t) eqn:Hrec; cbn [negb] in Hcall;
      [| injection Hcall as <-; exact Hinv].
    destruct cap as [| b]; cbv zeta in Hcall; injection Hcall as <-;
      cbn [tracks with_looper]; unfold set_track;
      count_written t Hl false; rewrite Hrec in Hcnt; lia.
  - unfold recordTouchEvent in Hcall.
    destruct (JS.get (tracks e) i) as [t |] eqn:Hg; [| discriminate].
    destruct (get_Some _ _ _ Hg) as [_ Hl].
    destruct (isRecording t) eqn:Hrec; injection Hcall as <-; [| exact Hinv].
    cbn [tracks with_looper]. unfold set_track.
    count_written t Hl true. rewrite Hrec in Hcnt. lia.
  - unfold toggleTrackPlayback in Hcall.
    destruct (JS.get (tracks e) i) as [t |] eqn:Hg; [| discriminate].
    destruct (get_Some _ _ _ Hg) as [_ Hl].
    destruct (isPlaying t); cbn [ToneBuffer.truthy] in Hcall;
      injection Hcall as <-;
      cbn [tracks with_looper]; unfold set_track;
      count_written t Hl (isRecording t); destruct (isRecording t); lia.
  - unfold setTrackVolume in Hcall.
    destruct (JS.get (tracks e) i) as [t |] eqn:Hg; [| discriminate].
    destruct (get_Some _ _ _ Hg) as [_ Hl].
    injection Hcall as <-. cbn [tracks with_looper]. unfold set_track.
    count_written t Hl (isRecording t). destruct (isRecording t); lia.
  - injection Hcall as <-.
    pose proof (recording_cleared
                  (fun t => {| id := id t; player := Player.fresh; volumeNode := volumeNode t;
                               audioBuffer := None; ghostEvents := []; isRecording := false;
                               isPlaying := false; color := color t |})
                  (tracks e) ltac:(reflexivity)) as H0.
    unfold recording in H0. unfold clearAllLoops. cbn [tracks with_looper].
    rewrite H0. lia.
Qed.

Lemma at_most_one_recording_new u0 u1 u2 u3 :
  at_most_one_recording (new_engine u0 u1 u2 u3).
Proof.
  unfold at_most_one_recording.
  change (tracks (new_engine u0 u1 u2 u3))
    with [new_track u0 "#00f0ff"; new_track u1 "#ff0055";
          new_track u2 "#ccff00"; new_track u3 "#aa00ff"].
  rewrite !filter_cons_False by (cbn; discriminate).
  rewrite filter_nil. cbn. lia.
Qed.

Lemma X20_at_most_one_recording_witness :
  exists e', startRecording 1 (new_engine "t0" "t1" "t2" "t3") = Ok e'
             /\ at_most_one_recording e'.
Proof.
  eexists. split; [reflexivity |].
  apply (X20_at_most_one_recording (CallStartRecording 1)
           (new_engine "t0" "t1" "t2" "t3"));
    [apply at_most_one_recording_new | reflexivity].
Defined.

(** What a looper call that returns can have done: nothing, cleared every
    track, or written back one track, keeping the loop length or, on the
    first take whose [recorder.stop()] resolved, setting it to zero. *)
Lemma looper_call_cases (c : LooperCall) (e e' : AudioEngine) :
  looper_call c e = Ok e' ->
  e' = e
  \/ (c = CallClearAllLoops /\ e' = clearAllLoops e)
  \/ exists i t t' rec m tr,
       JS.get (tracks e) i = Some t
       /\ e' = with_looper e (set_track e i t') rec m tr
       /\ id t' = id t /\ color t' = color t
       /\ ((m = masterLoopDuration e /\ tr = transport e)
           \/ (exists now b, c = CallStopRecording i now (Captured b)
                 /\ isRecording t = true
                 /\ masterLoopDuration e = None /\ m = Some 0
                 /\ Transport.loop tr = true /\ Transport.loopStart tr = 0
                 /\ Transport.loopEnd tr = 0)
           \/ (exists m0, masterLoopDuration e = Some m0 /\ m = Some m0
                 /\ Transport.loop tr = Transport.loop (transport e)
                 /\ Transport.loopStart tr = Transport.loopStart (transport e)
                 /\ Transport.loopEnd tr = Transport.loopEnd (transport e))).
Proof.
  intros Hcall.
  destruct c as [i | i now cap | i x y id0 col now | i | i vol |]; cbn in Hcall.
  - unfold startRecording in Hcall.
    destruct (anyRecording e); [injection Hcall as <-; left; reflexivity |].
    destruct (JS.get (tracks e) i) as [t |] eqn:Hg; [| discriminate].
    injection Hcall as <-. right. right. exists i, t. do 4 eexists.
    split; [exact Hg |]. split; [reflexivity |].
    split; [reflexivity |]. split; [reflexivity |]. left. split; reflexivity.
  - unfold stopRecording in Hcall.
    destruct (JS.get (tracks e) i) as [t |] eqn:Hg; [| discriminate].
    destruct (isRecording t) eqn:Hrec; cbn [negb] in Hcall;
      [| injection Hcall as <-; left; reflexivity].
    destruct cap as [| b]; cbv zeta in Hcall; injection Hcall as <-;
      right; right; exists i, t; do 4 eexists;
      (split; [exact Hg |]); (split; [reflexivity |]).
    + split; [reflexivity |]. split; [reflexivity |]. left. split; reflexivity.
    + split; [destruct (masterLoopDuration e); reflexivity |].
      split; [destruct (masterLoopDuration e); reflexivity |].
      right. destruct (masterLoopDuration e) as [m0 |] eqn:Hm.
      * right. exists m0. repeat split.
      * left. exists now, b. repeat split; exact Hrec.
  - unfold recordTouchEvent in Hcall.
    destruct (JS.get (tracks e) i) as [t |] eqn:Hg; [| discriminate].
    destruct (isRecording t); injection Hcall as <-; [| left; reflexivity].
    right. right. exists i, t. do 4 eexists.
    split; [exact Hg |]. split; [reflexivity |].
    split; [reflexivity |]. split; [reflexivity |]. left. split; reflexivity.
  - unfold toggleTrackPlayback in Hcall.
    destruct (JS.get (tracks e) i) as [t |] eqn:Hg; [| discriminate].
    destruct (isPlaying t); cbn [ToneBuffer.truthy] in Hcall;
      injection Hcall as <-;
      right; right; exists i, t; do 4 eexists;
      (split; [exact Hg |]); (split; [reflexivity |]);
      (split; [reflexivity |]); (split; [reflexivity |]); left; split; reflexivity.
  - unfold setTrackVolume in Hcall.
    destruct (JS.get (tracks e) i) as [t |] eqn:Hg; [| discriminate].
    injection Hcall as <-. right. right. exists i, t. do 4 eexists.
    split; [exact Hg |]. split; [reflexivity |].
    split; [reflexivity |]. split; [reflexivity |]. left. split; reflexivity.
  - injection Hcall as <-. right. left. split; reflexivity.
Qed.

(** X21: the loop length is fixed once, and always to zero.  A looper
    call other than [clearAllLoops] never changes a loop length that is
    set; a loop length appears only through a [stopRecording] on a
    recording track whose [recorder.stop()] resolved, and it is then [0]
    whatever was recorded; [clearAllLoops] unsets it.  Hence on every state
    reached from a new engine the loop length is unset or zero. *)
Theorem X21_loop_length_fixed_once (c : LooperCall) (e e' : AudioEngine) :
  looper_call c e = Ok e' ->
  (c <> CallClearAllLoops ->
     forall m, masterLoopDuration e = Some m -> masterLoopDuration e' = Some m)
  /\ (masterLoopDuration e = None ->
        forall d, masterLoopDuration e' = Some d ->
          d = 0
          /\ exists i now b t,
               c = CallStopRecording i now (Captured b)
               /\ JS.get (tracks e) i = Some t /\ isRecording t = true)
  /\ (c = CallClearAllLoops -> masterLoopDuration e' = None)
  /\ (loop_length_zero e -> loop_length_zero e').
Proof.
  intros Hcall.
  assert (Hclear : c = CallClearAllLoops -> masterLoopDuration e' = None).
  { intros ->. cbn in Hcall. injection Hcall as <-. reflexivity. }
  assert (Hkeep : c <> CallClearAllLoops ->
            forall m, masterLoopDuration e = Some m -> masterLoopDuration e' = Some m).
  { intros Hc m0 Hm0.
    destruct (looper_call_cases c e e' Hcall)
      as [-> | [[-> ->] | (i & t & t' & rec & m & tr & Hg & -> & _ & _ & Hm)]].
    + exact Hm0.
    + congruence.
    + cbn [masterLoopDuration with_looper].
      destruct Hm as [[-> _] | [(now & b & -> & _ & Hn & -> & _) | (m1 & Hs & -> & _)]];
        congruence. }
  assert (Hset : masterLoopDuration e = None ->
            forall d, masterLoopDuration e' = Some d ->
              d = 0
              /\ exists i now b t,
                   c = CallStopRecording i now (Captured b)
                   /\ JS.get (tracks e) i = Some t /\ isRecording t = true).
  { intros Hn d Hd.
    destruct (looper_call_cases c e e' Hcall)
      as [-> | [[-> ->] | (i & t & t' & rec & m & tr & Hg & -> & _ & _ & Hm)]].
    + congruence.
    + discriminate.
    + cbn [masterLoopDuration with_looper] in Hd.
      destruct Hm as [[-> _] | [(now & b & -> & Hrec & _ & -> & _) | (m1 & Hs & -> & _)]].
      * congruence.
      * injection Hd as <-. split; [reflexivity |].
        exists i, now, b, t. split; [reflexivity |]. split; assumption.
      * congruence. }
  split; [exact Hkeep |]. split; [exact Hset |]. split; [exact Hclear |].
  intros [Hn | Hz].
  - destruct (masterLoopDuration e') as [d |] eqn:Hd; [| left; exact Hd].
    destruct (Hset Hn d eq_refl) as [-> _]. right. exact Hd.
  - destruct c;
      try (right; apply Hkeep; [discriminate | exact Hz]).
    left. apply Hclear. reflexivity.
Qed.

Lemma loop_length_zero_new u0 u1 u2 u3 : loop_length_zero (new_engine u0 u1 u2 u3).
Proof. left. reflexivity. Qed.

Lemma X21_loop_length_fixed_once_witness :
  exists e1 e2 e3,
    startRecording 0 (new_engine "t0" "t1" "t2" "t3") = Ok e1
    /\ stopRecording 0 5 (Captured {| duration := 2 |}) e1 = Ok e2
    /\ startRecording 1 e2 = Ok e3
    /\ masterLoopDuration e2 = Some 0
    /\ masterLoopDuration e3 = Some 0.
Proof.
  do 3 eexists. split; [reflexivity |]. split; [reflexivity |]. split; [reflexivity |].
  split; [reflexivity |].
  match goal with
  | |- masterLoopDuration (with_looper ?e2 _ _ _ _) = _ =>
      apply (proj1 (X21_loop_length_fixed_once (CallStartRecording 1) e2 _ eq_refl));
        [discriminate | reflexivity]
  end.
Defined.

(** X22: whenever a loop length is set the transport loops over exactly
    [[0, loop length]]: this holds for a fresh engine and every looper call
    keeps it. *)
Theorem X22_transport_loops_over_loop_length (c : LooperCall) (e e' : AudioEngine) :
  loop_armed e -> looper_call c e = Ok e' -> loop_armed e'.
Proof.
  intros Harm Hcall.
  destruct (looper_call_cases c e e' Hcall)
    as [-> | [[-> ->] | (i & t & t' & rec & m & tr & Hg & -> & _ & _ & Hm)]].
  - exact Harm.
  - intros m Hm. discriminate.
  - intros m1 Hm1. cbn [masterLoopDuration transport with_looper] in *.
    destruct Hm as [[-> ->] | [(now & b & -> & _ & Hn & -> & Hl & Hs & He)
                              | (m0 & Hs & -> & Hl & Hst & He)]].
    + apply Harm, Hm1.
    + injection Hm1 as <-. repeat split; assumption.
    + injection Hm1 as <-. destruct (Harm m0 Hs) as (H1 & H2 & H3).
      rewrite Hl, Hst, He. repeat split; assumption.
Qed.

Lemma loop_armed_new u0 u1 u2 u3 : loop_armed (new_engine u0 u1 u2 u3).
Proof. intros m Hm. discriminate. Qed.

Lemma X22_transport_loops_over_loop_length_witness :
  exists e1 e2,
    startRecording 0 (new_engine "t0" "t1" "t2" "t3") = Ok e1
    /\ stopRecording 0 5 (Captured {| duration := 2 |}) e1 = Ok e2
    /\ loop_armed e2.
Proof.
  do 2 eexists. split; [reflexivity |]. split; [reflexivity |].
  match goal with
  | |- loop_armed (with_looper ?e1 _ _ _ _) =>
      apply (X22_transport_loops_over_loop_length
               (CallStopRecording 0 5 (Captured {| duration := 2 |})) e1);
        [| reflexivity]
  end.
  apply (X22_transport_loops_over_loop_length (CallStartRecording 0)
           (new_engine "t0" "t1" "t2" "t3"));
    [apply loop_armed_new | reflexivity].
Defined.

(** X23: no looper call creates, drops, reorders or renames a track: the
    list of track ids and colors is the same before and after, and so is
    the number of tracks. *)
Theorem X23_tracks_keep_identity (c : LooperCall) (e e' : AudioEngine) :
  looper_call c e = Ok e' ->
  (fun t => (id t, color t)) <$> tracks e' = (fun t => (id t, color t)) <$> tracks e
  /\ length (tracks e') = length (tracks e).
Proof.
  intros Hcall.
  assert (Hids : (fun t => (id t, color t)) <$> tracks e'
                 = (fun t => (id t, color t)) <$> tracks e).
  { destruct (looper_call_cases c e e' Hcall)
      as [-> | [[-> ->] | (i & t & t' & rec & m & tr & Hg & -> & Hid & Hcol & _)]].
    - reflexivity.
    - unfold clearAllLoops. cbn [tracks with_looper]. rewrite <- list_fmap_compose.
      apply list_fmap_ext. intros k t _. reflexivity.
    - cbn [tracks with_looper]. unfold set_track. rewrite list_fmap_insert.
      destruct (get_Some _ _ _ Hg) as [_ Hl].
      apply list_insert_id. rewrite list_lookup_fmap, Hl. cbn. rewrite Hid, Hcol. reflexivity. }
  split; [exact Hids |].
  rewrite <- (length_fmap (fun t => (id t, color t)) (tracks e')), Hids.
  apply length_fmap.
Qed.

Lemma X23_tracks_keep_identity_witness :
  exists e1, startRecording 0 (new_engine "t0" "t1" "t2" "t3") = Ok e1
             /\ length (tracks e1) = 4%nat.
Proof.
  eexists. split; [reflexivity |].
  apply (proj2 (X23_tracks_keep_identity (CallStartRecording 0)
                  (new_engine "t0" "t1" "t2" "t3") _ eq_refl)).
Defined.

(** X24: on a take recorded after the loop length was fixed, at zero as
    it always is, a [stopRecording] whose [recorder.stop()] resolved keeps
    every ghost event's position, pointer id and color and their order, and
    turns every time into [NaN], the remainder of a division by zero; the
    loop length stays zero and no audio buffer is stored. *)
Theorem X24_later_take_times (e : AudioEngine) (i : Z) (now : R)
    (b : Buffer) (t : LoopTrack.t) :
  JS.get (tracks e) i = Some t -> isRecording t = true ->
  masterLoopDuration e = Some 0 ->
  exists e' t',
    stopRecording i now (Captured b) e = Ok e'
    /\ JS.get (tracks e') i = Some t'
    /\ masterLoopDuration e' = Some 0
    /\ audioBuffer t' = None
    /\ length (ghostEvents t') = length (ghostEvents t)
    /\ forall k ev, ghostEvents t !! k = Some ev ->
         exists ev', ghostEvents t' !! k = Some ev'
           /\ TouchEventData.x ev' = TouchEventData.x ev
           /\ TouchEventData.y ev' = TouchEventData.y ev
           /\ TouchEventData.id ev' = TouchEventData.id ev
           /\ TouchEventData.color ev' = TouchEventData.color ev
           /\ TouchEventData.time ev' = JS.NaN.
Proof.
  intros Hg Hrec Hm.
  do 2 eexists. split; [apply stopRecording_captured; eassumption |].
  rewrite Hm.
  split; [cbn; unfold set_track; eapply get_insert_eq, Hg |].
  split; [reflexivity |]. split; [reflexivity |].
  cbn [ghostEvents].
  split; [apply length_fmap |].
  intros k ev Hk. eexists. split; [rewrite list_lookup_fmap, Hk; reflexivity |].
  do 4 (split; [reflexivity |]).
  cbn. unfold JS.modulo, JS.sub.
  destruct (TouchEventData.time ev); [| reflexivity].
  destruct (Req_dec_T 0 0) as [_ | Hne]; [reflexivity | contradiction].
Qed.

Lemma X24_later_take_times_witness :
  exists e1 e2 e3 e4 e5 t5 ev,
    startRecording 0 (new_engine "t0" "t1" "t2" "t3") = Ok e1
    /\ stopRecording 0 5 (Captured {| duration := 2 |}) e1 = Ok e2
    /\ startRecording 1 e2 = Ok e3
    /\ recordTouchEvent 1 100 50 1 "#fff" 8 e3 = Ok e4
    /\ stopRecording 1 9 (Captured {| duration := 2 |}) e4 = Ok e5
    /\ JS.get (tracks e5) 1 = Some t5
    /\ ghostEvents t5 !! 0%nat = Some ev
    /\ TouchEventData.time ev = JS.NaN.
Proof.
  do 4 eexists.
  match goal with
  | |- exists e5 t5 ev, ?A /\ ?B /\ ?C /\ recordTouchEvent _ _ _ _ _ _ ?e3 = Ok ?e4 /\ _ =>
      assert (Hrun : A /\ B /\ C /\ recordTouchEvent 1 100 50 1 "#fff" 8 e3 = Ok e4)
        by (repeat split)
  end.
  match type of Hrun with
  | _ /\ _ /\ _ /\ _ = Ok ?e4 =>
      destruct (X24_later_take_times e4 1 9 {| duration := 2 |} _
                  eq_refl eq_refl eq_refl)
        as (e5 & t5 & Hstop & Hget & _ & _ & _ & Hev)
  end.
  destruct (Hev 0%nat _ eq_refl) as (ev & Hk & _ & _ & _ & _ & Hnan).
  exists e5, t5, ev. destruct Hrun as (H1 & H2 & H3 & H4).
  split; [exact H1 |]. split; [exact H2 |]. split; [exact H3 |]. split; [exact H4 |].
  split; [exact Hstop |]. split; [exact Hget |]. split; [exact Hk | exact Hnan].
Defined.

Lemma anyRecording_cleared e : anyRecording (clearAllLoops e) = false.
Proof.
  unfold anyRecording, clearAllLoops. cbn [tracks with_looper].
  induction (tracks e) as [| t l IH]; [reflexivity | exact IH].
Qed.

(** X25: [clearAllLoops] wipes every track (no buffer, no ghost events,
    not recording, not playing, a fresh player) and unsets the loop length
    whatever the engine was doing, without touching voices or the
    arpeggiator; afterwards any existing track can be recorded, and the
    first take whose [recorder.stop()] resolves fixes the loop length
    anew, at zero, and leaves the track playing with no audio buffer
    stored. *)
Theorem X25_clearAllLoops_then_first_take (e : AudioEngine) (i : Z)
    (t : LoopTrack.t) (now : R) (b : Buffer) :
  JS.get (tracks e) i = Some t ->
  let e0 := clearAllLoops e in
  masterLoopDuration e0 = None
  /\ Forall (fun t0 => audioBuffer t0 = None /\ ghostEvents t0 = []
                       /\ isRecording t0 = false /\ isPlaying t0 = false
                       /\ player t0 = Player.fresh) (tracks e0)
  /\ voices e0 = voices e /\ arpeggiator e0 = arpeggiator e
  /\ activeArpTouches e0 = activeArpTouches e
  /\ exists e1 e2 t2,
       startRecording i e0 = Ok e1
       /\ stopRecording i now (Captured b) e1 = Ok e2
       /\ masterLoopDuration e2 = Some 0
       /\ JS.get (tracks e2) i = Some t2
       /\ audioBuffer t2 = None /\ isPlaying t2 = true /\ isRecording t2 = false
       /\ Player.buffer (player t2) = ToneBuffer.create (Some b)
       /\ ghostEvents t2 = [] /\ id t2 = id t.
Proof.
  intros Hg e0. destruct (get_Some _ _ _ Hg) as [Hi Hl].
  split; [reflexivity |].
  split.
  { unfold e0, clearAllLoops. cbn [tracks with_looper]. apply Forall_fmap.
    apply Forall_forall. intros t0 _. cbn. repeat split. }
  split; [reflexivity |]. split; [reflexivity |]. split; [reflexivity |].
  set (t0 := {| id := id t; player := Player.fresh; volumeNode := volumeNode t;
                audioBuffer := None; ghostEvents := []; isRecording := false;
                isPlaying := false; color := color t |}).
  assert (Hg0 : JS.get (tracks e0) i = Some t0).
  { unfold JS.get. destruct (Z.ltb_spec i 0) as [Hneg | _]; [lia |].
    unfold e0, clearAllLoops. cbn [tracks with_looper].
    rewrite list_lookup_fmap, Hl. reflexivity. }
  assert (Hstart : startRecording i e0
                   = Ok (with_looper e0
                           (set_track e0 i
                              (with_recording t0 (Player.stop_unsync (player t0)) [] true))
                           true (masterLoopDuration e0) (transport e0))).
  { unfold startRecording. unfold e0 at 1. rewrite anyRecording_cleared, Hg0. reflexivity. }
  eexists. eexists. eexists. split; [exact Hstart |].
  assert (Hg1 : JS.get (set_track e0 i
                          (with_recording t0 (Player.stop_unsync (player t0)) [] true)) i
                = Some (with_recording t0 (Player.stop_unsync (player t0)) [] true)).
  { unfold set_track. eapply get_insert_eq, Hg0. }
  split.
  { apply stopRecording_captured; [cbn [tracks with_looper]; exact Hg1 | reflexivity]. }
  split; [reflexivity |].
  split.
  { cbn [tracks with_looper]. unfold set_track at 1. eapply get_insert_eq.
    cbn [tracks with_looper]. exact Hg1. }
  repeat split.
Qed.

Lemma X25_clearAllLoops_then_first_take_witness :
  masterLoopDuration (clearAllLoops (new_engine "t0" "t1" "t2" "t3")) = None
  /\ exists e1 e2,
       startRecording 2 (clearAllLoops (new_engine "t0" "t1" "t2" "t3")) = Ok e1
       /\ stopRecording 2 7 (Captured {| duration := 1 |}) e1 = Ok e2
       /\ masterLoopDuration e2 = Some 0.
Proof.
  destruct (X25_clearAllLoops_then_first_take (new_engine "t0" "t1" "t2" "t3") 2
              (new_track "t2" "#ccff00") 7 {| duration := 1 |} eq_refl)
    as (H & _ & _ & _ & _ & e1 & e2 & t2 & H1 & H2 & H3 & _).
  split; [exact H |]. exists e1, e2. split; [exact H1 |]. split; [exact H2 | exact H3].
Defined.

(** X26: [toggleTrackPlayback] only mutes or unmutes: the player stays
    synced and started with the same buffer, and the track's recording
    flag, ghost events, audio buffer and volume, the other tracks, the loop
    length and the transport are untouched.  A playing track ends muted
    and not playing; afterwards a track shown as playing is never muted. *)
Theorem X26_toggle_only_mutes (e : AudioEngine) (i : Z) (t : LoopTrack.t) :
  JS.get (tracks e) i = Some t ->
  exists e' t',
    toggleTrackPlayback i e = Ok e'
    /\ JS.get (tracks e') i = Some t'
    /\ Player.synced (player t') = Player.synced (player t)
    /\ Player.started (player t') = Player.started (player t)
    /\ Player.buffer (player t') = Player.buffer (player t)
    /\ audioBuffer t' = audioBuffer t /\ ghostEvents t' = ghostEvents t
    /\ isRecording t' = isRecording t /\ volumeNode t' = volumeNode t
    /\ (forall j, j <> i -> JS.get (tracks e') j = JS.get (tracks e) j)
    /\ masterLoopDuration e' = masterLoopDuration e /\ transport e' = transport e
    /\ (isPlaying t = true ->
        isPlaying t' = false /\ Player.mute (player t') = true)
    /\ (isPlaying t' = true -> Player.mute (player t') = false).
Proof.
  intros Hg. destruct (get_Some _ _ _ Hg) as [Hi _].
  unfold toggleTrackPlayback. rewrite Hg. cbn [ToneBuffer.truthy].
  destruct (isPlaying t) eqn:Hp.
  - do 2 eexists. split; [reflexivity |].
    split; [cbn; unfold set_track; eapply get_insert_eq, Hg |].
    do 7 (split; [reflexivity |]).
    split; [intros j Hj; cbn; unfold set_track; apply get_insert_ne; [exact Hi | congruence] |].
    split; [reflexivity |]. split; [reflexivity |].
    split; [intros _; split; reflexivity | discriminate].
  - do 2 eexists. split; [reflexivity |].
    split; [cbn; unfold set_track; eapply get_insert_eq, Hg |].
    do 7 (split; [reflexivity |]).
    split; [intros j Hj; cbn; unfold set_track; apply get_insert_ne; [exact Hi | congruence] |].
    split; [reflexivity |]. split; [reflexivity |].
    split; [discriminate | intros _; reflexivity].
Qed.

Lemma X26_toggle_only_mutes_witness :
  exists e' t', toggleTrackPlayback 3 (new_engine "t0" "t1" "t2" "t3") = Ok e'
                /\ JS.get (tracks e') 3 = Some t'.
Proof.
  destruct (X26_toggle_only_mutes (new_engine "t0" "t1" "t2" "t3") 3
              (new_track "t3" "#aa00ff") eq_refl) as (e' & t' & H1 & H2 & _).
  exists e', t'. split; [exact H1 | exact H2].
Defined.

(** *** Routing a touch to the recording tracks *)

(** The sample [recordTouchEvent] appends for track [idx]. *)
Let sample (x y : R) (id0 : Z) (col : string) (now : Z -> R) (idx : nat)
  : TouchEventData.t :=
  {| TouchEventData.time := now (Z.of_nat idx); TouchEventData.x := x;
     TouchEventData.y := y; TouchEventData.id := id0; TouchEventData.color := col |}.

(** The track after the visit of index [idx]. *)
Let visited (x y : R) (id0 : Z) (col : string) (now : Z -> R) (idx : nat)
    (t : LoopTrack.t) : LoopTrack.t :=
  if isRecording t
  then with_recording t (player t) (ghostEvents t ++ [sample x y id0 col now idx]) true
  else t.

Lemma with_looper_frame e ek r m tr T :
  ek = with_looper e (tracks ek) r m tr ->
  with_looper ek T (recorderStarted ek) (masterLoopDuration ek) (transport ek)
  = with_looper e T r m tr.
Proof. intros H. rewrite H. reflexivity. Qed.

Lemma recordTouch_prefix x y id0 col now e k :
  (k <= length (tracks e))%nat ->
  exists ek,
    fold_left (Panel.recordTouchVisit x y id0 col now) (Z.of_nat <$> seq 0 k) (Ok e) = Ok ek
    /\ ek = with_looper e (tracks ek) (recorderStarted e) (masterLoopDuration e) (transport e)
    /\ length (tracks ek) = length (tracks e)
    /\ forall j t, tracks e !! j = Some t ->
         tracks ek !! j = Some (if (j <? k)%nat then visited x y id0 col now j t else t).
Proof.
  induction k as [| k IH]; intros Hk.
  - exists e. split; [reflexivity |]. split; [symmetry; apply with_looper_id |].
    split; [reflexivity |]. intros j t Hj. exact Hj.
  - destruct (IH ltac:(lia)) as (ek & Hfold & Hframe & Hlen & Htracks).
    rewrite seq_S, fmap_app, fold_left_app, Hfold. cbn [fmap list_fmap fold_left Nat.add].
    destruct (lookup_lt_is_Some_2 (tracks e) k ltac:(lia)) as [t Ht].
    pose proof (Htracks k t Ht) as Hek. rewrite Nat.ltb_irrefl in Hek.
    assert (Hget : JS.get (tracks ek) (Z.of_nat k) = Some t).
    { unfold JS.get. destruct (Z.ltb_spec (Z.of_nat k) 0) as [Hneg | _]; [lia |].
      rewrite Nat2Z.id. exact Hek. }
    unfold Panel.recordTouchVisit. rewrite Hget.
    destruct (isRecording t) eqn:Hrec.
    + unfold recordTouchEvent. rewrite Hget, Hrec.
      eexists. split; [reflexivity |].
      split; [apply with_looper_frame, Hframe |].
      cbn [tracks with_looper]. unfold set_track. rewrite Nat2Z.id.
      split; [rewrite length_insert; exact Hlen |].
      intros j t' Hj. destruct (decide (j = k)) as [-> | Hne].
      * rewrite list_lookup_insert_eq by (rewrite Hlen; lia).
        assert (t' = t) by congruence. subst t'.
        replace (k <? S k)%nat with true by (symmetry; apply Nat.ltb_lt; lia).
        unfold visited. rewrite Hrec. reflexivity.
      * rewrite list_lookup_insert_ne by congruence. rewrite (Htracks j t' Hj).
        destruct (Nat.ltb_spec j k), (Nat.ltb_spec j (S k)); try lia; reflexivity.
    + exists ek. split; [reflexivity |]. split; [exact Hframe |]. split; [exact Hlen |].
      intros j t' Hj. destruct (decide (j = k)) as [-> | Hne].
      * assert (t' = t) by congruence. subst t'. rewrite Hek.
        replace (k <? S k)%nat with true by (symmetry; apply Nat.ltb_lt; lia).
        unfold visited. rewrite Hrec. reflexivity.
      * rewrite (Htracks j t' Hj).
        destruct (Nat.ltb_spec j k), (Nat.ltb_spec j (S k)); try lia; reflexivity.
Qed.

(** X27: routing a touch through [recordTouchIfActive] never throws; it
    appends the sample, stamped with the clock, to the ghost events of
    every track that is recording, after the ones already there, and
    leaves the tracks that are not recording, and everything outside the
    tracks, exactly as they were. *)
Theorem X27_recordTouchIfActive (e : AudioEngine) (x y : R) (id0 : Z)
    (col : string) (now : Z -> R) :
  exists e',
    Panel.recordTouchIfActive x y id0 col now e = Ok e'
    /\ e' = with_looper e (tracks e') (recorderStarted e) (masterLoopDuration e) (transport e)
    /\ length (tracks e') = length (tracks e)
    /\ forall j t, tracks e !! j = Some t ->
         tracks e' !! j
         = Some (if isRecording t
                 then with_recording t (player t)
                        (ghostEvents t
                         ++ [{| TouchEventData.time := now (Z.of_nat j);
                                TouchEventData.x := x; TouchEventData.y := y;
                                TouchEventData.id := id0; TouchEventData.color := col |}])
                        true
                 else t).
Proof.
  destruct (recordTouch_prefix x y id0 col now e (length (tracks e)) (le_n _))
    as (e' & Hfold & Hframe & Hlen & Htracks).
  exists e'. split; [exact Hfold |]. split; [exact Hframe |]. split; [exact Hlen |].
  intros j t Hj. rewrite (Htracks j t Hj).
  replace (j <? length (tracks e))%nat with true
    by (symmetry; apply Nat.ltb_lt; eapply lookup_lt_Some, Hj).
  reflexivity.
Qed.

Lemma X27_recordTouchIfActive_witness :
  exists e', Panel.recordTouchIfActive 100 50 1 "#fff" (fun _ => 3)
               (new_engine "t0" "t1" "t2" "t3") = Ok e'
             /\ tracks e' !! 0%nat = Some (new_track "t0" "#00f0ff").
Proof.
  destruct (X27_recordTouchIfActive (new_engine "t0" "t1" "t2" "t3") 100 50 1 "#fff"
              (fun _ => 3)) as (e' & H1 & _ & _ & H2).
  exists e'. split; [exact H1 |]. apply (H2 0%nat (new_track "t0" "#00f0ff") eq_refl).
Defined.

End LooperExtras.

(* ===================================================================== *)
(** ** The quantizer and the chords: further properties *)
(* ===================================================================== *)

Section MusicExtras.

Import JS Music.
Local Open Scope R_scope.

Lemma pow2_le x y : x <= y -> pow2 x <= pow2 y.
Proof.
  intros [Hlt | ->]; [left; apply pow2_lt, Hlt | right; reflexivity].
Qed.

Lemma pow2_log2 x : 0 < x -> pow2 (log2 x) = x.
Proof.
  intros Hx. unfold pow2, log2, Rpower.
  replace (ln x / ln 2 * ln 2) with (ln x) by (field; pose proof ln2_pos; lra).
  apply exp_ln, Hx.
Qed.

Lemma pow2_succ x : pow2 (x + 1) = 2 * pow2 x.
Proof.
  unfold pow2. rewrite Rpower_plus, Rpower_1 by lra. ring.
Qed.

(** X28: quantizing never leaves the octave band of the input: with
    [o = floor(log2(freq/rootFreq))], both the frequency and its quantized
    value lie in [[rootFreq * 2^o, rootFreq * 2^(o+1))], and the quantized
    semitone count lies between [12*o] and [12*o + 11]. *)
Theorem X28_quantize_stays_in_octave (freq rootFreq : R) (sc : ScaleType) :
  0 < freq -> 0 < rootFreq -> sc <> chromatic ->
  let o := floor (log2 (freq / rootFreq)) in
  (rootFreq * pow2 (IZR o) <= freq < rootFreq * pow2 (IZR o + 1))
  /\ (12 * o <= getNearestScaleNote (12 * log2 (freq / rootFreq)) sc <= 12 * o + 11)%Z
  /\ (rootFreq * pow2 (IZR o) <= quantizeFrequency freq rootFreq sc
      < rootFreq * pow2 (IZR o + 1)).
Proof.
  intros Hf Hr Hsc o.
  set (L := log2 (freq / rootFreq)) in *.
  assert (Hratio : 0 < freq / rootFreq).
  { unfold Rdiv. apply Rmult_lt_0_compat; [exact Hf | apply Rinv_0_lt_compat, Hr]. }
  assert (HfL : freq = rootFreq * pow2 L).
  { unfold L. rewrite pow2_log2 by exact Hratio. field. lra. }
  pose proof (floor_bound L) as [Hlo Hhi]. fold o in Hlo, Hhi.
  assert (Hoct : floor (12 * L / 12) = o) by (unfold o; f_equal; field).
  destruct (getNearestScaleNote_form (12 * L) sc) as (iv & Hin & Hk).
  rewrite Hoct in Hk. pose proof (scale_range sc iv Hin) as Hiv.
  split.
  { split.
    - apply Rle_trans with (rootFreq * pow2 L); [| right; symmetry; exact HfL].
      apply Rmult_le_compat_l; [lra | apply pow2_le, Hlo].
    - apply Rle_lt_trans with (rootFreq * pow2 L); [right; exact HfL |].
      apply Rmult_lt_compat_l; [exact Hr | apply pow2_lt, Hhi]. }
  split; [rewrite Hk; lia |].
  rewrite quantizeFrequency_unfold by exact Hsc. fold L. rewrite Hk.
  rewrite plus_IZR, mult_IZR.
  assert (H0 : 0 <= IZR iv) by (apply (IZR_le 0 iv); lia).
  assert (H11 : IZR iv <= 11) by (apply (IZR_le iv 11); lia).
  split.
  - apply Rmult_le_compat_l; [lra | apply pow2_le; lra].
  - apply Rmult_lt_compat_l; [exact Hr | apply pow2_lt; lra].
Qed.

Lemma X28_quantize_stays_in_octave_witness :
  261.63 * pow2 (IZR (floor (log2 (300 / 261.63))))
  <= quantizeFrequency 300 261.63 major
  < 261.63 * pow2 (IZR (floor (log2 (300 / 261.63))) + 1).
Proof.
  destruct (X28_quantize_stays_in_octave 300 261.63 major
              ltac:(lra) ltac:(lra) ltac:(discriminate)) as (_ & _ & H).
  exact H.
Defined.

Lemma scale_has_root sc : In 0%Z (intervals (SCALES sc)).
Proof. destruct sc; left; reflexivity. Qed.

Lemma nearest_to_12_is_top sc :
  nearest_loop 12 (intervals (SCALES sc)) = List.last (intervals (SCALES sc)) 0%Z.
Proof. destruct sc; reflexivity. Qed.

Lemma below_boundary_floor (k : Z) (d : R) :
  0 < d <= / 2 -> floor ((12 * IZR k - d) / 12) = (k - 1)%Z.
Proof. intros Hd. apply floor_spec. rewrite minus_IZR. lra. Qed.

Lemma below_boundary_negative sc (k : Z) (d : R) :
  0 < d <= / 2 -> (k <= 0)%Z ->
  getNearestScaleNote (12 * IZR k - d) sc = (12 * k - 12)%Z.
Proof.
  intros Hd Hk. assert (HkR : IZR k <= 0) by (apply (IZR_le k 0), Hk).
  unfold getNearestScaleNote. cbv zeta.
  rewrite below_boundary_floor by exact Hd. rewrite nearest_loop_first.
  rewrite normalizedIndex_neg by lra. unfold spec_position.
  assert (Hround : round (12 * IZR k - d) = (12 * k)%Z).
  { apply floor_spec. rewrite mult_IZR. lra. }
  rewrite Hround, (mod12_unique (12 * k) k 0) by lia.
  rewrite first_nearest_self by apply scale_has_root. lia.
Qed.

(** X29: just below an octave boundary the search does not reach the
    boundary.  For an offset [12*k - d] with [0 < d <= 1/2]: when it is
    negative ([k <= 0]) the result is [12*k - 12], a whole octave below the
    boundary it is next to; when it is positive ([k >= 1]) the result is
    the highest degree of the scale in the octave below, [12*(k-1) + top].
    So a frequency up to half a semitone under the root is quantized to the
    root one octave down. *)
Theorem X29_octave_boundary (sc : ScaleType) (k : Z) (d : R) :
  0 < d <= / 2 ->
  ((k <= 0)%Z -> getNearestScaleNote (12 * IZR k - d) sc = (12 * k - 12)%Z)
  /\ ((1 <= k)%Z ->
      getNearestScaleNote (12 * IZR k - d) sc
      = (12 * (k - 1) + List.last (intervals (SCALES sc)) 0)%Z)
  /\ (forall rootFreq, 0 < rootFreq -> sc <> chromatic ->
        quantizeFrequency (rootFreq * pow2 (- d / 12)) rootFreq sc = rootFreq / 2).
Proof.
  intros Hd.
  split; [apply below_boundary_negative, Hd |].
  split.
  { intros Hk. assert (HkR : 1 <= IZR k) by (apply (IZR_le 1 k), Hk).
    set (s := 12 * IZR k - d).
    assert (Hoct : floor (s / 12) = (k - 1)%Z) by (apply below_boundary_floor, Hd).
    unfold getNearestScaleNote. cbv zeta. rewrite Hoct.
    destruct (rem12_nonneg s ltac:(unfold s; lra)) as [Hrem _].
    rewrite Hoct, minus_IZR in Hrem.
    destruct (normalizedIndex_nonneg s ltac:(unfold s; lra)) as [_ Hhi].
    destruct (Hhi ltac:(unfold s in *; lra)) as [-> _].
    rewrite nearest_to_12_is_top. lia. }
  intros rootFreq Hr Hsc.
  rewrite quantizeFrequency_unfold by exact Hsc.
  replace (rootFreq * pow2 (- d / 12) / rootFreq) with (pow2 (- d / 12)) by (field; lra).
  rewrite log2_pow2.
  replace (12 * (- d / 12)) with (12 * IZR 0 - d) by lra.
  rewrite below_boundary_negative by (exact Hd || lia).
  change (12 * 0 - 12)%Z with (-12)%Z.
  replace (-12 / 12) with (- (1)) by lra.
  unfold pow2. rewrite Rpower_Ropp, Rpower_1 by lra. field.
Qed.

Lemma X29_octave_boundary_witness :
  getNearestScaleNote (12 * IZR 0 - / 4) major = (12 * 0 - 12)%Z.
Proof.
  destruct (X29_octave_boundary major 0 (/ 4) ltac:(lra)) as (H & _).
  apply H. lia.
Defined.

(** The diatonic branch yields three tones read from the scale at the
    position of the quantized base note. *)
Lemma diatonic_triad_shape baseFreq rootFreq sc :
  sc <> chromatic ->
  exists (i : nat) (o : Z),
    (i < length (intervals (SCALES sc)))%nat
    /\ getChordFrequencies baseFreq rootFreq sc triad
       = chord_tone rootFreq (intervals (SCALES sc)) (Z.of_nat i) o <$> [0; 2; 4]%Z.
Proof.
  intros Hsc. set (s := 12 * log2 (baseFreq / rootFreq)).
  destruct (getNearestScaleNote_form s sc) as (iv & Hin & Hk).
  pose proof (scale_range sc iv Hin) as Hrng.
  destruct (index_loop_degree sc iv Hin) as (i & Hi & Hnth & Hidx).
  exists i, (floor (s / 12)). split; [exact Hi |].
  unfold getChordFrequencies. cbn [CHORD_INTERVALS].
  replace (is_chromatic sc) with false by (destruct sc; congruence || reflexivity).
  cbv zeta. fold s. rewrite Hk.
  rewrite normBaseMod_degree by exact Hrng.
  rewrite octave_of_semitones by exact Hrng.
  rewrite Hidx.
  destruct (Z.eqb_spec (Z.of_nat i) (-1)); [lia | reflexivity].
Qed.

Lemma chord_tone_degree rootFreq ivs idx o offset :
  chord_tone rootFreq ivs idx o offset
  = rootFreq * pow2 (IZR (chord_degree ivs idx offset) / 12 + IZR o).
Proof.
  unfold chord_tone, chord_degree. cbv zeta.
  set (A := nth _ ivs 0%Z). set (B := ((idx + offset) / Z.of_nat (length ivs))%Z).
  f_equal. f_equal. rewrite !plus_IZR, !mult_IZR, plus_IZR. field.
Qed.

(** Stacked thirds climb, and stay within an octave of the lowest tone. *)
Lemma chord_degree_thirds sc (i : nat) :
  sc <> chromatic -> (i < length (intervals (SCALES sc)))%nat ->
  let ivs := intervals (SCALES sc) in
  (chord_degree ivs (Z.of_nat i) 0 < chord_degree ivs (Z.of_nat i) 2
   < chord_degree ivs (Z.of_nat i) 4)%Z
  /\ (chord_degree ivs (Z.of_nat i) 4 < chord_degree ivs (Z.of_nat i) 0 + 12)%Z.
Proof.
  intros Hsc Hi.
  destruct sc; try congruence; cbn in Hi;
    do 7 (destruct i as [| i]; [vm_compute; repeat split; reflexivity |]);
    lia.
Qed.

Ltac chord_ascending Hb :=
  repeat first
    [ apply Sorted_nil
    | apply HdRel_nil
    | apply Sorted_cons
    | apply HdRel_cons;
      apply Rmult_lt_compat_l; [exact Hb | apply pow2_lt; lra] ].

(** X30: every chord [getChordFrequencies] returns for positive
    frequencies is strictly ascending and made of positive frequencies,
    whatever the chord type and scale; a triad, diatonic or chromatic,
    spans less than an octave. *)
Theorem X30_chords_ascend (baseFreq rootFreq : R) (sc : ScaleType) (ct : ChordType) :
  0 < baseFreq -> 0 < rootFreq ->
  Sorted Rlt (getChordFrequencies baseFreq rootFreq sc ct)
  /\ Forall (fun x => 0 < x) (getChordFrequencies baseFreq rootFreq sc ct)
  /\ (ct = triad ->
      exists lo mid hi,
        getChordFrequencies baseFreq rootFreq sc ct = [lo; mid; hi] /\ hi < 2 * lo).
Proof.
  intros Hb Hr.
  assert (Hpos : forall b x, 0 < b -> 0 < b * pow2 x).
  { intros b x Hb0. apply Rmult_lt_0_compat; [exact Hb0 | apply pow2_pos]. }
  destruct (decide (ct = triad /\ sc <> chromatic)) as [[-> Hsc] | Hfixed].
  - destruct (diatonic_triad_shape baseFreq rootFreq sc Hsc) as (i & o & Hi & ->).
    destruct (chord_degree_thirds sc i Hsc Hi) as [[H02 H24] H40].
    cbn [fmap list_fmap]. rewrite !chord_tone_degree.
    set (ivs := intervals (SCALES sc)) in *.
    apply IZR_lt in H02, H24, H40. rewrite plus_IZR in H40.
    split.
    { repeat first
        [ apply Sorted_nil | apply HdRel_nil | apply Sorted_cons
        | apply HdRel_cons; apply Rmult_lt_compat_l; [exact Hr | apply pow2_lt; lra] ]. }
    split; [repeat constructor; apply Hpos, Hr |].
    intros _. do 3 eexists. split; [reflexivity |].
    replace (2 * (rootFreq * pow2 (IZR (chord_degree ivs (Z.of_nat i) 0) / 12 + IZR o)))
      with (rootFreq * pow2 (IZR (chord_degree ivs (Z.of_nat i) 0) / 12 + IZR o + 1))
      by (rewrite pow2_succ; ring).
    apply Rmult_lt_compat_l; [exact Hr | apply pow2_lt; lra].
  - destruct ct.
    + split; [repeat constructor |]. split; [repeat constructor; exact Hb | discriminate].
    + destruct sc; try (exfalso; apply Hfixed; split; [reflexivity | discriminate]).
      cbn. split; [chord_ascending Hb |].
      split; [repeat constructor; apply Hpos, Hb |].
      intros _. do 3 eexists. split; [reflexivity |].
      replace (2 * (baseFreq * pow2 (0 / 12))) with (baseFreq * pow2 (0 / 12 + 1))
        by (rewrite pow2_succ; ring).
      apply Rmult_lt_compat_l; [exact Hb | apply pow2_lt; lra].
    + cbn. split; [chord_ascending Hb |].
      split; [repeat constructor; apply Hpos, Hb | discriminate].
    + cbn. split; [chord_ascending Hb |].
      split; [repeat constructor; apply Hpos, Hb | discriminate].
    + cbn. split; [chord_ascending Hb |].
      split; [repeat constructor; apply Hpos, Hb | discriminate].
    + cbn. split; [chord_ascending Hb |].
      split; [repeat constructor; apply Hpos, Hb | discriminate].
    + cbn. split; [chord_ascending Hb |].
      split; [repeat constructor; apply Hpos, Hb | discriminate].
    + cbn. split; [chord_ascending Hb |].
      split; [repeat constructor; apply Hpos, Hb | discriminate].
    + cbn. split; [chord_ascending Hb |].
      split; [repeat constructor; apply Hpos, Hb | discriminate].
    + cbn. split; [chord_ascending Hb |].
      split; [repeat constructor; apply Hpos, Hb | discriminate].
    + cbn. split; [chord_ascending Hb |].
      split; [repeat constructor; apply Hpos, Hb | discriminate].
Qed.

Lemma X30_chords_ascend_witness :
  Sorted Rlt (getChordFrequencies 300 261.63 major triad).
Proof.
  destruct (X30_chords_ascend 300 261.63 major triad ltac:(lra) ltac:(lra)) as (H & _).
  exact H.
Defined.

End MusicExtras.
